(** * evolocity.plotting.evolocity_plotting: a shallow embedding

    The module under verification has four entry points:
    [shortest_path], [draw_path], [residue_scores] and
    [residue_categories].  Each is embedded below as a function over an
    explicit world (the numpy arrays reachable from the dataset, by
    identity, and the trace of calls made to the plotting and graph
    libraries), returning either a value or the Python exception raised. *)

From Stdlib Require Import Ascii QArith Qabs Qround Lqa.
From stdpp Require Import gmap strings list sorting pretty.

#[local] Set Warnings "-clear-no-such-hyp".

Open Scope string_scope.
Open Scope Q_scope.
Open Scope nat_scope.
Open Scope list_scope.
Open Scope stdpp_scope.

(** ** Numbers

    numpy's floating-point cells.  Finite values are exact rationals: the
    rounding of a result in its last bits is outside the model. What
    float32 changes beyond that is inside it: the conversion of a float64
    array to float32 ([float32_of]) and the overflow of a float32 sum
    ([overflow32]). The two infinities and NaN are kept
    because [residue_categories] writes [float('inf')] into the score
    matrix and numpy's reductions treat NaN specially. *)
Inductive float :=
| NaN
| NInf
| Fin (q : Q)
| PInf.

(** IEEE comparison [a >= b]: false as soon as one side is NaN. *)
Definition fge (a b : float) : bool :=
  match a, b with
  | NaN, _ | _, NaN => false
  | PInf, _ => true
  | _, NInf => true
  | NInf, _ => false
  | _, PInf => false
  | Fin x, Fin y => Qle_bool y x
  end.

Definition fgt (a b : float) : bool :=
  match a, b with
  | NaN, _ | _, NaN => false
  | NInf, _ => false
  | _, PInf => false
  | PInf, _ => true
  | _, NInf => true
  | Fin x, Fin y => negb (Qle_bool x y)
  end.

(** IEEE [a == b]. *)
Definition feq (a b : float) : bool :=
  match a, b with
  | NInf, NInf | PInf, PInf => true
  | Fin x, Fin y => Qeq_bool x y
  | _, _ => false
  end.

Definition isnan (a : float) : bool :=
  match a with NaN => true | _ => false end.

Definition fabs (a : float) : float :=
  match a with
  | NaN => NaN
  | NInf | PInf => PInf
  | Fin q => Fin (Qabs q)
  end.

Definition fneg (a : float) : float :=
  match a with
  | NaN => NaN
  | NInf => PInf
  | PInf => NInf
  | Fin q => Fin (- q)
  end.

Definition fadd (a b : float) : float :=
  match a, b with
  | NaN, _ | _, NaN => NaN
  | PInf, NInf | NInf, PInf => NaN
  | PInf, _ | _, PInf => PInf
  | NInf, _ | _, NInf => NInf
  | Fin x, Fin y => Fin (x + y)
  end.

Definition fsub (a b : float) : float := fadd a (fneg b).

Definition fmul (a b : float) : float :=
  match a, b with
  | NaN, _ | _, NaN => NaN
  | Fin x, Fin y => Fin (x * y)
  | Fin x, inf | inf, Fin x =>
      if Qeq_bool x 0 then NaN
      else if Qle_bool 0 x then inf else fneg inf
  | PInf, PInf | NInf, NInf => PInf
  | PInf, NInf | NInf, PInf => NaN
  end.

(** IEEE division; the sign of a zero is not tracked, and the only zero
    divisor this module produces ([end] below) is never negative. *)
Definition fdiv (a b : float) : float :=
  match a, b with
  | NaN, _ | _, NaN => NaN
  | Fin x, Fin y =>
      if Qeq_bool y 0 then
        if Qeq_bool x 0 then NaN else if Qle_bool 0 x then PInf else NInf
      else Fin (x / y)
  | Fin _, _ => Fin 0
  | PInf, Fin y => if Qle_bool 0 y then PInf else NInf
  | NInf, Fin y => if Qle_bool 0 y then NInf else PInf
  | _, _ => NaN
  end.

(** Python's builtin [max(a, b)]: the first argument unless the second is
    strictly greater. *)
Definition py_max (a b : float) : float := if fgt b a then b else a.

(** ** Exceptions, results and the world *)

Inductive exn :=
| ValueError (msg : string)   (* raised by this module, with its message *)
| KeyError (key : string)     (* a missing dict key or obs label *)
| IndexError
| AssertionError
| NumpyValueError             (* zero-size reduction, inconsistent shapes, bad percentile *)
| AnnDataValueError           (* var_names of the wrong length *)
| NodeNotFound
| NetworkXNoPath
| NetworkXError.

(** What a call comes to: a value, an exception, or (for the loops that are
    run on fuel) no answer within the fuel given. *)
Inductive result (A : Type) :=
| Ok (a : A)
| Raise (e : exn)
| OutOfFuel.
Arguments Ok {A} a.
Arguments Raise {A} e.
Arguments OutOfFuel {A}.

Inductive dtype := float32 | float64.

(** A two-dimensional numpy array in C order. *)
Record ndarray := NdArray {
  nd_dtype : dtype;
  nd_rows : nat;
  nd_cols : nat;
  nd_data : list float
}.

(** Calls into matplotlib, seaborn, scanpy, networkx and the logger, in the
    order they are made. A drawing surface is named by the number of the
    figure it belongs to. *)
Inductive event :=
| Figure (fig : nat) (figsize : option (nat * nat))
| Arrow (ax : nat) (x y dx dy width head_width : float) (color : string) (zorder : nat)
| Scatter (ax : nat) (xs ys : list float) (s : float) (c edgecolors : string) (zorder : nat)
| Heatmap (fig : nat) (X : list (list float)) (xticklabels yticklabels : list string)
| Savefig (fname : string)
| Close
| Umap (color save : string)
| LoggInfo (msg : string)
| SparseSub
| NxGraph (nodes : nat).

Record world := World {
  arrays : gmap nat ndarray;           (* numpy arrays, by identity *)
  obs : gmap string (list string);     (* the obs columns this module adds *)
  nfig : nat;                          (* figures created so far; the last one is current *)
  trace : list event
}.

Definition M (A : Type) : Type := world -> world * result A.

Definition ret {A} (a : A) : M A := fun w => (w, Ok a).
Definition raise {A} (e : exn) : M A := fun w => (w, Raise e).
Definition bind {A B} (m : M A) (k : A -> M B) : M B :=
  fun w => match m w with
           | (w', Ok a) => k a w'
           | (w', Raise e) => (w', Raise e)
           | (w', OutOfFuel) => (w', OutOfFuel)
           end.
Definition emit (e : event) : M unit :=
  fun w => (World (arrays w) (obs w) (nfig w) (trace w ++ [e]), Ok tt).
Definition lift {A} (r : result A) : M A := fun w => (w, r).

Notation "'let!' x ':=' m 'in' k" := (bind m (fun x => k))
  (at level 10, x pattern, m at level 100, k at level 200).
Notation "m ';;' k" := (bind m (fun _ => k))
  (at level 100, k at level 200, right associativity).

(** ** The annotated dataset

    Only the annotations this module reads or writes. Sparse matrices are
    given by their rows; an entry of a difference is stored when it is not
    zero. Dense arrays of [adata.uns] are held by identity, so that a
    write through one name is seen through every other. *)
Record AnnData := {
  obs_seq : list string;                        (* adata.obs['seq'] *)
  obs_seqs_msa : list string;                   (* adata.obs['seqs_msa'] *)
  obsm : gmap string (list (list float));       (* adata.obsm *)
  neighbors_distances : list (list float);
  uns_graph : gmap string (list (list float));  (* sparse matrices of adata.uns *)
  uns_array : gmap string nat;                  (* dense arrays of adata.uns *)
  uns_vocabulary : gmap string (gmap nat string)
}.

(** Modelled from the spec: [get_neighs] is not defined in this file; the
    spec's data model calls what it returns the neighbor-distance sparse
    matrix of the dataset. *)
Definition get_neighs (adata : AnnData) (mode : string) : list (list float) :=
  neighbors_distances adata.

(** ** networkx

    [G.adj] of an undirected [nx.Graph] on the nodes [0 .. n-1]: for each
    node its neighbours, in the order their dict keys were inserted. *)
Abbreviation nxgraph := (list (list nat)).

Definition neighbors (G : nxgraph) (v : nat) : list nat := default [] (G !! v).

Definition adj_add (u v : nat) (G : nxgraph) : nxgraph :=
  match G !! u with
  | Some ns => if decide (v ∈ ns) then G else <[u := ns ++ [v]]> G
  | None => G
  end.

(** [Graph.add_edge]: [adj[u][v]] and [adj[v][u]] are both set. *)
Definition add_edge (G : nxgraph) (e : nat * nat) : nxgraph :=
  adj_add e.2 e.1 (adj_add e.1 e.2 G).

(** A cell of a sparse result is stored when it is not zero. *)
Definition stored (x : float) : bool := negb (feq x (Fin 0)).

(** The (row, column) pairs of a CSR matrix, row by row. *)
Definition csr_triples (T : list (list float)) : list (nat * nat) :=
  mjoin (imap (fun i row =>
           omap (fun jx => if stored jx.2 then Some (i, jx.1) else None)
                (imap pair row)) T).

Definition is_square (T : list (list float)) : bool :=
  forallb (fun row => Nat.eqb (length row) (length T)) T.

(** [nx.convert_matrix.from_scipy_sparse_matrix(T)] with its defaults:
    [create_using=None] builds an undirected [nx.Graph]. *)
Definition from_scipy_sparse_matrix (T : list (list float)) : result nxgraph :=
  if is_square T
  then Ok (foldl add_edge (replicate (length T) []) (csr_triples T))
  else Raise NetworkXError.

(** The search dictionaries [pred] and [succ]: node to the node it was
    reached from, [None] at the root. *)
Inductive visit :=
| Found (w : nat) (mine : gmap nat (option nat))
| Next (mine : gmap nat (option nat)) (fringe : list nat).

(** The inner [for w in G.adj[v]] of one search direction: [mine] is the
    dictionary of the direction being grown, [other] the opposite one. *)
Fixpoint visit_nbrs (v : nat) (ws : list nat)
    (mine other : gmap nat (option nat)) (fringe : list nat) : visit :=
  match ws with
  | [] => Next mine fringe
  | w :: ws' =>
      let mine' := if mine !! w is None then <[w := Some v]> mine else mine in
      let fringe' := if mine !! w is None then fringe ++ [w] else fringe in
      if other !! w is Some _ then Found w mine'
      else visit_nbrs v ws' mine' other fringe'
  end.

(** [for v in this_level]. *)
Fixpoint visit_level (G : nxgraph) (level : list nat)
    (mine other : gmap nat (option nat)) (fringe : list nat) : visit :=
  match level with
  | [] => Next mine fringe
  | v :: vs =>
      match visit_nbrs v (neighbors G v) mine other fringe with
      | Found w m => Found w m
      | Next m f => visit_level G vs m other f
      end
  end.

(** [_bidirectional_pred_succ] after its [source == target] shortcut: the
    [while forward_fringe and reverse_fringe] loop. *)
Fixpoint bidirectional_loop (fuel : nat) (G : nxgraph)
    (pred succ : gmap nat (option nat)) (forward_fringe reverse_fringe : list nat)
    : result (gmap nat (option nat) * gmap nat (option nat) * nat) :=
  match fuel with
  | 0 => OutOfFuel
  | S fuel' =>
      match forward_fringe, reverse_fringe with
      | [], _ | _, [] => Raise NetworkXNoPath
      | _, _ =>
          if bool_decide (length forward_fringe <= length reverse_fringe) then
            match visit_level G forward_fringe pred succ [] with
            | Found w pred' => Ok (pred', succ, w)
            | Next pred' fringe => bidirectional_loop fuel' G pred' succ fringe reverse_fringe
            end
          else
            match visit_level G reverse_fringe succ pred [] with
            | Found w succ' => Ok (pred, succ', w)
            | Next succ' fringe => bidirectional_loop fuel' G pred succ' forward_fringe fringe
            end
      end
  end.

Definition bidirectional_pred_succ (G : nxgraph) (source target : nat)
    : result (gmap nat (option nat) * gmap nat (option nat) * nat) :=
  if decide (target = source) then Ok ({[target := None]}, {[source := None]}, source)
  else bidirectional_loop (2 * length G + 1) G
         {[source := None]} {[target := None]} [source] [target].

(** [while w is not None: path.append(w); w = m[w]]. *)
Fixpoint follow (fuel : nat) (m : gmap nat (option nat)) (w : option nat)
    : result (list nat) :=
  match w with
  | None => Ok []
  | Some x =>
      match fuel with
      | 0 => OutOfFuel
      | S fuel' =>
          match m !! x with
          | None => Raise (KeyError "")
          | Some nxt =>
              match follow fuel' m nxt with
              | Ok p => Ok (x :: p)
              | r => r
              end
          end
      end
  end.

Definition bidirectional_shortest_path (G : nxgraph) (source target : nat)
    : result (list nat) :=
  if bool_decide (source < length G ∧ target < length G) then
    match bidirectional_pred_succ G source target with
    | Ok (pred, succ, w) =>
        match follow (S (size pred)) pred (Some w) with
        | Ok back =>
            let path := reverse back in
            match succ !! w with
            | None => Raise (KeyError "")
            | Some nxt =>
                match follow (S (size succ)) succ nxt with
                | Ok rest => Ok (path ++ rest)
                | r => r
                end
            end
        | r => r
        end
    | Raise e => Raise e
    | OutOfFuel => OutOfFuel
    end
  else Raise NodeNotFound.

(** [nx.shortest_path(G, source, target)] with no weight: the
    bidirectional breadth-first search. *)
Definition nx_shortest_path := bidirectional_shortest_path.

(** ** [shortest_path] *)

(** [np.min] of a vector of counts; numpy refuses an empty one. *)
Definition np_min_nat (l : list nat) : result nat :=
  match l with
  | [] => Raise NumpyValueError
  | x :: l' => Ok (foldl Nat.min x l')
  end.

(** [(m > 0).sum(1).A1]: for each row the number of positive entries. *)
Definition positive_per_row (m : list (list float)) : list nat :=
  (fun row => length (filter (fun x => fgt x (Fin 0) = true) row)) <$> m.

(** Subtraction of two sparse matrices; the shapes must agree. *)
Definition sparse_sub (A B : list (list float)) : result (list (list float)) :=
  if decide (length <$> A = length <$> B)
  then Ok (zip_with (zip_with fsub) A B)
  else Raise NumpyValueError.

Definition corrupted_neighbors : exn :=
  ValueError "Your neighbor graph seems to be corrupted. Consider recomputing via scanpy.pp.neighbors.".

Definition missing_graph : exn := ValueError "Must run velocity_graph() first.".

Definition uns_lookup {A} (m : gmap string A) (key : string) : M A :=
  match m !! key with
  | Some x => ret x
  | None => raise (KeyError key)
  end.

Definition shortest_path (adata : AnnData) (source_idx target_idx : nat)
    (vkey : string) : M (list nat) :=
  let! fewest := lift (np_min_nat (positive_per_row (get_neighs adata "distances"))) in
  if decide (fewest = 0) then raise corrupted_neighbors
  else if uns_graph adata !! (vkey +:+ "_graph") is None then raise missing_graph
  else
    let! pos := uns_lookup (uns_graph adata) (vkey +:+ "_graph") in
    let! neg := uns_lookup (uns_graph adata) (vkey +:+ "_graph_neg") in
    let! T := lift (sparse_sub pos neg) in
    emit SparseSub ;;
    let! G := lift (from_scipy_sparse_matrix T) in
    emit (NxGraph (length G)) ;;
    lift (nx_shortest_path G source_idx target_idx).

(** ** [draw_path] *)

Definition missing_path_arguments : exn :=
  ValueError "Must provide path indices or source and target indices.".

Definition missing_basis (basis : string) : exn :=
  ValueError ("Basis " +:+ basis +:+ " not found in AnnData.").

(** [plt.figure(...)] followed by [plt.gca()]. *)
Definition new_figure (figsize : option (nat * nat)) : M nat :=
  fun w => let fig := S (nfig w) in
           (World (arrays w) (obs w) fig (trace w ++ [Figure fig figsize]), Ok fig).

(** [X[path, col]]: one coordinate of every node of the path. *)
Definition take_column (X : list (list float)) (path : list nat) (col : nat)
    : result (list float) :=
  match mapM (fun i => X !! i ≫= (.!! col)) path with
  | Some xs => Ok xs
  | None => Raise IndexError
  end.

(** The [for idx, (x, y) in enumerate(zip(basis_x, basis_y))] loop. *)
Fixpoint draw_arrows (ax : nat) (basis_x basis_y : list float)
    (items : list (float * float)) (idx : nat)
    (linewidth : float) (linecolor : string) : M unit :=
  match items with
  | [] => ret tt
  | (x, y) :: rest =>
      (if decide (idx + 1 < length basis_x) then
         match basis_x !! (idx + 1), basis_y !! (idx + 1) with
         | Some x1, Some y1 =>
             emit (Arrow ax x y (fsub x1 x) (fsub y1 y) linewidth (Fin 0) linecolor 5)
         | _, _ => raise IndexError
         end
       else ret tt) ;;
      draw_arrows ax basis_x basis_y rest (S idx) linewidth linecolor
  end.

Definition draw_path (adata : AnnData) (path : option (list nat))
    (source_idx target_idx : option nat) (basis vkey : string) (ax : option nat)
    (color : string) (size : float) (edgecolor linecolor : string)
    (linewidth : float) : M nat :=
  match path, source_idx, target_idx with
  | None, None, _ | None, _, None => raise missing_path_arguments
  | _, _, _ =>
      let! path :=
        match path, source_idx, target_idx with
        | Some p, _, _ => ret p
        | None, Some s, Some t => shortest_path adata s t vkey
        | None, _, _ => raise missing_path_arguments
        end in
      let! ax := match ax with Some a => ret a | None => new_figure None end in
      match obsm adata !! ("X_" +:+ basis) with
      | None => raise (missing_basis basis)
      | Some X =>
          let! basis_x := lift (take_column X path 0) in
          let! basis_y := lift (take_column X path 1) in
          draw_arrows ax basis_x basis_y (zip basis_x basis_y) 0 linewidth linecolor ;;
          emit (Scatter ax basis_x basis_y size color edgecolor 10) ;;
          ret ax
      end
  end.

(** ** [residue_scores] *)

(** The rows of an array, and back. *)
Definition rows_of (a : ndarray) : list (list float) :=
  (fun r => take (nd_cols a) (drop (r * nd_cols a) (nd_data a))) <$> seq 0 (nd_rows a).

Definition read_array (l : nat) : M ndarray :=
  fun w => match arrays w !! l with
           | Some a => (w, Ok a)
           | None => (w, Raise (KeyError ""))
           end.

Definition write_array (l : nat) (a : ndarray) : M unit :=
  fun w => (World (<[l := a]> (arrays w)) (obs w) (nfig w) (trace w), Ok tt).

(** *** Conversion to float32

    A float64 cell converted to float32 is rounded to the nearest binary32
    number, ties to even: 24 significant bits, exponents from -126 to 127,
    subnormals in steps of [2^-149]. What rounds to [2^128] or beyond
    becomes an infinity, what rounds below the smallest subnormal becomes
    zero; NaN and the infinities stay. *)

(** [floor (log2 q)] of a positive rational. *)
Definition binade (q : Q) : Z :=
  let e := (Z.log2 (Qnum q) - Z.log2 (Zpos (Qden q)))%Z in
  if Qle_bool (2 ^ e) q then e else (e - 1)%Z.

(** The nearest integer to a rational that is not negative, the even one
    of the two when it lies half-way. *)
Definition round_half_even (q : Q) : Z :=
  let n := Qfloor q in
  match (q - inject_Z n ?= 1 # 2)%Q with
  | Lt => n
  | Gt => (n + 1)%Z
  | Eq => if Z.even n then n else (n + 1)%Z
  end.

Definition round_float32 (q : Q) : float :=
  if Qeq_bool q 0 then Fin 0
  else
    let ulp := (2 ^ (Z.max (binade (Qabs q)) (-126) - 23))%Q in
    let r := (inject_Z (round_half_even (Qabs q / ulp)) * ulp)%Q in
    if Qle_bool (2 ^ 128) r then (if Qle_bool 0 q then PInf else NInf)
    else Fin (Qred (if Qle_bool 0 q then r else - r)).

Definition float32_of (x : float) : float :=
  match x with
  | Fin q => round_float32 q
  | _ => x
  end.

(** A float32 result beyond the float32 range is an infinity. *)
Definition overflow32 (x : float) : float :=
  match float32_of x with
  | PInf => PInf
  | NInf => NInf
  | _ => x
  end.

(** [np.array(X, 'float32')] for a float64 [X]: a new array of the same
    shape with every cell converted. *)
Definition astype_float32 (a : ndarray) : ndarray :=
  NdArray float32 (nd_rows a) (nd_cols a) (float32_of <$> nd_data a).

(** [AnnData(X)] for a dense [X], anndata up to 0.8 ([dtype='float32']):
    [np.array(X, dtype, copy=False)] keeps the caller's array when its
    dtype already matches and makes a converted copy otherwise. The value
    is the identity of the wrapper's [X]. *)
Definition AnnData_init (l : nat) : M nat :=
  let! a := read_array l in
  match nd_dtype a with
  | float32 => ret l
  | float64 =>
      fun w => let l' := fresh (dom (arrays w)) in
               (World (<[l' := astype_float32 a]> (arrays w))
                      (obs w) (nfig w) (trace w), Ok l')
  end.

(** The contents of the wrapper's [X] when [AnnData(X)] returns: those of
    the caller's array if it is a float32 one, those of the converted copy
    otherwise. *)
Definition scores_X (a : ndarray) : ndarray :=
  match nd_dtype a with
  | float32 => a
  | float64 => astype_float32 a
  end.

(** numpy's NaN-propagating [min] and [max] of two cells. *)
Definition np_minimum (a b : float) : float :=
  if isnan a then a else if isnan b then b else if fge b a then a else b.
Definition np_maximum (a b : float) : float :=
  if isnan a then a else if isnan b then b else if fge a b then a else b.

Definition np_min (cells : list float) : result float :=
  match cells with
  | [] => Raise NumpyValueError
  | x :: rest => Ok (foldl np_minimum x rest)
  end.
Definition np_max (cells : list float) : result float :=
  match cells with
  | [] => Raise NumpyValueError
  | x :: rest => Ok (foldl np_maximum x rest)
  end.

Definition float_le (a b : float) : Prop := fge b a = true.
Global Instance float_le_dec a b : Decision (float_le a b).
Proof. unfold float_le. apply _. Defined.

Definition lerp (a b : float) (t : Q) : float :=
  let diff_b_a := fsub b a in
  if Qle_bool (1 # 2) t then fsub b (fmul diff_b_a (Fin (1 - t)))
  else fadd a (fmul diff_b_a (Fin t)).

(** [np.percentile(a, q)] with linear interpolation. *)
Definition np_percentile (a : list float) (q : Q) : result float :=
  if negb (Qle_bool 0 q && Qle_bool q 100) then Raise NumpyValueError
  else if existsb isnan a then Ok NaN
  else
    let sorted := merge_sort float_le a in
    let n := length a in
    let virtual := (q / 100 * inject_Z (Z.of_nat (n - 1)))%Q in
    let below := Z.to_nat (Qfloor virtual) in
    let above := Nat.min (below + 1) (n - 1) in
    match sorted !! below, sorted !! above with
    | Some x, Some y => Ok (lerp x y (virtual - inject_Z (Z.of_nat below)))
    | _, _ => Ok NaN
    end.

(** Rows of [old] with the kept ones replaced, in order, by [new]. *)
Fixpoint put_rows (mask : list bool) (old new : list (list float)) : list (list float) :=
  match mask, old with
  | true :: mask', _ :: old' =>
      match new with
      | row :: new' => row :: put_rows mask' old' new'
      | [] => []
      end
  | false :: mask', row :: old' => row :: put_rows mask' old' new
  | _, _ => []
  end.

Definition keep_rows {A} (mask : list bool) (rows : list A) : list A :=
  omap (fun p : bool * A => if p.1 then Some p.2 else None) (zip mask rows).

(** The rows kept by [percentile_keep]: all of them at [0]. [X] is a
    float32 matrix, and so are the sums of its rows. *)
Definition keep_mask (X : list (list float)) (percentile_keep : Q) : result (list bool) :=
  if Qle_bool percentile_keep 0 then Ok (replicate (length X) true)
  else
    let score_sum :=
      (fun row : list float => overflow32 (foldl fadd (Fin 0) (fabs <$> row))) <$> X in
    match np_percentile score_sum percentile_keep with
    | Ok cutoff => Ok ((fun s => fge s cutoff) <$> score_sum)
    | Raise e => Raise e
    | OutOfFuel => OutOfFuel
    end.

(** [end = max(abs(np.min(X)), np.max(X))]. *)
Definition color_end (X : list (list float)) : result float :=
  match np_min (mjoin X), np_max (mjoin X) with
  | Ok lo, Ok hi => Ok (py_max (fabs lo) hi)
  | _, _ => Raise NumpyValueError
  end.

(** [X /= end]. *)
Definition scale (X : list (list float)) (e : float) : list (list float) :=
  (fun row : list float => (fun x => fdiv x e) <$> row) <$> X.

(** [[vocab[key] for key in sorted(vocab.keys())]]. *)
Definition var_names (vocab : gmap nat string) : list string :=
  (fun k => default "" (vocab !! k)) <$> merge_sort le (elements (dom vocab)).

Definition residue_scores (adata : AnnData) (percentile_keep : Q)
    (basis key : string) (save : option string) : M (option nat) :=
  let! l := uns_lookup (uns_array adata) key in
  let! x := AnnData_init l in
  let! vocab := uns_lookup (uns_vocabulary adata) (basis +:+ "_vocabulary") in
  let! a := read_array x in
  if negb (Nat.eqb (length (var_names vocab)) (nd_cols a)) then raise AnnDataValueError
  else
    let positions := pretty <$> seq 0 (nd_rows a) in
    let! mask := lift (keep_mask (rows_of a) percentile_keep) in
    let kept := keep_rows mask (rows_of a) in
    let! e := lift (color_end kept) in
    let scaled := scale kept e in
    write_array x (NdArray (nd_dtype a) (nd_rows a) (nd_cols a)
                     (mjoin (put_rows mask (rows_of a) scaled))) ;;
    let! fig := new_figure (Some (Nat.max (nd_cols a / 2) 5, Nat.max (length kept / 20) 5)) in
    emit (Heatmap fig scaled (var_names vocab) (keep_rows mask positions)) ;;
    match save with
    | Some name => emit (Savefig ("figures/evolocity_" +:+ name)) ;; emit Close ;; ret None
    | None => ret (Some fig)
    end.

(** ** [residue_categories] *)

(** The reference-alignment scan: [msa] is what is left of the gapped
    sequence, [idx] the column reached, [ref_idx] the ungapped position. *)
Fixpoint pos2msa_loop (seq_ref : string) (msa : list ascii) (idx : nat)
    (pos2msa : gmap nat nat) (ref_idx : nat) : result (gmap nat nat) :=
  match msa with
  | [] => Ok pos2msa
  | ch :: rest =>
      if decide (ch = "-"%char) then pos2msa_loop seq_ref rest (S idx) pos2msa ref_idx
      else
        match String.get ref_idx seq_ref with
        | None => Raise IndexError
        | Some c =>
            if decide (ch = c)
            then pos2msa_loop seq_ref rest (S idx) (<[ref_idx := idx]> pos2msa) (S ref_idx)
            else Raise AssertionError
        end
  end.

Definition reference_alignment (seq_ref seq_ref_msa : string) : result (gmap nat nat) :=
  pos2msa_loop seq_ref (String.list_ascii_of_string seq_ref_msa) 0 ∅ 0.

(** [np.argmin] over the flattened cells: the first NaN if there is one,
    the first smallest cell otherwise. [mp] is the running minimum and
    [min_ind] where it was seen. *)
Fixpoint argmin_from (cells : list float) (i : nat) (mp : float) (min_ind : nat) : nat :=
  match cells with
  | [] => min_ind
  | x :: rest =>
      if negb (fge x mp) then
        if isnan x then i else argmin_from rest (S i) x i
      else argmin_from rest (S i) mp min_ind
  end.

Definition np_argmin (cells : list float) : result nat :=
  match cells with
  | [] => Raise NumpyValueError
  | x :: rest => Ok (if isnan x then 0 else argmin_from rest 1 x 0)
  end.

(** [np.unravel_index(i, shape)]. *)
Definition unravel_index (i : nat) (a : ndarray) : nat * nat :=
  (i / nd_cols a, i mod nd_cols a).

(** [a[idx] = x], in place. *)
Definition set_cell (a : ndarray) (idx : nat * nat) (x : float) : ndarray :=
  NdArray (nd_dtype a) (nd_rows a) (nd_cols a)
          (<[idx.1 * nd_cols a + idx.2 := x]> (nd_data a)).

Definition lowest_score_message (rank : nat) (aa : string) (pos : nat) : string :=
  "Lowest score " +:+ pretty rank +:+ ": " +:+ aa +:+ pretty (pos + 1).

(** The state of the auto-selection loop: the score matrix (written in
    place), the positions seen, and the messages logged. *)
Record selection := Selection {
  sel_scores : ndarray;
  sel_seen : gset nat;
  sel_log : list event
}.

(** [while len(pos_seen) < n_plot]. The vocabulary is what
    [adata.uns] holds under ['onehot_vocabulary'], if anything. *)
Fixpoint select_positions (fuel : nat) (vocabulary : option (gmap nat string))
    (n_plot : nat) (verbose : bool) (st : selection) : selection * result (gset nat) :=
  if bool_decide (size (sel_seen st) < n_plot) then
    match fuel with
    | 0 => (st, OutOfFuel)
    | S fuel' =>
        match np_argmin (nd_data (sel_scores st)) with
        | Ok i =>
            let min_idx := unravel_index i (sel_scores st) in
            let scores := set_cell (sel_scores st) min_idx PInf in
            match vocabulary with
            | None => (Selection scores (sel_seen st) (sel_log st), Raise (KeyError "onehot_vocabulary"))
            | Some vocab =>
                match vocab !! min_idx.2 with
                | None => (Selection scores (sel_seen st) (sel_log st), Raise (KeyError (pretty min_idx.2)))
                | Some aa =>
                    let pos := min_idx.1 in
                    if decide (pos ∈ sel_seen st)
                    then select_positions fuel' vocabulary n_plot verbose
                           (Selection scores (sel_seen st) (sel_log st))
                    else
                      let seen := sel_seen st ∪ {[pos]} in
                      select_positions fuel' vocabulary n_plot verbose
                        (Selection scores seen
                           (if verbose
                            then sel_log st ++ [LoggInfo (lowest_score_message (size seen) aa pos)]
                            else sel_log st))
                end
            end
        | Raise e => (st, Raise e)
        | OutOfFuel => (st, OutOfFuel)
        end
    end
  else (st, Ok (sel_seen st)).

(** [sorted(pos_seen)]. *)
Definition sorted_positions (pos_seen : gset nat) : list nat :=
  merge_sort le (elements pos_seen).

Definition auto_select (fuel : nat) (adata : AnnData) (n_plot : nat) (verbose : bool)
    : M (list nat) :=
  let! l := uns_lookup (uns_array adata) "residue_scores" in
  let! scores := read_array l in
  let '(st, r) := select_positions fuel (uns_vocabulary adata !! "onehot_vocabulary")
                    n_plot verbose (Selection scores ∅ []) in
  write_array l (sel_scores st) ;;
  (fun w => (World (arrays w) (obs w) (nfig w) (trace w ++ sel_log st), Ok tt)) ;;
  let! pos_seen := lift r in
  ret (sorted_positions pos_seen).

Definition obs_lookup (col : list string) (label : nat) : M string :=
  match col !! label with
  | Some s => ret s
  | None => raise (KeyError (pretty label))
  end.

Definition str_index (s : string) (i : nat) : result string :=
  match String.get i s with
  | Some c => Ok (String c EmptyString)
  | None => Raise IndexError
  end.

(** The symbol of one aligned sequence at a selected position. *)
Definition symbol_at (pos2msa : option (gmap nat nat)) (pos : nat) (seq : string)
    : result string :=
  match pos2msa with
  | None => str_index seq pos
  | Some m =>
      match m !! pos with
      | Some col => str_index seq col
      | None => Raise (KeyError (pretty pos))
      end
  end.

Fixpoint mapM_result {A B} (f : A -> result B) (l : list A) : result (list B) :=
  match l with
  | [] => Ok []
  | x :: l' =>
      match f x with
      | Ok y => match mapM_result f l' with Ok ys => Ok (y :: ys) | r => r end
      | Raise e => Raise e
      | OutOfFuel => OutOfFuel
      end
  end.

Definition set_obs (name : string) (col : list string) : M unit :=
  fun w => (World (arrays w) (<[name := col]> (obs w)) (nfig w) (trace w), Ok tt).

(** [for pos in positions]: one obs column and one saved embedding plot
    for each. *)
Fixpoint overlay_positions (adata : AnnData) (pos2msa : option (gmap nat nat))
    (namespace : string) (positions : list nat) : M unit :=
  match positions with
  | [] => ret tt
  | pos :: rest =>
      let! col := lift (mapM_result (symbol_at pos2msa pos) (obs_seqs_msa adata)) in
      set_obs ("pos" +:+ pretty pos) col ;;
      emit (Umap ("pos" +:+ pretty pos) ("_" +:+ namespace +:+ "_pos" +:+ pretty pos +:+ ".png")) ;;
      overlay_positions adata pos2msa namespace rest
  end.

Definition residue_categories (fuel : nat) (adata : AnnData)
    (positions : option (list nat)) (n_plot : nat) (namespace : string)
    (reference : option nat) (verbose : bool) : M unit :=
  let! pos2msa :=
    match reference with
    | None => ret None
    | Some ref =>
        let! seq_ref := obs_lookup (obs_seq adata) ref in
        let! seq_ref_msa := obs_lookup (obs_seqs_msa adata) ref in
        let! m := lift (reference_alignment seq_ref seq_ref_msa) in
        ret (Some m)
    end in
  let! positions :=
    match positions with
    | Some ps => ret ps
    | None => auto_select fuel adata n_plot verbose
    end in
  overlay_positions adata pos2msa namespace positions.

(** ** Vocabulary of the statements *)

(** The gapped sequence with its gap characters removed. *)
Definition degap (msa : list ascii) : list ascii :=
  filter (fun ch => ch ≠ "-"%char) msa.

(** Column [j] of the gapped sequence holds its [i]-th non-gap character
    (counting from zero). *)
Definition ith_nongap_column (msa : list ascii) (i j : nat) : Prop :=
  ∃ ch, msa !! j = Some ch ∧ ch ≠ "-"%char ∧ length (degap (take j msa)) = i.

(** The columns of the non-gap characters, left to right, for a sequence
    whose first column is numbered [idx]. *)
Fixpoint nongap_columns (msa : list ascii) (idx : nat) : list nat :=
  match msa with
  | [] => []
  | ch :: rest =>
      if decide (ch = "-"%char) then nongap_columns rest (S idx)
      else idx :: nongap_columns rest (S idx)
  end.

(** The line segment from point [i] of a path to point [i + 1], as
    [draw_path] hands it to [ax.arrow]: no arrowhead, z-order 5. *)
Definition segment (ax : nat) (xs ys : list float) (linewidth : float)
    (linecolor : string) (i : nat) : option event :=
  x ← xs !! i; y ← ys !! i; x1 ← xs !! (i + 1); y1 ← ys !! (i + 1);
  Some (Arrow ax x y (fsub x1 x) (fsub y1 y) linewidth (Fin 0) linecolor 5).

(** A row of the neighbor-distance matrix with no positive entry. *)
Definition no_positive (row : list float) : Prop :=
  Forall (fun x => fgt x (Fin 0) = false) row.

(** The dataset passes the neighbor-graph check of [shortest_path]: the
    matrix has rows, and each has a positive entry. *)
Definition neighbors_ok (adata : AnnData) : Prop :=
  get_neighs adata "distances" ≠ [] ∧
  Forall (fun row => ¬ no_positive row) (get_neighs adata "distances").

(** A cell of a matrix given by its rows. *)
Definition cell (X : list (list float)) (r c : nat) : option float :=
  X !! r ≫= (.!! c).

Definition is_finite (x : float) : Prop :=
  match x with Fin _ => True | _ => False end.

Definition all_finite (X : list (list float)) : Prop :=
  Forall (Forall is_finite) X.

Definition lowest (X : list (list float)) (lo : Q) : Prop :=
  Fin lo ∈ mjoin X ∧ ∀ q, Fin q ∈ mjoin X → (lo <= q)%Q.

Definition highest (X : list (list float)) (hi : Q) : Prop :=
  Fin hi ∈ mjoin X ∧ ∀ q, Fin q ∈ mjoin X → (q <= hi)%Q.

(** Cell [i] comes before cell [j] in the order the scan visits the cells:
    it is smaller, or equal and earlier in the flattened matrix. *)
Definition lower (cells : list float) (i j : nat) : bool :=
  match cells !! i, cells !! j with
  | Some x, Some y => fgt y x || (feq x y && bool_decide (i < j))
  | _, _ => false
  end.

(** Cell [i] exists and is below positive infinity (so it is not NaN). *)
Definition below_inf (cells : list float) (i : nat) : bool :=
  match cells !! i with
  | Some x => fgt PInf x
  | None => false
  end.



(** The cell [(u, v)] of a sparse matrix is stored. *)
Definition stored_at (T : list (list float)) (u v : nat) : Prop :=
  ∃ x, cell T u v = Some x ∧ stored x = true.

(** The edges of the graph networkx builds from [T]: undirected, one for
    every stored cell. *)
Definition undirected_edge (T : list (list float)) (u v : nat) : Prop :=
  stored_at T u v ∨ stored_at T v u.

(** A walk: every two consecutive nodes are related by [E]. *)
Definition walk (E : nat → nat → Prop) (p : list nat) : Prop :=
  ∀ i u v, p !! i = Some u → p !! S i = Some v → E u v.

(** A walk from [s] to [t]. *)
Definition walk_between (E : nat → nat → Prop) (s t : nat) (p : list nat) : Prop :=
  head p = Some s ∧ last p = Some t ∧ walk E p.

(** [x] is reached from [root] in [k] steps through the search dictionary
    [m], every step along an edge of [G]. *)
Inductive chain (G : nxgraph) (m : gmap nat (option nat)) (root : nat) : nat → nat → Prop :=
| chain_root : m !! root = Some None → chain G m root root 0
| chain_step x p k :
    m !! x = Some (Some p) → x ∈ neighbors G p → chain G m root p k →
    chain G m root x (S k).

(** One direction of the search between two levels: every node of the
    dictionary is at depth at most [d], the nodes at depth [d] are the
    fringe, and every neighbour of a node above depth [d] is in the
    dictionary, at most one level further down. *)
Definition side_inv (G : nxgraph) (m : gmap nat (option nat)) (root d : nat)
    (fringe : list nat) : Prop :=
  (∀ x, is_Some (m !! x) → ∃ k, k ≤ d ∧ chain G m root x k) ∧
  (∀ x k y, chain G m root x k → k < d → y ∈ neighbors G x →
            ∃ k', k' ≤ S k ∧ chain G m root y k') ∧
  (∀ x, x ∈ fringe ↔ chain G m root x d) ∧
  (∀ x, is_Some (m !! x) → x < length G) ∧
  m !! root = Some None.

(** [mine'] extends [mine] by neighbours of nodes of [level]. *)
Definition grown (G : nxgraph) (level : list nat) (mine mine' : gmap nat (option nat)) : Prop :=
  mine ⊆ mine' ∧
  ∀ x p, mine !! x = None → mine' !! x = Some p →
         ∃ v, p = Some v ∧ v ∈ level ∧ x ∈ neighbors G v.

(** ** Example data *)

Definition nat_cell (n : nat) : float := Fin (inject_Z (Z.of_nat n)).

(** Three observations on a line of the embedding; the transition graph
    has the single entry [(1, 0)]. *)
Definition example_adata : AnnData := {|
  obs_seq := ["AC"; "AC"; "AC"];
  obs_seqs_msa := ["A-C"; "A-C"; "AC-"];
  obsm := {["X_umap" := [[nat_cell 0; nat_cell 0]; [nat_cell 1; nat_cell 2];
                         [nat_cell 3; nat_cell 3]]]};
  neighbors_distances := [[nat_cell 0; nat_cell 1; nat_cell 0];
                          [nat_cell 1; nat_cell 0; nat_cell 2];
                          [nat_cell 0; nat_cell 2; nat_cell 0]];
  uns_graph := {["velocity_graph" := [[nat_cell 0; nat_cell 0; nat_cell 0];
                                      [nat_cell 1; nat_cell 0; nat_cell 0];
                                      [nat_cell 0; nat_cell 0; nat_cell 0]];
                 "velocity_graph_neg" := [[nat_cell 0; nat_cell 0; nat_cell 0];
                                          [nat_cell 0; nat_cell 0; nat_cell 0];
                                          [nat_cell 0; nat_cell 0; nat_cell 0]]]};
  uns_array := {["residue_scores" := 0]};
  uns_vocabulary := {["onehot_vocabulary" := {[0 := "A"; 1 := "C"]}]}
|}.

(** The same dataset with an isolated observation in the neighbor graph
    and no negative transition graph. *)
Definition isolated_adata : AnnData := {|
  obs_seq := obs_seq example_adata;
  obs_seqs_msa := obs_seqs_msa example_adata;
  obsm := ∅;
  neighbors_distances := [[nat_cell 0; nat_cell 1; nat_cell 0];
                          [nat_cell 1; nat_cell 0; nat_cell 0];
                          [nat_cell 0; nat_cell 0; nat_cell 0]];
  uns_graph := {["velocity_graph" := [[nat_cell 0; nat_cell 0; nat_cell 0];
                                      [nat_cell 1; nat_cell 0; nat_cell 0];
                                      [nat_cell 0; nat_cell 0; nat_cell 0]]]};
  uns_array := uns_array example_adata;
  uns_vocabulary := uns_vocabulary example_adata
|}.

(** The example dataset without its negative transition graph. *)
Definition positive_only_adata : AnnData := {|
  obs_seq := obs_seq example_adata;
  obs_seqs_msa := obs_seqs_msa example_adata;
  obsm := obsm example_adata;
  neighbors_distances := neighbors_distances example_adata;
  uns_graph := delete "velocity_graph_neg" (uns_graph example_adata);
  uns_array := uns_array example_adata;
  uns_vocabulary := uns_vocabulary example_adata
|}.

Definition example_scores : ndarray :=
  NdArray float32 3 2 [nat_cell 5; nat_cell 1; nat_cell 0; nat_cell 7; nat_cell 2; nat_cell 9].

Definition example_world : world := World {[0 := example_scores]} ∅ 0 [].

(** Six positions, two categories; the five lowest scores stand in the
    first column of the first five rows. *)
Definition selection_scores : ndarray :=
  NdArray float64 6 2
    [nat_cell 4; nat_cell 9; nat_cell 3; nat_cell 8; nat_cell 0; nat_cell 7;
     nat_cell 1; nat_cell 6; nat_cell 2; nat_cell 5; nat_cell 10; nat_cell 11].

Definition selection_world : world := World {[0 := selection_scores]} ∅ 0 [].

(** Five positions, one category, the last score already at the
    sentinel. *)
Definition consumed_scores : ndarray :=
  NdArray float64 5 1 [nat_cell 1; nat_cell 2; nat_cell 3; nat_cell 4; PInf].

Definition consumed_world : world := World {[0 := consumed_scores]} ∅ 0 [].



(** ** Vocabulary of the further properties *)

(** What [draw_path] does once the path and the drawing surface are known. *)
Definition render_path (adata : AnnData) (path : list nat) (basis : string) (ax : nat)
    (color : string) (size : float) (edgecolor linecolor : string)
    (linewidth : float) : M nat :=
  match obsm adata !! ("X_" +:+ basis) with
  | None => raise (missing_basis basis)
  | Some X =>
      let! basis_x := lift (take_column X path 0) in
      let! basis_y := lift (take_column X path 1) in
      draw_arrows ax basis_x basis_y (zip basis_x basis_y) 0 linewidth linecolor ;;
      emit (Scatter ax basis_x basis_y size color edgecolor 10) ;;
      ret ax
  end.

(** The calls [draw_path] may make: the resolver's two, a new figure with
    the default size, arrows and a scatter layer. *)
Definition path_event (e : event) : bool :=
  match e with
  | SparseSub | NxGraph _ | Figure _ None | Arrow _ _ _ _ _ _ _ _ _
  | Scatter _ _ _ _ _ _ _ => true
  | _ => false
  end.

(** The world after [events] more calls. *)
Definition after (w : world) (events : list event) : world :=
  World (arrays w) (obs w) (nfig w) (trace w ++ events).

(** The world after one more figure was opened. *)
Definition with_figure (w : world) (figsize : option (nat * nat)) : world :=
  World (arrays w) (obs w) (S (nfig w)) (trace w ++ [Figure (S (nfig w)) figsize]).

(** The world as [AnnData(X)] leaves it: as it was when the array is
    wrapped as it is, with one more array when a converted copy is made. *)
Definition wrapped (w : world) (a : ndarray) : world :=
  match nd_dtype a with
  | float32 => w
  | float64 =>
      World (<[fresh (dom (arrays w)) := astype_float32 a]> (arrays w))
            (obs w) (nfig w) (trace w)
  end.

(** A call went from [w] to [w'] without a call to a library and without
    a change to an array, an observation column or the figures. *)
Definition untouched (w w' : world) : Prop :=
  trace w' = trace w ∧ nfig w' = nfig w ∧ obs w' = obs w ∧ arrays w ⊆ arrays w'.

(** The call that went from [w] to [w'] opened one figure and drew the
    heatmap of [X] in it, and made no other call but those that save and
    close the figure. *)
Definition drew_heatmap (w w' : world) (X : list (list float)) : Prop :=
  ∃ fig figsize xticklabels yticklabels saved,
    trace w' = trace w ++ [Figure fig figsize; Heatmap fig X xticklabels yticklabels]
                 ++ saved ∧
    (saved = [] ∨ ∃ fname, saved = [Savefig fname; Close]).

(** Every cell is a zero. *)
Definition all_zero (X : list (list float)) : Prop :=
  ∀ x, x ∈ mjoin X → ∃ q, x = Fin q ∧ (q == 0)%Q.

(** Row [r] of an array. *)
Definition row_of (a : ndarray) (r : nat) : list float :=
  take (nd_cols a) (drop (r * nd_cols a) (nd_data a)).








(** [scores'] is [scores] with some cells overwritten by positive
    infinity: same type and shape, and every cell that is not positive
    infinity is the cell that was there. *)
Definition only_sentinels (scores scores' : ndarray) : Prop :=
  nd_dtype scores' = nd_dtype scores ∧
  nd_rows scores' = nd_rows scores ∧
  nd_cols scores' = nd_cols scores ∧
  length (nd_data scores') = length (nd_data scores) ∧
  ∀ i x, nd_data scores' !! i = Some x → x = PInf ∨ nd_data scores !! i = Some x.

(** The sum of the absolute values of a row of a float32 matrix
    ([np.abs(X).sum(1)]). *)
Definition abs_sum (row : list float) : float :=
  overflow32 (foldl fadd (Fin 0) (fabs <$> row)).

(** ** Further example data *)

(** The example dataset with a negative graph of another shape, and with
    transition graphs of two rows and three columns. *)
Definition misshapen_adata : AnnData := {|
  obs_seq := obs_seq example_adata;
  obs_seqs_msa := obs_seqs_msa example_adata;
  obsm := obsm example_adata;
  neighbors_distances := neighbors_distances example_adata;
  uns_graph := <["velocity_graph_neg" := [[nat_cell 0; nat_cell 0]; [nat_cell 0; nat_cell 0]]]>
                 (uns_graph example_adata);
  uns_array := uns_array example_adata;
  uns_vocabulary := uns_vocabulary example_adata
|}.

Definition oblong_adata : AnnData := {|
  obs_seq := obs_seq example_adata;
  obs_seqs_msa := obs_seqs_msa example_adata;
  obsm := obsm example_adata;
  neighbors_distances := neighbors_distances example_adata;
  uns_graph := {["velocity_graph" := [[nat_cell 0; nat_cell 1; nat_cell 0];
                                      [nat_cell 1; nat_cell 0; nat_cell 0]];
                 "velocity_graph_neg" := [[nat_cell 0; nat_cell 0; nat_cell 0];
                                          [nat_cell 0; nat_cell 0; nat_cell 0]]]};
  uns_array := uns_array example_adata;
  uns_vocabulary := uns_vocabulary example_adata
|}.

(** Score matrices of zeros, with a NaN, with no rows, and with one column
    more than the vocabulary has entries. *)
Definition zero_world : world :=
  World {[0 := NdArray float64 2 2 [Fin 0; Fin 0; Fin 0; Fin 0]]} ∅ 0 [].

Definition nan_world : world :=
  World {[0 := NdArray float64 2 2 [nat_cell 1; NaN; nat_cell 2; nat_cell 3]]} ∅ 0 [].

Definition empty_world : world := World {[0 := NdArray float64 0 2 []]} ∅ 0 [].

Definition wide_world : world :=
  World {[0 := NdArray float64 1 3 [nat_cell 1; nat_cell 2; nat_cell 3]]} ∅ 0 [].

(** A score matrix in which a first auto-selection has left the infinity
    sentinel. *)
Definition spent_world : world :=
  World {[0 := NdArray float64 2 2 [PInf; nat_cell 1; nat_cell 2; nat_cell 3]]} ∅ 0 [].

(** The same with a float64 score beyond the float32 range, [1e39]. *)
Definition huge_world : world :=
  World {[0 := NdArray float64 2 2
                 [PInf; Fin (inject_Z (10 ^ 39)); nat_cell 2; nat_cell 3]]} ∅ 0 [].


(** The example dataset without its vocabulary. *)
Definition unlabelled_adata : AnnData := {|
  obs_seq := obs_seq example_adata;
  obs_seqs_msa := obs_seqs_msa example_adata;
  obsm := obsm example_adata;
  neighbors_distances := neighbors_distances example_adata;
  uns_graph := uns_graph example_adata;
  uns_array := uns_array example_adata;
  uns_vocabulary := ∅
|}.

(** Case analysis on membership in an explicit set. *)
Ltac elem_cases H :=
  set_unfold in H; repeat (destruct H as [H|H]); subst.

(** * Properties *)

(** ** The reference alignment *)

Lemma string_get_lookup (s : string) (i : nat) :
  String.get i s = String.list_ascii_of_string s !! i.
Proof.
  revert i. induction s as [|c s IH]; intros [|i]; simpl; auto.
Qed.

Lemma nongap_columns_spec (msa : list ascii) (idx i j : nat) :
  nongap_columns msa idx !! i = Some j ↔
  ∃ j', j = idx + j' ∧ ith_nongap_column msa i j'.
Proof.
  revert idx i. induction msa as [|ch rest IH]; intros idx i; simpl.
  - split; [done|]. intros (j' & _ & c & Hc & _). by rewrite lookup_nil in Hc.
  - destruct (decide (ch = "-"%char)) as [->|Hch].
    + rewrite IH. split.
      * intros (j' & -> & c & Hc & Hne & Hlen). exists (S j'). split; [lia|].
        exists c. split_and!; [done..|].
        simpl. unfold degap in *. by rewrite filter_cons_False by (intros H; by apply H).
      * intros ([|j'] & -> & c & Hc & Hne & Hlen); simpl in *; [congruence|].
        exists j'. split; [lia|]. exists c. split_and!; [done..|].
        unfold degap in *. by rewrite filter_cons_False in Hlen by (intros H; by apply H).
    + destruct i as [|i]; simpl.
      * split.
        -- intros [= <-]. exists 0. split; [lia|]. exists ch. by split_and!.
        -- intros ([|j'] & -> & c & Hc & Hne & Hlen); [f_equal; lia|].
           simpl in Hlen. unfold degap in Hlen.
           by rewrite filter_cons_True in Hlen by done.
      * rewrite IH. split.
        -- intros (j' & -> & c & Hc & Hne & Hlen). exists (S j'). split; [lia|].
           exists c. split_and!; [done..|].
           simpl. unfold degap in *. rewrite filter_cons_True by done. simpl. lia.
        -- intros ([|j'] & -> & c & Hc & Hne & Hlen); simpl in *; [done|].
           exists j'. split; [lia|]. exists c. split_and!; [done..|].
           unfold degap in *. rewrite filter_cons_True in Hlen by done.
           simpl in Hlen. lia.
Qed.

Lemma pos2msa_loop_ok (seq_ref : string) (msa : list ascii) (idx : nat)
    (pos2msa : gmap nat nat) (ref_idx : nat) :
  degap msa = drop ref_idx (String.list_ascii_of_string seq_ref) →
  (∀ i, ref_idx ≤ i → pos2msa !! i = None) →
  ∃ m, pos2msa_loop seq_ref msa idx pos2msa ref_idx = Ok m ∧
       ∀ i, m !! i = if decide (i < ref_idx) then pos2msa !! i
                     else nongap_columns msa idx !! (i - ref_idx).
Proof.
  revert idx pos2msa ref_idx.
  induction msa as [|ch rest IH]; intros idx pos2msa ref_idx Hraw Hdom; simpl.
  - exists pos2msa. split; [done|]. intros i. case_decide; [done|].
    rewrite lookup_nil. apply Hdom. lia.
  - unfold degap in Hraw. destruct (decide (ch = "-"%char)) as [->|Hch].
    + rewrite filter_cons_False in Hraw by (intros H; by apply H).
      by apply IH.
    + rewrite filter_cons_True in Hraw by done.
      rewrite string_get_lookup.
      destruct (String.list_ascii_of_string seq_ref !! ref_idx) as [c|] eqn:Hc.
      2:{ apply lookup_ge_None in Hc. rewrite drop_ge in Hraw by done. done. }
      rewrite (drop_S _ _ _ Hc) in Hraw. injection Hraw as -> Hraw.
      rewrite decide_True by done.
      destruct (IH (S idx) (<[ref_idx := idx]> pos2msa) (S ref_idx)) as (m & Hm & Hlook).
      { done. }
      { intros i Hi. rewrite lookup_insert_ne by lia. apply Hdom. lia. }
      exists m. split; [done|]. intros i. rewrite Hlook.
      destruct (decide (i < ref_idx)), (decide (i < S ref_idx)); try lia.
      * by rewrite lookup_insert_ne by lia.
      * assert (i = ref_idx) as -> by lia. rewrite lookup_insert_eq.
        by rewrite Nat.sub_diag.
      * replace (i - ref_idx) with (S (i - S ref_idx)) by lia. done.
Qed.

Lemma string_get_below (s : string) (i k : nat) :
  is_Some (String.get i s) → k ≤ i → is_Some (String.get k s).
Proof.
  rewrite !string_get_lookup, !lookup_lt_is_Some. lia.
Qed.

Lemma pos2msa_loop_mismatch (seq_ref : string) (msa : list ascii) (idx : nat)
    (pos2msa : gmap nat nat) (ref_idx j : nat) (ch c : ascii) :
  msa !! j = Some ch → ch ≠ "-"%char →
  String.get (ref_idx + length (degap (take j msa))) seq_ref = Some c →
  c ≠ ch →
  pos2msa_loop seq_ref msa idx pos2msa ref_idx = Raise AssertionError.
Proof.
  revert idx pos2msa ref_idx j.
  induction msa as [|ch0 rest IH]; intros idx pos2msa ref_idx j Hj Hgap Hc Hne.
  - by rewrite lookup_nil in Hj.
  - simpl. unfold degap in Hc. destruct (decide (ch0 = "-"%char)) as [->|Hch0].
    + destruct j as [|j]; simpl in *; [congruence|].
      rewrite filter_cons_False in Hc by (intros H; by apply H).
      by eapply IH.
    + destruct j as [|j]; simpl in *.
      * injection Hj as ->. rewrite Nat.add_0_r in Hc. rewrite Hc.
        by rewrite decide_False by done.
      * rewrite filter_cons_True in Hc by done. simpl in Hc.
        destruct (string_get_below seq_ref _ ref_idx (mk_is_Some _ _ Hc)) as [c0 Hc0]; [lia|].
        rewrite Hc0. destruct (decide (ch0 = c0)) as [_|_]; [|done].
        eapply IH; [done..| |done].
        unfold degap. by rewrite Nat.add_succ_comm.
Qed.

(** C6. When the gapped reference with its gaps removed is the raw
    reference, the alignment scan returns a mapping that sends position
    [i] to column [j] exactly when column [j] holds the [i]-th non-gap
    character; and as soon as some non-gap character differs from the raw
    character at its ungapped position, the scan raises the assertion
    error. *)
Theorem reference_alignment_mapping (seq_ref seq_ref_msa : string) :
  (degap (String.list_ascii_of_string seq_ref_msa) = String.list_ascii_of_string seq_ref →
   ∃ pos2msa, reference_alignment seq_ref seq_ref_msa = Ok pos2msa ∧
     ∀ i j, pos2msa !! i = Some j ↔
            ith_nongap_column (String.list_ascii_of_string seq_ref_msa) i j) ∧
  (∀ j ch c,
     String.list_ascii_of_string seq_ref_msa !! j = Some ch → ch ≠ "-"%char →
     String.get (length (degap (take j (String.list_ascii_of_string seq_ref_msa)))) seq_ref
       = Some c →
     c ≠ ch →
     reference_alignment seq_ref seq_ref_msa = Raise AssertionError).
Proof.
  split.
  - intros Hraw.
    destruct (pos2msa_loop_ok seq_ref (String.list_ascii_of_string seq_ref_msa) 0 ∅ 0)
      as (m & Hm & Hlook); [done|done|].
    exists m. split; [done|]. intros i j. rewrite Hlook.
    rewrite decide_False by lia. rewrite Nat.sub_0_r, nongap_columns_spec.
    split; [by intros (j' & -> & ?)|]. intros ?. by exists j.
  - intros j ch c Hj Hgap Hc Hne. unfold reference_alignment.
    by eapply (pos2msa_loop_mismatch _ _ _ _ 0).
Qed.

Lemma reference_alignment_mapping_witness :
  (∃ pos2msa, reference_alignment "AC" "A-C" = Ok pos2msa ∧
     pos2msa !! 0 = Some 0 ∧ pos2msa !! 1 = Some 2 ∧ pos2msa !! 2 = None) ∧
  reference_alignment "AC" "A-G" = Raise AssertionError.
Proof.
  split.
  - destruct (proj1 (reference_alignment_mapping "AC" "A-C") eq_refl)
      as (m & Hm & Hlook).
    exists m. split; [exact Hm|]. split_and!.
    + apply Hlook. exists "A"%char. by split_and!.
    + apply Hlook. exists "C"%char. by split_and!.
    + destruct (m !! 2) as [j|] eqn:Hj; [|done].
      apply Hlook in Hj as (ch & Hch & _ & Hlen).
      destruct j as [|[|[|j]]]; simpl in *; done.
  - by apply (proj2 (reference_alignment_mapping "AC" "A-G") 2 "G"%char "C"%char).
Defined.

(** ** The path renderer *)

Lemma take_column_length (X : list (list float)) (path : list nat) (col : nat)
    (xs : list float) :
  take_column X path col = Ok xs → length xs = length path.
Proof.
  unfold take_column. destruct (mapM _ path) as [l|] eqn:Hl; [|done].
  intros [= <-]. symmetry. by eapply length_mapM.
Qed.

Lemma take_column_lookup (X : list (list float)) (path : list nat) (col : nat)
    (xs : list float) :
  take_column X path col = Ok xs →
  ∀ i v, path !! i = Some v → xs !! i = cell X v col.
Proof.
  unfold take_column. destruct (mapM _ path) as [l|] eqn:Hl; [|done].
  intros [= <-] i v Hv. apply mapM_Some in Hl.
  destruct (Forall2_lookup_l _ _ _ _ _ Hl Hv) as (y & Hy & Hf).
  by rewrite Hy, <- Hf.
Qed.

Lemma draw_arrows_spec (ax : nat) (xs ys : list float) (linewidth : float)
    (linecolor : string) (items : list (float * float)) (idx : nat) (w : world) :
  length xs = length ys →
  items = drop idx (zip xs ys) →
  ∃ arrows,
    draw_arrows ax xs ys items idx linewidth linecolor w
      = (World (arrays w) (obs w) (nfig w) (trace w ++ arrows), Ok tt) ∧
    length arrows = length xs - 1 - idx ∧
    ∀ i, i < length arrows →
         arrows !! i = segment ax xs ys linewidth linecolor (idx + i).
Proof.
  intros Hlen. revert idx w.
  induction items as [|[x y] rest IH]; intros idx w Hitems.
  - exists []. simpl. unfold ret. rewrite app_nil_r. split_and!.
    + by destruct w.
    + apply (f_equal length) in Hitems. rewrite length_drop, length_zip in Hitems.
      simpl in *. lia.
    + simpl. lia.
  - assert (zip xs ys !! idx = Some (x, y)) as Hidx.
    { pose proof (lookup_drop (zip xs ys) idx 0) as H.
      rewrite <- Hitems, Nat.add_0_r in H. done. }
    assert (rest = drop (S idx) (zip xs ys)) as Hrest.
    { pose proof (drop_drop (zip xs ys) 1 idx) as H.
      rewrite <- Hitems, Nat.add_1_r in H. done. }
    apply lookup_zip_Some in Hidx as [Hx Hy].
    simpl. unfold bind at 1.
    destruct (decide (idx + 1 < length xs)) as [Hlt|Hge].
    + destruct (lookup_lt_is_Some_2 xs (idx + 1)) as [x1 Hx1]; [done|].
      destruct (lookup_lt_is_Some_2 ys (idx + 1)) as [y1 Hy1]; [lia|].
      rewrite Hx1, Hy1. unfold emit at 1.
      destruct (IH (S idx) (World (arrays w) (obs w) (nfig w)
                   (trace w ++ [Arrow ax x y (fsub x1 x) (fsub y1 y) linewidth (Fin 0) linecolor 5])))
        as (arrows & Hrun & Hcount & Hseg); [done|].
      exists (Arrow ax x y (fsub x1 x) (fsub y1 y) linewidth (Fin 0) linecolor 5 :: arrows).
      split_and!.
      * rewrite Hrun. simpl. by rewrite <- app_assoc.
      * simpl. lia.
      * intros [|i] Hi; simpl in *.
        -- unfold segment. rewrite Nat.add_0_r, Hx, Hy. simpl.
           by rewrite Hx1, Hy1.
        -- rewrite Hseg by lia. f_equal. lia.
    + unfold ret at 1.
      destruct (IH (S idx) w) as (arrows & Hrun & Hcount & Hseg); [done|].
      exists arrows. split_and!; [done|lia|].
      intros i Hi. lia.
Qed.
Lemma render_spec (adata : AnnData) (p : list nat) (basis : string)
    (a0 : nat) (color : string) (size : float) (edgecolor linecolor : string)
    (linewidth : float) (w1 w' : world) (a : nat) :
  match obsm adata !! ("X_" +:+ basis) with
  | None => raise (missing_basis basis)
  | Some X =>
      let! basis_x := lift (take_column X p 0) in
      let! basis_y := lift (take_column X p 1) in
      draw_arrows a0 basis_x basis_y (zip basis_x basis_y) 0 linewidth linecolor ;;
      emit (Scatter a0 basis_x basis_y size color edgecolor 10) ;;
      ret a0
  end w1 = (w', Ok a) →
  a = a0 ∧
  ∃ X xs ys arrows,
    obsm adata !! ("X_" +:+ basis) = Some X ∧
    take_column X p 0 = Ok xs ∧ take_column X p 1 = Ok ys ∧
    length arrows = length p - 1 ∧
    (∀ i, i < length p - 1 → arrows !! i = segment a xs ys linewidth linecolor i) ∧
    trace w' = trace w1 ++ arrows ++ [Scatter a xs ys size color edgecolor 10].
Proof.
  destruct (obsm adata !! ("X_" +:+ basis)) as [X|]; [|done].
  unfold bind at 1, lift at 1.
  destruct (take_column X p 0) as [xs| |] eqn:Hxs; [|done..].
  unfold bind at 1, lift at 1.
  destruct (take_column X p 1) as [ys| |] eqn:Hys; [|done..].
  pose proof (take_column_length _ _ _ _ Hxs) as Hlx.
  pose proof (take_column_length _ _ _ _ Hys) as Hly.
  destruct (draw_arrows_spec a0 xs ys linewidth linecolor (zip xs ys) 0 w1)
    as (arrows & Hrun & Hcount & Hseg); [lia|done|].
  unfold bind at 1. rewrite Hrun. unfold bind, emit, ret. simpl.
  intros [= <- <-]. split; [done|]. exists X, xs, ys, arrows. split_and!; try done.
  - lia.
  - intros i Hi. apply Hseg. lia.
  - simpl. by rewrite <- app_assoc.
Qed.

(** C8. A successful [draw_path] draws, for the [n] nodes of its path
    (the one given, or else the resolver's), exactly [n - 1] arrows, the
    [i]-th from point [i] to point [i + 1] with head width zero and
    z-order 5, and after them one scatter layer of the [n] points with
    z-order 10; point [i] is the [i]-th node of the path at its embedding
    coordinates, columns 0 and 1 of that node's row of [obsm['X_' + basis]];
    nothing else is drawn but the figure opened when no drawing surface
    was given. *)
Theorem draw_path_layers (adata : AnnData) (path : option (list nat))
    (source_idx target_idx : option nat) (basis vkey : string) (ax : option nat)
    (color : string) (size : float) (edgecolor linecolor : string)
    (linewidth : float) (w w' : world) (a : nat) :
  draw_path adata path source_idx target_idx basis vkey ax
            color size edgecolor linecolor linewidth w = (w', Ok a) →
  ∃ p w1 X xs ys arrows,
    (path = Some p ∧ w1 = w ∨
     path = None ∧ ∃ s t, source_idx = Some s ∧ target_idx = Some t ∧
                          shortest_path adata s t vkey w = (w1, Ok p)) ∧
    obsm adata !! ("X_" +:+ basis) = Some X ∧
    take_column X p 0 = Ok xs ∧ take_column X p 1 = Ok ys ∧
    length xs = length p ∧ length ys = length p ∧
    (∀ i v, p !! i = Some v → xs !! i = cell X v 0 ∧ ys !! i = cell X v 1) ∧
    length arrows = length p - 1 ∧
    (∀ i, i < length p - 1 → arrows !! i = segment a xs ys linewidth linecolor i) ∧
    trace w' = trace w1 ++ (if ax is None then [Figure a None] else [])
                 ++ arrows ++ [Scatter a xs ys size color edgecolor 10].
Proof.
  intros Hrun.
  assert (∃ p w1,
    (path = Some p ∧ w1 = w ∨
     path = None ∧ ∃ s t, source_idx = Some s ∧ target_idx = Some t ∧
                          shortest_path adata s t vkey w = (w1, Ok p)) ∧
    (let! ax := match ax with Some a => ret a | None => new_figure None end in
      match obsm adata !! ("X_" +:+ basis) with
      | None => raise (missing_basis basis)
      | Some X =>
          let! basis_x := lift (take_column X p 0) in
          let! basis_y := lift (take_column X p 1) in
          draw_arrows ax basis_x basis_y (zip basis_x basis_y) 0 linewidth linecolor ;;
          emit (Scatter ax basis_x basis_y size color edgecolor 10) ;;
          ret ax
      end) w1 = (w', Ok a)) as (p & w1 & Hpath & Hrest).
  { unfold draw_path in Hrun.
    destruct path as [p|].
    - exists p, w. split; [by left|].
      destruct source_idx, target_idx; exact Hrun.
    - destruct source_idx as [s|], target_idx as [t|]; try done.
      unfold bind at 1 in Hrun.
      destruct (shortest_path adata s t vkey w) as [w1 [p| |]] eqn:Hsp; try done.
      exists p, w1. split; [|done]. right. split; [done|]. by exists s, t. }
  exists p, w1. unfold bind at 1 in Hrest.
  destruct ax as [a0|]; simpl in Hrest.
  - apply render_spec in Hrest as (-> & X & xs & ys & arrows & ? & Hxs & Hys & ? & ? & ?).
    exists X, xs, ys, arrows. split_and!; try done.
    + by eapply take_column_length.
    + by eapply take_column_length.
    + intros i v Hv. split; by eapply take_column_lookup.
  - apply render_spec in Hrest as (-> & X & xs & ys & arrows & ? & Hxs & Hys & ? & ? & Htr).
    exists X, xs, ys, arrows. split_and!; try done.
    + by eapply take_column_length.
    + by eapply take_column_length.
    + intros i v Hv. split; by eapply take_column_lookup.
    + rewrite Htr. simpl. by rewrite <- app_assoc.
Qed.

Lemma draw_path_layers_witness :
  ∃ w' arrows,
    draw_path example_adata (Some [0; 1; 2]) None None "umap" "velocity" None
              "white" (Fin 15) "black" "#888888" (Fin (1 # 1000)) example_world
      = (w', Ok 1) ∧
    length arrows = 2 ∧
    trace w' = [Figure 1 None] ++ arrows ++
               [Scatter 1 [nat_cell 0; nat_cell 1; nat_cell 3]
                          [nat_cell 0; nat_cell 2; nat_cell 3] (Fin 15) "white" "black" 10].
Proof.
  destruct (draw_path_layers example_adata (Some [0; 1; 2]) None None "umap" "velocity"
              None "white" (Fin 15) "black" "#888888" (Fin (1 # 1000)) example_world
              (fst (draw_path example_adata (Some [0; 1; 2]) None None "umap" "velocity"
                      None "white" (Fin 15) "black" "#888888" (Fin (1 # 1000)) example_world))
              1 eq_refl)
    as (p & w1 & X & xs & ys & arrows & Hp & HX & _ & _ & Hx & Hy & Hc & Ha & _ & Htr).
  destruct Hp as [[[= <-] ->]|[[=] _]].
  injection HX as <-.
  destruct (Hc 0 0 eq_refl) as [Hx0 Hy0], (Hc 1 1 eq_refl) as [Hx1 Hy1],
    (Hc 2 2 eq_refl) as [Hx2 Hy2].
  destruct xs as [|x0 [|x1 [|x2 [|]]]]; try discriminate Hx.
  destruct ys as [|y0 [|y1 [|y2 [|]]]]; try discriminate Hy.
  change (Some x0 = Some (nat_cell 0)) in Hx0. change (Some x1 = Some (nat_cell 1)) in Hx1.
  change (Some x2 = Some (nat_cell 3)) in Hx2. change (Some y0 = Some (nat_cell 0)) in Hy0.
  change (Some y1 = Some (nat_cell 2)) in Hy1. change (Some y2 = Some (nat_cell 3)) in Hy2.
  simplify_eq.
  eexists _, arrows. split_and!; [reflexivity|exact Ha|exact Htr].
Defined.
(** ** The path resolver's checks *)

Lemma foldl_min_zero (x : nat) (l : list nat) :
  foldl Nat.min x l = 0 ↔ x = 0 ∨ 0 ∈ l.
Proof.
  revert x. induction l as [|y l IH]; intros x; simpl.
  - rewrite elem_of_nil. tauto.
  - rewrite IH, elem_of_cons.
    assert (x `min` y = 0 ↔ x = 0 ∨ 0 = y) by lia. tauto.
Qed.

Lemma positive_count_zero (row : list float) :
  length (filter (fun x => fgt x (Fin 0) = true) row) = 0 ↔ no_positive row.
Proof.
  unfold no_positive. induction row as [|x row IH]; simpl.
  - split; [constructor|done].
  - rewrite Forall_cons. destruct (fgt x (Fin 0)) eqn:Hx.
    + rewrite filter_cons_True by done. simpl. split; [lia|]. by intros [? _].
    + rewrite filter_cons_False by (by rewrite Hx). rewrite IH. tauto.
Qed.

Lemma fewest_positive_zero (m : list (list float)) (fewest : nat) :
  np_min_nat (positive_per_row m) = Ok fewest →
  fewest = 0 ↔ ∃ row, row ∈ m ∧ no_positive row.
Proof.
  destruct m as [|row0 m]; [done|]. simpl. intros [= <-].
  rewrite foldl_min_zero, positive_count_zero.
  unfold positive_per_row. rewrite list_elem_of_fmap. split.
  - intros [H0|(row & Hz & Hin)].
    + exists row0. split; [apply elem_of_cons; by left|done].
    + exists row. split; [apply elem_of_cons; by right|]. by apply positive_count_zero.
  - intros (row & [->|Hin]%elem_of_cons & Hrow); [by left|].
    right. exists row. split; [|done]. symmetry. by apply positive_count_zero.
Qed.

Lemma bidirectional_loop_raises (fuel : nat) (G : nxgraph)
    (pred succ : gmap nat (option nat)) (ff rf : list nat) (e : exn) :
  bidirectional_loop fuel G pred succ ff rf = Raise e → e = NetworkXNoPath.
Proof.
  revert pred succ ff rf. induction fuel as [|fuel IH]; intros pred succ ff rf; simpl; [done|].
  destruct ff as [|v ff]; [by intros [= <-]|].
  destruct rf as [|u rf]; [by intros [= <-]|].
  case_bool_decide.
  - destruct (visit_level _ _ _ _ _); [done|]. apply IH.
  - destruct (visit_level _ _ _ _ _); [done|]. apply IH.
Qed.

Lemma follow_raises (fuel : nat) (m : gmap nat (option nat)) (w : option nat) (e : exn) :
  follow fuel m w = Raise e → e = KeyError "".
Proof.
  revert w. induction fuel as [|fuel IH]; intros [x|]; simpl; try done.
  destruct (m !! x) as [nxt|]; [|by intros [= <-]].
  destruct (follow fuel m nxt) eqn:Hf; try done. intros [= <-]. by eapply IH.
Qed.

Lemma nx_shortest_path_raises (G : nxgraph) (s t : nat) (e : exn) :
  nx_shortest_path G s t = Raise e →
  e = NodeNotFound ∨ e = NetworkXNoPath ∨ e = KeyError "".
Proof.
  unfold nx_shortest_path, bidirectional_shortest_path.
  case_bool_decide; [|intros [= <-]; by left].
  destruct (bidirectional_pred_succ G s t) as [[[pred succ] w]|e'|] eqn:Hb; [| |done].
  - destruct (follow _ pred _) as [back|e'|] eqn:Hback; [| |done].
    + destruct (succ !! w) as [nxt|]; [|intros [= <-]; by right; right].
      destruct (follow _ succ _) as [rest|e'|] eqn:Hrest; [done| |done].
      intros [= <-]. right; right. by eapply follow_raises.
    + intros [= <-]. right; right. by eapply follow_raises.
  - intros [= <-]. right; left. unfold bidirectional_pred_succ in Hb.
    case_decide; [done|]. by eapply bidirectional_loop_raises.
Qed.

(** What [shortest_path] comes to, check by check. *)
Lemma shortest_path_cases (adata : AnnData) (s t : nat) (vkey : string) (w : world) :
  match np_min_nat (positive_per_row (get_neighs adata "distances")) with
  | Raise e => shortest_path adata s t vkey w = (w, Raise e)
  | OutOfFuel => False
  | Ok fewest =>
      if decide (fewest = 0) then shortest_path adata s t vkey w = (w, Raise corrupted_neighbors)
      else
        match uns_graph adata !! (vkey +:+ "_graph") with
        | None => shortest_path adata s t vkey w = (w, Raise missing_graph)
        | Some pos =>
            match uns_graph adata !! (vkey +:+ "_graph_neg") with
            | None => shortest_path adata s t vkey w
                        = (w, Raise (KeyError (vkey +:+ "_graph_neg")))
            | Some neg =>
                match sparse_sub pos neg with
                | Ok T =>
                    match from_scipy_sparse_matrix T with
                    | Ok G =>
                        shortest_path adata s t vkey w
                        = (World (arrays w) (obs w) (nfig w)
                                 (trace w ++ [SparseSub; NxGraph (length G)]),
                           nx_shortest_path G s t)
                    | _ => shortest_path adata s t vkey w
                           = (World (arrays w) (obs w) (nfig w) (trace w ++ [SparseSub]),
                              Raise NetworkXError)
                    end
                | _ => shortest_path adata s t vkey w = (w, Raise NumpyValueError)
                end
            end
        end
  end.
Proof.
  unfold shortest_path, bind, lift, uns_lookup, emit, raise, ret.
  destruct (np_min_nat _) as [fewest|e|] eqn:Hmin; [|done|].
  2:{ by destruct (positive_per_row _). }
  destruct (decide (fewest = 0)); [done|].
  destruct (uns_graph adata !! (vkey +:+ "_graph")) as [pos|]; [|done].
  destruct (uns_graph adata !! (vkey +:+ "_graph_neg")) as [neg|]; [|done].
  destruct (sparse_sub pos neg) as [T|e|] eqn:HT.
  2,3: unfold sparse_sub in HT; case_decide; naive_solver.
  destruct (from_scipy_sparse_matrix T) as [G|e|] eqn:HG; simpl.
  - by rewrite <- app_assoc.
  - unfold from_scipy_sparse_matrix in HG. destruct (is_square T); naive_solver.
  - unfold from_scipy_sparse_matrix in HG. by destruct (is_square T).
Qed.

(** The two validation errors of the resolver are raised before anything
    is subtracted or built. *)
Lemma shortest_path_errors_frame (adata : AnnData) (s t : nat) (vkey : string)
    (w w' : world) (e : exn) :
  shortest_path adata s t vkey w = (w', Raise e) →
  e = corrupted_neighbors ∨ e = missing_graph → w' = w.
Proof.
  pose proof (shortest_path_cases adata s t vkey w) as Hcases.
  destruct (np_min_nat _) as [fewest|e0|] eqn:Hmin; [| |done].
  2:{ rewrite Hcases. by intros [= <- _]. }
  destruct (decide (fewest = 0)). { rewrite Hcases. by intros [= <- _]. }
  destruct (uns_graph adata !! (vkey +:+ "_graph")) as [pos|].
  2:{ rewrite Hcases. by intros [= <- _]. }
  destruct (uns_graph adata !! (vkey +:+ "_graph_neg")) as [neg|].
  2:{ rewrite Hcases. by intros [= <- _]. }
  destruct (sparse_sub pos neg) as [T| |]; [|rewrite Hcases; by intros [= <- _]..].
  destruct (from_scipy_sparse_matrix T) as [G| |].
  2,3: rewrite Hcases; by intros [= _ <-] [?|?].
  rewrite Hcases. intros [= _ Hr] He.
  apply nx_shortest_path_raises in Hr. destruct He as [->| ->]; by destruct Hr as [?|[?|?]].
Qed.

(** C4, as the code has it. The corrupted-neighbor-graph error is raised
    exactly when some row of the neighbor-distance matrix has no positive
    entry; it and the missing-transition-graph error leave the world as it
    was (no matrix subtracted, no graph built); and a dataset that passes
    the neighbor check but lacks the transition graph gets the
    missing-transition-graph error. *)
Theorem corrupted_neighbors_check (adata : AnnData) (s t : nat) (vkey : string)
    (w : world) :
  ((shortest_path adata s t vkey w).2 = Raise corrupted_neighbors ↔
   ∃ row, row ∈ get_neighs adata "distances" ∧ no_positive row) ∧
  ((shortest_path adata s t vkey w).2 = Raise corrupted_neighbors ∨
   (shortest_path adata s t vkey w).2 = Raise missing_graph →
   (shortest_path adata s t vkey w).1 = w) ∧
  (neighbors_ok adata → uns_graph adata !! (vkey +:+ "_graph") = None →
   shortest_path adata s t vkey w = (w, Raise missing_graph)).
Proof.
  pose proof (shortest_path_cases adata s t vkey w) as Hcases.
  pose proof (fewest_positive_zero (get_neighs adata "distances")) as Hzero.
  destruct (np_min_nat _) as [fewest|e|] eqn:Hmin; [|  |done].
  2:{ rewrite Hcases. simpl. split_and!.
      - split; [intros [= ->]|].
        + by destruct (get_neighs adata "distances").
        + intros (row & Hrow & _). destruct (get_neighs adata "distances"); [|done].
          by apply elem_of_nil in Hrow.
      - done.
      - intros [Hne _]. by destruct (get_neighs adata "distances"). }
  specialize (Hzero fewest eq_refl).
  destruct (decide (fewest = 0)) as [Hf|Hf].
  { rewrite Hcases. simpl. split_and!; [by rewrite <- Hzero|done|].
    intros [_ Hall]. apply Hzero in Hf as (row & Hrow & Hnp).
    rewrite Forall_forall in Hall. by destruct (Hall row Hrow). }
  assert (¬ ∃ row, row ∈ get_neighs adata "distances" ∧ no_positive row) as Hnone.
  { by rewrite <- Hzero. }
  destruct (uns_graph adata !! (vkey +:+ "_graph")) as [pos|].
  2:{ rewrite Hcases. simpl. split_and!; [|done..]. split; [done|]. by intros ?. }
  destruct (uns_graph adata !! (vkey +:+ "_graph_neg")) as [neg|].
  2:{ rewrite Hcases. simpl. split_and!; [|done..]. split; [done|]. by intros ?. }
  destruct (sparse_sub pos neg) as [T| |].
  2,3: rewrite Hcases; simpl; (split_and!; [|by intros [?|?]|done]);
       (split; [done|]); by intros ?.
  destruct (from_scipy_sparse_matrix T) as [G| |].
  2,3: rewrite Hcases; simpl; (split_and!; [|by intros [?|?]|done]);
       (split; [done|]); by intros ?.
  rewrite Hcases. simpl.
  assert (∀ msg, nx_shortest_path G s t ≠ Raise (ValueError msg)) as Hnx.
  { intros msg Hr. by apply nx_shortest_path_raises in Hr as [?|[?|?]]. }
  split_and!; [|intros [H|H]; by apply Hnx in H|done].
  split; [intros H; by apply Hnx in H|]. by intros ?.
Qed.

Lemma corrupted_neighbors_check_witness :
  (∃ row, row ∈ get_neighs isolated_adata "distances" ∧ no_positive row) ∧
  shortest_path isolated_adata 0 1 "velocity" example_world
    = (example_world, Raise corrupted_neighbors).
Proof.
  pose proof (corrupted_neighbors_check isolated_adata 0 1 "velocity" example_world)
    as (Hiff & Hframe & _).
  assert ((shortest_path isolated_adata 0 1 "velocity" example_world).2
          = Raise corrupted_neighbors) as Hraise by reflexivity.
  split; [by apply Hiff|].
  rewrite (surjective_pairing (shortest_path _ _ _ _ _)).
  by rewrite Hraise, Hframe by (by left).
Defined.

(** C4 as stated fails: one row of the matrix below has no positive entry,
    so the error is raised, although the other rows are not zero. *)
Lemma corrupted_neighbors_not_every_row :
  (shortest_path isolated_adata 0 1 "velocity" example_world).2
    = Raise corrupted_neighbors ∧
  ¬ Forall (Forall (fun x => feq x (Fin 0) = true)) (get_neighs isolated_adata "distances").
Proof.
  split; [reflexivity|].
  intros H. apply Forall_cons in H as [H _].
  apply Forall_cons in H as [_ H]. by apply Forall_cons in H as [H _].
Qed.

(** C10, as the code has it. On a dataset that passes the neighbor-graph
    check and has the positive transition graph but not the negative one,
    [shortest_path] raises the key-lookup error for the negative graph's
    key, before anything is subtracted or built. *)
Theorem negative_graph_key_error (adata : AnnData) (s t : nat) (vkey : string)
    (w : world) :
  neighbors_ok adata →
  is_Some (uns_graph adata !! (vkey +:+ "_graph")) →
  uns_graph adata !! (vkey +:+ "_graph_neg") = None →
  shortest_path adata s t vkey w = (w, Raise (KeyError (vkey +:+ "_graph_neg"))).
Proof.
  intros [Hne Hall] [pos Hpos] Hneg.
  pose proof (shortest_path_cases adata s t vkey w) as Hcases.
  pose proof (fewest_positive_zero (get_neighs adata "distances")) as Hzero.
  destruct (np_min_nat _) as [fewest|e|] eqn:Hmin; [| |done].
  2:{ by destruct (get_neighs adata "distances"). }
  specialize (Hzero fewest eq_refl).
  destruct (decide (fewest = 0)) as [Hf|Hf].
  { apply Hzero in Hf as (row & Hrow & Hnp).
    rewrite Forall_forall in Hall. by destruct (Hall row Hrow). }
  by rewrite Hpos, Hneg in Hcases.
Qed.

Lemma negative_graph_key_error_witness :
  neighbors_ok positive_only_adata ∧
  shortest_path positive_only_adata 0 1 "velocity" example_world
    = (example_world, Raise (KeyError "velocity_graph_neg")).
Proof.
  assert (neighbors_ok positive_only_adata) as Hok.
  { split; [done|]. repeat constructor; intros H.
    - apply Forall_cons in H as [_ H]. by apply Forall_cons in H as [H _].
    - by apply Forall_cons in H as [H _].
    - apply Forall_cons in H as [_ H]. by apply Forall_cons in H as [H _]. }
  split; [exact Hok|].
  apply (negative_graph_key_error positive_only_adata 0 1 "velocity" example_world Hok).
  - by eexists.
  - reflexivity.
Defined.

(** C10 as stated fails: the dataset below has the positive graph and not
    the negative one, and the call ends in the corrupted-neighbor-graph
    error, not in a key-lookup error. *)
Lemma negative_graph_after_neighbor_check :
  is_Some (uns_graph isolated_adata !! "velocity_graph") ∧
  uns_graph isolated_adata !! "velocity_graph_neg" = None ∧
  (shortest_path isolated_adata 0 1 "velocity" example_world).2
    = Raise corrupted_neighbors ∧
  (shortest_path isolated_adata 0 1 "velocity" example_world).2
    ≠ Raise (KeyError "velocity_graph_neg").
Proof.
  split_and!; [by eexists|reflexivity|reflexivity|done].
Qed.

(** ** Failed calls *)

(** C7 at the input where it fails: with no drawing surface given and no
    [X_umap] embedding in the dataset, [draw_path] has opened a new figure
    by the time it raises the missing-embedding error. *)
Theorem missing_basis_after_figure :
  draw_path isolated_adata (Some [0]) None None "umap" "velocity" None
            "white" (Fin 15) "black" "#888888" (Fin (1 # 1000)) example_world
  = (World (arrays example_world) (obs example_world) 1 [Figure 1 None],
     Raise (missing_basis "umap")).
Proof. reflexivity. Qed.

Lemma mapM_result_raises {A B} (f : A → result B) (l : list A) (e : exn) :
  mapM_result f l = Raise e → ∃ x, x ∈ l ∧ f x = Raise e.
Proof.
  induction l as [|x l IH]; simpl; [done|].
  destruct (f x) as [y|e'|] eqn:Hx; [|intros [= <-]|done].
  - destruct (mapM_result f l) as [ys|e'|]; [done| |done].
    intros [= <-]. destruct IH as (x' & ? & ?); [done|].
    exists x'. split; [|done]. apply elem_of_cons. by right.
  - exists x. split; [|done]. apply elem_of_cons. by left.
Qed.

Lemma overlay_positions_no_assertion (adata : AnnData)
    (pos2msa : option (gmap nat nat)) (namespace : string) (positions : list nat)
    (w : world) :
  (overlay_positions adata pos2msa namespace positions w).2 ≠ Raise AssertionError.
Proof.
  revert w. induction positions as [|pos rest IH]; intros w; simpl; [done|].
  unfold bind at 1, lift at 1.
  destruct (mapM_result _ _) as [col|e|] eqn:Hcol; simpl; [|intros [= ->]|done].
  - unfold bind, set_obs, emit. simpl. apply IH.
  - apply mapM_result_raises in Hcol as (seq & _ & Hseq).
    unfold symbol_at, str_index in Hseq.
    repeat (case_match; try done).
Qed.

Lemma select_positions_no_assertion (fuel : nat) (vocabulary : option (gmap nat string))
    (n_plot : nat) (verbose : bool) (st : selection) :
  (select_positions fuel vocabulary n_plot verbose st).2 ≠ Raise AssertionError.
Proof.
  revert st. induction fuel as [|fuel IH]; intros st; simpl.
  - by case_bool_decide.
  - case_bool_decide; [|done].
    destruct (np_argmin _) as [i|e|] eqn:Hi; [| |done].
    + destruct vocabulary as [vocab|]; [|done].
      destruct (vocab !! _); [|done].
      case_decide; apply IH.
    + unfold np_argmin in Hi. destruct (nd_data _); naive_solver.
Qed.

Lemma render_raises (adata : AnnData) (p : list nat) (basis : string)
    (ax : option nat) (color : string) (size : float) (edgecolor linecolor : string)
    (linewidth : float) (w1 w' : world) (e : exn) :
  (let! ax := match ax with Some a => ret a | None => new_figure None end in
   match obsm adata !! ("X_" +:+ basis) with
   | None => raise (missing_basis basis)
   | Some X =>
       let! basis_x := lift (take_column X p 0) in
       let! basis_y := lift (take_column X p 1) in
       draw_arrows ax basis_x basis_y (zip basis_x basis_y) 0 linewidth linecolor ;;
       emit (Scatter ax basis_x basis_y size color edgecolor 10) ;;
       ret ax
   end) w1 = (w', Raise e) →
  e = IndexError ∨ e = missing_basis basis ∧ (is_Some ax → w' = w1).
Proof.
  assert (∀ a0 w2,
    match obsm adata !! ("X_" +:+ basis) with
    | None => raise (missing_basis basis)
    | Some X =>
        let! basis_x := lift (take_column X p 0) in
        let! basis_y := lift (take_column X p 1) in
        draw_arrows a0 basis_x basis_y (zip basis_x basis_y) 0 linewidth linecolor ;;
        emit (Scatter a0 basis_x basis_y size color edgecolor 10) ;;
        ret a0
    end w2 = (w', Raise e) →
    e = IndexError ∨ e = missing_basis basis ∧ w' = w2) as Hrender.
  { intros a0 w2. destruct (obsm adata !! ("X_" +:+ basis)) as [X|].
    2:{ intros [= <- <-]. by right. }
    unfold bind at 1, lift at 1.
    destruct (take_column X p 0) as [xs|e'|] eqn:Hxs.
    2:{ intros [= <- <-]. left. unfold take_column in Hxs. destruct (mapM _ _); congruence. }
    2:{ done. }
    unfold bind at 1, lift at 1.
    destruct (take_column X p 1) as [ys|e'|] eqn:Hys.
    2:{ intros [= <- <-]. left. unfold take_column in Hys. destruct (mapM _ _); congruence. }
    2:{ done. }
    destruct (draw_arrows_spec a0 xs ys linewidth linecolor (zip xs ys) 0 w2)
      as (arrows & Hrun & _).
    { apply take_column_length in Hxs, Hys. lia. }
    { done. }
    unfold bind at 1. by rewrite Hrun. }
  unfold bind at 1. destruct ax as [a0|]; simpl.
  - intros H. apply Hrender in H as [?|[? ?]]; [by left|by right].
  - intros H. apply Hrender in H as [?|[? ?]]; [by left|].
    right. split; [done|]. by intros [? [=]].
Qed.

Lemma shortest_path_raises (adata : AnnData) (s t : nat) (vkey : string)
    (w : world) (msg : string) :
  (shortest_path adata s t vkey w).2 = Raise (ValueError msg) →
  ValueError msg = corrupted_neighbors ∨ ValueError msg = missing_graph.
Proof.
  pose proof (shortest_path_cases adata s t vkey w) as Hcases.
  destruct (np_min_nat _) as [fewest|e|] eqn:Hmin; [| |done].
  2:{ rewrite Hcases. simpl. intros [= ->]. by destruct (positive_per_row _). }
  destruct (decide (fewest = 0)). { rewrite Hcases. intros [= <-]. by left. }
  destruct (uns_graph adata !! (vkey +:+ "_graph")) as [pos|].
  2:{ rewrite Hcases. intros [= <-]. by right. }
  destruct (uns_graph adata !! (vkey +:+ "_graph_neg")) as [neg|].
  2:{ by rewrite Hcases. }
  destruct (sparse_sub pos neg) as [T| |]; [|by rewrite Hcases..].
  destruct (from_scipy_sparse_matrix T) as [G| |]; [|by rewrite Hcases..].
  rewrite Hcases. simpl. intros Hr.
  by apply nx_shortest_path_raises in Hr as [?|[?|?]].
Qed.

Lemma auto_select_no_assertion (fuel : nat) (adata : AnnData) (n_plot : nat)
    (verbose : bool) (w : world) :
  (auto_select fuel adata n_plot verbose w).2 ≠ Raise AssertionError.
Proof.
  unfold auto_select, bind at 1, uns_lookup.
  destruct (uns_array adata !! "residue_scores") as [l|]; [|done]. simpl.
  unfold bind at 1, read_array. destruct (arrays w !! l) as [scores|]; [|done].
  pose proof (select_positions_no_assertion fuel
                (uns_vocabulary adata !! "onehot_vocabulary") n_plot verbose
                (Selection scores ∅ [])) as Hsel.
  destruct (select_positions _ _ _ _ _) as [st r]. simpl in Hsel.
  unfold bind, write_array, lift, ret. destruct r; simpl; [discriminate| |discriminate]. intros [= ->]. by apply Hsel.
Qed.

(** X1. The part of C7 the code keeps: the validation errors of the resolver,
    the missing path arguments and the alignment's assertion error all
    leave the world as it was, and a missing embedding draws nothing on a
    surface that was handed in with the path. *)
Lemma validation_errors_before_effects :
  (∀ adata s t vkey w w' e,
     shortest_path adata s t vkey w = (w', Raise e) →
     e = corrupted_neighbors ∨ e = missing_graph → w' = w) ∧
  (∀ adata path s t basis vkey ax color size edgecolor linecolor linewidth w w' e,
     draw_path adata path s t basis vkey ax color size edgecolor linecolor linewidth w
       = (w', Raise e) →
     e = missing_path_arguments ∨ e = corrupted_neighbors ∨ e = missing_graph ∨
     (e = missing_basis basis ∧ is_Some ax ∧ is_Some path) →
     w' = w) ∧
  (∀ fuel adata positions n_plot namespace reference verbose w w',
     residue_categories fuel adata positions n_plot namespace reference verbose w
       = (w', Raise AssertionError) →
     w' = w).
Proof.
  assert (∀ adata s t vkey w w' e,
     shortest_path adata s t vkey w = (w', Raise e) →
     e = corrupted_neighbors ∨ e = missing_graph → w' = w) as Hsp.
  { intros. by eapply shortest_path_errors_frame. }
  split_and!; [exact Hsp| |].
  - intros adata path s t basis vkey ax color size edgecolor linecolor linewidth w w' e.
    assert (missing_basis basis ≠ missing_path_arguments ∧
            missing_basis basis ≠ corrupted_neighbors ∧
            missing_basis basis ≠ missing_graph) as (Hb1 & Hb2 & Hb3).
    { unfold missing_basis. simpl. done. }
    unfold draw_path.
    destruct path as [p|].
    + intros Hr Hcase.
      assert ((let! ax := match ax with Some a => ret a | None => new_figure None end in
               match obsm adata !! ("X_" +:+ basis) with
               | None => raise (missing_basis basis)
               | Some X =>
                   let! basis_x := lift (take_column X p 0) in
                   let! basis_y := lift (take_column X p 1) in
                   draw_arrows ax basis_x basis_y (zip basis_x basis_y) 0 linewidth linecolor ;;
                   emit (Scatter ax basis_x basis_y size color edgecolor 10) ;;
                   ret ax
               end) w = (w', Raise e)) as Hr'.
      { by destruct s, t. }
      apply render_raises in Hr' as [->|[-> Hax]].
      * by destruct Hcase as [?|[?|[?|[? _]]]].
      * destruct Hcase as [?|[?|[?|(_ & ? & _)]]]; [done..|]. by apply Hax.
    + destruct s as [s|], t as [t|]; simpl.
      2-4: unfold raise; intros [= <- <-]; done.
      unfold bind at 1.
      destruct (shortest_path adata s t vkey w) as [w1 [p|e'|]] eqn:Hrun.
      * intros Hr Hcase. apply render_raises in Hr as [->|[-> Hax]].
        -- by destruct Hcase as [?|[?|[?|[? _]]]].
        -- by destruct Hcase as [?|[?|[?|(_ & _ & [? ?])]]].
      * intros [= <- <-] Hcase. eapply Hsp; [done|].
        destruct Hcase as [->|[->|[->|(_ & _ & [? ?])]]]; [|by left|by right|done].
        assert ((shortest_path adata s t vkey w).2 = Raise missing_path_arguments) as Hr
          by by rewrite Hrun.
        by apply shortest_path_raises in Hr as [?|?].
      * done.
  - intros fuel adata positions n_plot namespace reference verbose w w'.
    unfold residue_categories. unfold bind at 1.
    assert (∀ pos2msa w1,
      (let! positions :=
         match positions with
         | Some ps => ret ps
         | None => auto_select fuel adata n_plot verbose
         end in
       overlay_positions adata pos2msa namespace positions) w1
      ≠ (w', Raise AssertionError)) as Hrest.
    { intros pos2msa w1. unfold bind at 1. destruct positions as [ps|].
      - unfold ret. intros H.
        by eapply (overlay_positions_no_assertion adata pos2msa namespace ps w1); rewrite H.
      - pose proof (auto_select_no_assertion fuel adata n_plot verbose w1) as Hsel.
        destruct (auto_select fuel adata n_plot verbose w1) as [w2 [ps|e|]];
          [|by intros [= _ ->]|done].
        intros H.
        by eapply (overlay_positions_no_assertion adata pos2msa namespace ps w2); rewrite H. }
    destruct reference as [ref|].
    + unfold bind at 1, obs_lookup at 1.
      destruct (obs_seq adata !! ref) as [seq_ref|]; [|done]. unfold ret at 1.
      unfold bind at 1, obs_lookup at 1.
      destruct (obs_seqs_msa adata !! ref) as [seq_ref_msa|]; [|done]. unfold ret at 1.
      unfold bind at 1, lift at 1.
      destruct (reference_alignment seq_ref seq_ref_msa) as [m|e|]; [| |done].
      * unfold ret at 1. intros H. by apply Hrest in H.
      * by intros [= <- _].
    + unfold ret at 1. intros H. by apply Hrest in H.
Qed.

(** ** The heatmap's normalization *)

Lemma all_finite_elem_of (X : list (list float)) (x : float) :
  all_finite X → x ∈ mjoin X → ∃ q, x = Fin q.
Proof.
  intros Hfin (row & Hx & Hrow)%list_elem_of_join.
  unfold all_finite in Hfin. rewrite Forall_forall in Hfin.
  specialize (Hfin row Hrow). rewrite Forall_forall in Hfin.
  specialize (Hfin x Hx). destruct x; try done. by eexists.
Qed.

Lemma cell_elem_of (X : list (list float)) (r c : nat) (x : float) :
  cell X r c = Some x → x ∈ mjoin X.
Proof.
  unfold cell. destruct (X !! r) as [row|] eqn:Hr; [|done]. simpl. intros Hc.
  apply list_elem_of_join. exists row. split.
  - by eapply list_elem_of_lookup_2.
  - by eapply list_elem_of_lookup_2.
Qed.

Lemma cell_scale (X : list (list float)) (e : float) (r c : nat) :
  cell (scale X e) r c = (fun x => fdiv x e) <$> cell X r c.
Proof.
  unfold cell, scale. rewrite list_lookup_fmap.
  destruct (X !! r) as [row|]; [|done]. simpl. by rewrite list_lookup_fmap.
Qed.

Lemma Qle_bool_false (x y : Q) : Qle_bool x y = false → (y < x)%Q.
Proof.
  intros H. apply Qnot_le_lt. intros Hle. apply Qle_bool_iff in Hle. congruence.
Qed.

Lemma foldl_np_minimum_finite (x : Q) (rest : list float) :
  (∀ y, y ∈ rest → ∃ q, y = Fin q) →
  ∃ m, foldl np_minimum (Fin x) rest = Fin m ∧
       Fin m ∈ Fin x :: rest ∧ ∀ q, Fin q ∈ Fin x :: rest → (m <= q)%Q.
Proof.
  revert x. induction rest as [|y rest IH]; intros x Hfin; simpl.
  - exists x. split_and!; [done|apply elem_of_cons; by left|].
    intros q [[= ->]|[]%elem_of_nil]%elem_of_cons. apply Qle_refl.
  - destruct (Hfin y) as [qy ->]; [apply elem_of_cons; by left|].
    assert (∀ y, y ∈ rest → ∃ q, y = Fin q) as Hrest.
    { intros z Hz. apply Hfin. apply elem_of_cons. by right. }
    unfold np_minimum at 2. simpl.
    destruct (Qle_bool x qy) eqn:Hle.
    + apply Qle_bool_iff in Hle.
      destruct (IH x Hrest) as (m & -> & Hin & Hmin). exists m. split_and!; [done| |].
      * apply elem_of_cons in Hin as [Hin|Hin]; apply elem_of_cons; [by left|].
        right. apply elem_of_cons. by right.
      * intros q [[= ->]|[[= ->]|Hq]%elem_of_cons]%elem_of_cons.
        -- apply Hmin. apply elem_of_cons. by left.
        -- eapply Qle_trans; [|exact Hle]. apply Hmin. apply elem_of_cons. by left.
        -- apply Hmin. apply elem_of_cons. by right.
    + apply Qle_bool_false in Hle.
      destruct (IH qy Hrest) as (m & -> & Hin & Hmin). exists m. split_and!; [done| |].
      * apply elem_of_cons. right. done.
      * intros q [[= ->]|[[= ->]|Hq]%elem_of_cons]%elem_of_cons.
        -- eapply Qle_trans; [|apply Qlt_le_weak; exact Hle]. apply Hmin. apply elem_of_cons. by left.
        -- apply Hmin. apply elem_of_cons. by left.
        -- apply Hmin. apply elem_of_cons. by right.
Qed.

Lemma foldl_np_maximum_finite (x : Q) (rest : list float) :
  (∀ y, y ∈ rest → ∃ q, y = Fin q) →
  ∃ m, foldl np_maximum (Fin x) rest = Fin m ∧
       Fin m ∈ Fin x :: rest ∧ ∀ q, Fin q ∈ Fin x :: rest → (q <= m)%Q.
Proof.
  revert x. induction rest as [|y rest IH]; intros x Hfin; simpl.
  - exists x. split_and!; [done|apply elem_of_cons; by left|].
    intros q [[= ->]|[]%elem_of_nil]%elem_of_cons. apply Qle_refl.
  - destruct (Hfin y) as [qy ->]; [apply elem_of_cons; by left|].
    assert (∀ y, y ∈ rest → ∃ q, y = Fin q) as Hrest.
    { intros z Hz. apply Hfin. apply elem_of_cons. by right. }
    unfold np_maximum at 2. simpl.
    destruct (Qle_bool qy x) eqn:Hle.
    + apply Qle_bool_iff in Hle.
      destruct (IH x Hrest) as (m & -> & Hin & Hmax). exists m. split_and!; [done| |].
      * apply elem_of_cons in Hin as [Hin|Hin]; apply elem_of_cons; [by left|].
        right. apply elem_of_cons. by right.
      * intros q [[= ->]|[[= ->]|Hq]%elem_of_cons]%elem_of_cons.
        -- apply Hmax. apply elem_of_cons. by left.
        -- eapply Qle_trans; [exact Hle|]. apply Hmax. apply elem_of_cons. by left.
        -- apply Hmax. apply elem_of_cons. by right.
    + apply Qle_bool_false in Hle.
      destruct (IH qy Hrest) as (m & -> & Hin & Hmax). exists m. split_and!; [done| |].
      * apply elem_of_cons. right. done.
      * intros q [[= ->]|[[= ->]|Hq]%elem_of_cons]%elem_of_cons.
        -- eapply Qle_trans; [apply Qlt_le_weak; exact Hle|]. apply Hmax. apply elem_of_cons. by left.
        -- apply Hmax. apply elem_of_cons. by left.
        -- apply Hmax. apply elem_of_cons. by right.
Qed.

(** On a finite matrix with a cell that is not zero, [end] is the larger
    of [|min|] and [max], a positive number. *)
Lemma color_end_finite (X : list (list float)) (x : Q) :
  all_finite X → Fin x ∈ mjoin X → ¬ (x == 0)%Q →
  ∃ lo hi e,
    color_end X = Ok (Fin e) ∧ lowest X lo ∧ highest X hi ∧
    (0 < e)%Q ∧ (Qabs lo <= e)%Q ∧ (hi <= e)%Q ∧ (e == Qabs lo ∨ e == hi)%Q.
Proof.
  intros Hfin Hx Hnz.
  assert (∀ y, y ∈ mjoin X → ∃ q, y = Fin q) as Hf
    by (intros y Hy; by eapply all_finite_elem_of).
  unfold color_end, np_min, np_max, lowest, highest.
  clear Hfin. revert Hf Hx. generalize (mjoin X). intros cells Hfin Hx.
  destruct cells as [|x0 rest]; [by apply elem_of_nil in Hx|].
  destruct (Hfin x0) as [q0 ->]; [apply elem_of_cons; by left|].
  assert (∀ y, y ∈ rest → ∃ q, y = Fin q) as Hrest.
  { intros y Hy. apply Hfin. apply elem_of_cons. by right. }
  destruct (foldl_np_minimum_finite q0 rest Hrest) as (lo & -> & Hlo_in & Hlo).
  destruct (foldl_np_maximum_finite q0 rest Hrest) as (hi & -> & Hhi_in & Hhi).
  pose proof (Hlo x Hx) as Hlox. pose proof (Hhi x Hx) as Hxhi.
  pose proof (Qabs_nonneg lo) as Habs0. pose proof (Qle_Qabs lo) as Habs1.
  pose proof (Qle_Qabs (- lo)) as Habs2. rewrite Qabs_opp in Habs2.
  unfold py_max, fabs, fgt.
  destruct (Qle_bool hi (Qabs lo)) eqn:Hle; simpl.
  - apply Qle_bool_iff in Hle. exists lo, hi, (Qabs lo).
    split_and!; try done; [|lra|by left].
    destruct (Qlt_le_dec 0 (Qabs lo)); [done|]. exfalso. apply Hnz. lra.
  - apply Qle_bool_false in Hle. exists lo, hi, hi.
    split_and!; try done; [lra|lra|lra|by right].
Qed.

Lemma var_names_length (vocab : gmap nat string) :
  length (var_names vocab) = size vocab.
Proof.
  unfold var_names. rewrite length_fmap, merge_sort_Permutation.
  by rewrite <- size_dom.
Qed.

Lemma rows_of_astype_float32 (a : ndarray) :
  rows_of (astype_float32 a) = (fun row : list float => float32_of <$> row) <$> rows_of a.
Proof.
  unfold rows_of, astype_float32. simpl. rewrite <- list_fmap_compose.
  apply list_fmap_ext. intros _ r _. simpl. by rewrite fmap_take, fmap_drop.
Qed.

Lemma scores_X_shape (a : ndarray) :
  nd_dtype (scores_X a) = float32 ∧ nd_rows (scores_X a) = nd_rows a ∧
  nd_cols (scores_X a) = nd_cols a.
Proof. unfold scores_X. by destruct a as [[] ? ? ?]. Qed.

(** [AnnData(X)] returns, and [scores_X] is what the wrapper then holds;
    the wrapper's array is the caller's own exactly when that is a float32
    array. *)
Lemma AnnData_init_X (l : nat) (w : world) (a : ndarray) :
  arrays w !! l = Some a →
  ∃ w' x, AnnData_init l w = (w', Ok x) ∧ arrays w' !! x = Some (scores_X a) ∧
          arrays w' !! l = Some a ∧ (x = l ↔ nd_dtype a = float32).
Proof.
  intros Ha. unfold AnnData_init, bind, read_array, scores_X. rewrite Ha.
  destruct (nd_dtype a) eqn:Hdt.
  - by exists w, l.
  - assert (fresh (dom (arrays w)) ≠ l) as Hne.
    { intros <-. pose proof (is_fresh (dom (arrays w))) as Hfresh.
      apply Hfresh, elem_of_dom. by eexists. }
    eexists _, _. split_and!; [done|..].
    + simpl. apply lookup_insert_eq.
    + simpl. by rewrite lookup_insert_ne.
    + split; [done|]. intros [=].
Qed.

(** The conversion at some values: inside the float32 range a number is
    rounded to 24 bits, half-way cases to the even neighbour; [1e-50] is
    below the range and becomes zero, [1e39] is beyond it and becomes an
    infinity. *)
Lemma float32_of_values :
  float32_of (nat_cell 5) = nat_cell 5 ∧
  float32_of (Fin (1 # 10)) = Fin (13421773 # 134217728) ∧
  float32_of (Fin (inject_Z 16777217)) = Fin (inject_Z 16777216) ∧
  float32_of (Fin (inject_Z 16777219)) = Fin (inject_Z 16777220) ∧
  float32_of (Fin (1 # 10 ^ 50)) = Fin 0 ∧
  float32_of (Fin (inject_Z (10 ^ 39))) = PInf ∧
  float32_of (Fin (- inject_Z (10 ^ 39))) = NInf ∧
  float32_of (Fin (inject_Z (2 ^ 128 - 2 ^ 104))) = Fin (inject_Z (2 ^ 128 - 2 ^ 104)) ∧
  float32_of (Fin (inject_Z (2 ^ 128 - 2 ^ 103))) = PInf ∧
  float32_of (Fin (1 # 2 ^ 149)) = Fin (1 # 2 ^ 149) ∧
  float32_of (Fin (1 # 2 ^ 150)) = Fin 0.
Proof. by vm_compute. Qed.

(** What the conversion and the overflow do to a heatmap. A float64 score
    of [1e-50] is a zero of the matrix that is drawn: alone with a zero,
    it makes [end] zero and the heatmap NaN. A float64 score of [1e39] is
    an infinity there: with half of the rows to be kept, the cutoff is
    NaN, no row is kept, and [np.min] raises. The same happens in a
    float32 matrix when the sum of a row overflows. *)
Lemma residue_scores_float32_range :
  residue_scores example_adata 0 "onehot" "residue_scores" None
    (World {[0 := NdArray float64 1 2 [Fin (1 # 10 ^ 50); Fin 0]]} ∅ 0 [])
  = (World {[0 := NdArray float64 1 2 [Fin (1 # 10 ^ 50); Fin 0];
             1 := NdArray float32 1 2 [NaN; NaN]]} ∅ 1
       [Figure 1 (Some (5, 5)); Heatmap 1 [[NaN; NaN]] ["A"; "C"] ["0"]],
     Ok (Some 1)) ∧
  (residue_scores example_adata 50 "onehot" "residue_scores" None
     (World {[0 := NdArray float64 2 2
                     [Fin (inject_Z (10 ^ 39)); nat_cell 1; nat_cell 1; nat_cell 1]]}
            ∅ 0 [])).2
  = Raise NumpyValueError ∧
  (residue_scores example_adata 50 "onehot" "residue_scores" None
     (World {[0 := NdArray float32 2 2
                     [Fin (inject_Z (2 ^ 127)); Fin (inject_Z (2 ^ 127));
                      nat_cell 1; nat_cell 1]]}
            ∅ 0 [])).2
  = Raise NumpyValueError.
Proof. split_and!; by vm_compute. Qed.

(** The run of [residue_scores] when nothing fails; [scores_X a] is the
    matrix it works on. *)
Lemma residue_scores_run (adata : AnnData) (p : Q) (basis key : string)
    (save : option string) (w : world) (l : nat) (a : ndarray)
    (vocab : gmap nat string) (mask : list bool) (e : float) :
  uns_array adata !! key = Some l →
  arrays w !! l = Some a →
  uns_vocabulary adata !! (basis +:+ "_vocabulary") = Some vocab →
  size vocab = nd_cols a →
  keep_mask (rows_of (scores_X a)) p = Ok mask →
  color_end (keep_rows mask (rows_of (scores_X a))) = Ok e →
  residue_scores adata p basis key save w =
    (World (<[(if nd_dtype a is float32 then l else fresh (dom (arrays w))) :=
              NdArray float32 (nd_rows a) (nd_cols a)
                (mjoin (put_rows mask (rows_of (scores_X a))
                          (scale (keep_rows mask (rows_of (scores_X a))) e)))]> (arrays w))
           (obs w) (S (nfig w))
           (trace w ++
            [Figure (S (nfig w))
               (Some (Nat.max (nd_cols a / 2) 5,
                      Nat.max (length (keep_rows mask (rows_of (scores_X a))) / 20) 5));
             Heatmap (S (nfig w)) (scale (keep_rows mask (rows_of (scores_X a))) e)
               (var_names vocab) (keep_rows mask (pretty <$> seq 0 (nd_rows a)))] ++
            (if save is Some name
             then [Savefig ("figures/evolocity_" +:+ name); Close] else [])),
     Ok (if save is Some _ then None else Some (S (nfig w)))).
Proof.
  intros Hl Ha Hvocab Hsize Hmask Hend.
  unfold residue_scores, bind at 1, uns_lookup at 1. rewrite Hl. unfold ret at 1.
  unfold bind at 1, AnnData_init, bind at 1, read_array at 1. rewrite Ha.
  destruct a as [dt rows cols data]. unfold scores_X in *. simpl in *.
  destruct dt.
  - unfold ret at 1, bind at 1, uns_lookup at 1. rewrite Hvocab. unfold ret at 1.
    unfold bind at 1, read_array at 1. rewrite Ha.
    rewrite var_names_length, Hsize, Nat.eqb_refl. simpl.
    unfold rows_of in *. simpl in *.
    unfold bind at 1, lift at 1. rewrite Hmask.
    unfold bind at 1, lift at 1. rewrite Hend.
    unfold bind, write_array, new_figure, emit, ret. simpl.
    destruct save; simpl; by rewrite <- !app_assoc.
  - unfold bind at 1, uns_lookup at 1. rewrite Hvocab. unfold ret at 1.
    unfold bind at 1, read_array at 1. simpl. rewrite lookup_insert_eq.
    rewrite var_names_length, Hsize, Nat.eqb_refl. simpl.
    unfold rows_of, astype_float32 in *. simpl in *.
    unfold bind at 1, lift at 1. rewrite Hmask.
    unfold bind at 1, lift at 1. rewrite Hend.
    unfold bind, write_array, new_figure, emit, ret. simpl.
    rewrite insert_insert_eq.
    destruct save; simpl; by rewrite <- !app_assoc.
Qed.

(** C3, as the code has it. The matrix that is normalized is the part of
    the wrapper's float32 matrix (the stored matrix itself, or its float32
    conversion when it is a float64 one) kept by the percentile filter.
    When it has only finite cells, one of them not zero, the heatmap is
    drawn from that matrix divided by [end = max(|min|, max)], every entry
    of it lies in [-1, 1]; the entries where the minimum stood are exactly
    -1 when [max <= -min], and the entries where the maximum stood are
    exactly +1 when [-min <= max]. *)
Theorem heatmap_normalization (adata : AnnData) (p : Q) (basis key : string)
    (save : option string) (w : world) (l : nat) (a : ndarray)
    (vocab : gmap nat string) (mask : list bool) (x : Q) :
  uns_array adata !! key = Some l →
  arrays w !! l = Some a →
  uns_vocabulary adata !! (basis +:+ "_vocabulary") = Some vocab →
  size vocab = nd_cols a →
  keep_mask (rows_of (scores_X a)) p = Ok mask →
  all_finite (keep_rows mask (rows_of (scores_X a))) →
  Fin x ∈ mjoin (keep_rows mask (rows_of (scores_X a))) → ¬ (x == 0)%Q →
  ∃ lo hi e w' ax fig figsize xticklabels yticklabels saved,
    residue_scores adata p basis key save w = (w', Ok ax) ∧
    trace w' = trace w ++
      [Figure fig figsize;
       Heatmap fig (scale (keep_rows mask (rows_of (scores_X a))) (Fin e))
         xticklabels yticklabels]
      ++ saved ∧
    lowest (keep_rows mask (rows_of (scores_X a))) lo ∧
    highest (keep_rows mask (rows_of (scores_X a))) hi ∧
    (Qabs lo <= e)%Q ∧ (hi <= e)%Q ∧ (e == Qabs lo ∨ e == hi)%Q ∧
    ∀ r c q, cell (keep_rows mask (rows_of (scores_X a))) r c = Some (Fin q) →
      ∃ q', cell (scale (keep_rows mask (rows_of (scores_X a))) (Fin e)) r c
              = Some (Fin q') ∧
            (-1 <= q' <= 1)%Q ∧
            ((q == lo)%Q → (hi <= - lo)%Q → (q' == -1)%Q) ∧
            ((q == hi)%Q → (- lo <= hi)%Q → (q' == 1)%Q).
Proof.
  intros Hl Ha Hvocab Hsize Hmask Hfin Hx Hnz.
  destruct (color_end_finite _ x Hfin Hx Hnz)
    as (lo & hi & e & Hend & Hlo & Hhi & Hpos & Hge1 & Hge2 & Hmax).
  exists lo, hi, e. do 7 eexists. split_and!.
  - by eapply residue_scores_run.
  - reflexivity.
  - done.
  - done.
  - done.
  - done.
  - done.
  - intros r c q Hq. rewrite cell_scale, Hq. simpl.
    assert (Qeq_bool e 0 = false) as ->.
    { apply not_true_is_false. intros H%Qeq_bool_iff. lra. }
    exists (q / e)%Q. split; [done|].
    pose proof (cell_elem_of _ _ _ _ Hq) as Hin.
    destruct Hlo as [_ Hlo], Hhi as [_ Hhi].
    pose proof (Hlo q Hin) as Hloq. pose proof (Hhi q Hin) as Hqhi.
    pose proof (Qle_Qabs (- lo)) as Habs. rewrite Qabs_opp in Habs.
    pose proof (Qle_Qabs lo) as Habs'.
    split_and!.
    + apply Qle_shift_div_l; [done|]. lra.
    + apply Qle_shift_div_r; [done|]. lra.
    + intros Heq Hle.
      assert (e == - lo)%Q as He.
      { destruct Hmax as [He|He]; [|lra].
        rewrite He. apply Qabs_neg. lra. }
      rewrite Heq, He. field. lra.
    + intros Heq Hle.
      assert (e == hi)%Q as He.
      { destruct Hmax as [He|He]; [|done].
        assert (Qabs lo <= hi)%Q; [|lra]. apply Qabs_case; lra. }
      rewrite Heq, He. field. lra.
Qed.

Lemma heatmap_normalization_witness :
  ∃ e q',
    cell (scale (keep_rows [true; true; true] (rows_of example_scores)) (Fin e)) 2 1
      = Some (Fin q') ∧ (q' == 1)%Q.
Proof.
  destruct (heatmap_normalization example_adata 0 "onehot" "residue_scores" None
              example_world 0 example_scores {[0 := "A"; 1 := "C"]}
              [true; true; true] 5 eq_refl eq_refl eq_refl eq_refl eq_refl)
    as (lo & hi & e & w' & ax & fig & figsize & xt & yt & saved & _ & _ &
        [Hlo_in Hlo] & [Hhi_in Hhi] & _ & _ & _ & Hcells).
  - repeat constructor.
  - apply elem_of_cons. by left.
  - by intros [=].
  - change (scores_X example_scores) with example_scores in *.
    assert (mjoin (keep_rows [true; true; true] (rows_of example_scores))
            = [nat_cell 5; nat_cell 1; nat_cell 0; nat_cell 7; nat_cell 2; nat_cell 9])
      as Hcellseq by reflexivity.
    rewrite Hcellseq in Hlo_in, Hhi_in, Hhi.
    assert (inject_Z 9 <= hi)%Q as H9hi.
    { apply Hhi. do 5 (apply elem_of_cons; right). apply elem_of_cons. by left. }
    assert (hi <= inject_Z 9)%Q as Hhi9.
    { repeat (apply elem_of_cons in Hhi_in as [[= ->]|Hhi_in];
              [unfold Qle; simpl; lia|]).
      by apply elem_of_nil in Hhi_in. }
    assert (0 <= lo)%Q as Hlo0.
    { repeat (apply elem_of_cons in Hlo_in as [[= ->]|Hlo_in];
              [unfold Qle; simpl; lia|]).
      by apply elem_of_nil in Hlo_in. }
    destruct (Hcells 2 1 (inject_Z 9) eq_refl) as (q' & Hq' & _ & _ & Hone).
    exists e, q'. split; [exact Hq'|]. apply Hone.
    + by apply Qle_antisym.
    + assert (0 <= inject_Z 9)%Q by (unfold Qle; simpl; lia). lra.
Defined.

(** C3 as stated fails: in the matrix below the minimum, 0, stands in row
    1, column 0, and after the division by [end = 9] the entry there is
    0, not -1. *)
Lemma heatmap_minimum_not_minus_one :
  lowest (rows_of example_scores) 0 ∧
  cell (rows_of example_scores) 1 0 = Some (Fin 0) ∧
  (residue_scores example_adata 0 "onehot" "residue_scores" None example_world).2
    = Ok (Some 1) ∧
  trace (residue_scores example_adata 0 "onehot" "residue_scores" None example_world).1
    = [Figure 1 (Some (5, 5));
       Heatmap 1 [[Fin (5 # 9); Fin (1 # 9)]; [Fin (0 # 9); Fin (7 # 9)];
                  [Fin (2 # 9); Fin (9 # 9)]]
               ["A"; "C"] ["0"; "1"; "2"]] ∧
  ¬ (0 # 9 == -1)%Q.
Proof.
  split_and!.
  - split; [apply elem_of_cons; right; apply elem_of_cons; right; apply elem_of_cons; by left|].
    intros q Hq.
    change (mjoin (rows_of example_scores))
      with [nat_cell 5; nat_cell 1; nat_cell 0; nat_cell 7; nat_cell 2; nat_cell 9] in Hq.
    repeat (apply elem_of_cons in Hq as [[= ->]|Hq]; [unfold Qle; simpl; lia|]).
    by apply elem_of_nil in Hq.
  - reflexivity.
  - reflexivity.
  - reflexivity.
  - by intros [=].
Qed.

(** ** The heatmap and the stored matrix *)

(** C5 at the input where it fails: the stored score matrix is a float32
    array, the wrapper made by [AnnData(...)] shares it, and the in-place
    division leaves the dataset's own matrix divided by [end = 9]. *)
Theorem residue_scores_rescales_stored_matrix :
  arrays example_world !! 0 = Some example_scores ∧
  arrays (residue_scores example_adata 0 "onehot" "residue_scores" None example_world).1 !! 0
    = Some (NdArray float32 3 2
              [Fin (5 # 9); Fin (1 # 9); Fin (0 # 9); Fin (7 # 9); Fin (2 # 9); Fin (9 # 9)]) ∧
  nd_data example_scores !! 0 = Some (Fin 5).
Proof. split_and!; reflexivity. Qed.

(** A float64 score matrix is never written: whatever the outcome, it is
    in the store as it was. *)
Lemma residue_scores_keeps_float64 (adata : AnnData) (p : Q) (basis key : string)
    (save : option string) (w : world) (l : nat) (a : ndarray) :
  uns_array adata !! key = Some l →
  arrays w !! l = Some a →
  nd_dtype a = float64 →
  arrays (residue_scores adata p basis key save w).1 !! l = Some a.
Proof.
  intros Hl Ha Hdt.
  assert (fresh (dom (arrays w)) ≠ l) as Hne.
  { intros <-. pose proof (is_fresh (dom (arrays w))) as Hfresh.
    apply Hfresh, elem_of_dom. by eexists. }
  unfold residue_scores, bind at 1, uns_lookup at 1. rewrite Hl. unfold ret at 1.
  unfold bind at 1, AnnData_init, bind at 1, read_array at 1. rewrite Ha, Hdt.
  unfold bind at 1, uns_lookup at 1.
  destruct (uns_vocabulary adata !! (basis +:+ "_vocabulary")) as [vocab|];
    [|simpl; by rewrite lookup_insert_ne].
  unfold ret at 1. unfold bind at 1, read_array at 1. simpl. rewrite lookup_insert_eq.
  destruct (negb _); [simpl; by rewrite lookup_insert_ne|].
  unfold bind at 1, lift at 1.
  destruct (keep_mask _ p) as [mask| |]; [|simpl; by rewrite lookup_insert_ne..].
  unfold bind at 1, lift at 1.
  destruct (color_end _) as [e| |]; [|simpl; by rewrite lookup_insert_ne..].
  unfold bind, write_array, new_figure, emit, ret. simpl.
  destruct save; simpl; by rewrite insert_insert_eq, lookup_insert_ne.
Qed.

(** X2. Where the stored matrix ends up in general: a float32 matrix has its
    kept rows overwritten by the scaled ones; any other matrix is left as
    it was, the division being done on the converted copy. *)
Lemma residue_scores_store (adata : AnnData) (p : Q) (basis key : string)
    (save : option string) (w : world) (l : nat) (a : ndarray)
    (vocab : gmap nat string) (mask : list bool) (e : float) :
  uns_array adata !! key = Some l →
  arrays w !! l = Some a →
  uns_vocabulary adata !! (basis +:+ "_vocabulary") = Some vocab →
  size vocab = nd_cols a →
  keep_mask (rows_of a) p = Ok mask →
  color_end (keep_rows mask (rows_of a)) = Ok e →
  arrays (residue_scores adata p basis key save w).1 !! l =
    match nd_dtype a with
    | float32 =>
        Some (NdArray float32 (nd_rows a) (nd_cols a)
                (mjoin (put_rows mask (rows_of a) (scale (keep_rows mask (rows_of a)) e))))
    | float64 => Some a
    end.
Proof.
  intros Hl Ha Hvocab Hsize Hmask Hend.
  destruct (nd_dtype a) eqn:Hdt; [|by apply residue_scores_keeps_float64].
  assert (scores_X a = a) as HX by (unfold scores_X; by rewrite Hdt).
  rewrite <- HX in Hmask, Hend.
  rewrite (residue_scores_run _ _ _ _ _ _ _ _ _ _ _ Hl Ha Hvocab Hsize Hmask Hend).
  simpl. by rewrite Hdt, HX, lookup_insert_eq.
Qed.

(** ** The order of the cells *)

Lemma fge_false (a b : float) :
  isnan a = false → isnan b = false → fge a b = false → fgt b a = true.
Proof.
  destruct a as [| |x|], b as [| |y|]; simpl; try done.
  intros _ _ H. by rewrite H.
Qed.

Lemma fge_true (a b : float) :
  fge a b = true → fgt a b = true ∨ feq b a = true.
Proof.
  destruct a as [| |x|], b as [| |y|]; simpl; try done; auto.
  intros Hle%Qle_bool_iff. destruct (Qle_bool x y) eqn:Hxy; [|by left].
  right. apply Qle_bool_iff in Hxy. apply Qeq_bool_iff. lra.
Qed.


Lemma fge_fgt_trans (a b c : float) :
  fge a b = true → fgt b c = true → fgt a c = true.
Proof.
  destruct a as [| |x|], b as [| |y|], c as [| |z|]; simpl; try done.
  intros Hxy%Qle_bool_iff Hyz%negb_true_iff%Qle_bool_false.
  apply negb_true_iff, not_true_is_false. intros H%Qle_bool_iff. lra.
Qed.

Lemma fgt_fge (a b : float) : fgt a b = true → fge a b = true.
Proof.
  destruct a as [| |x|], b as [| |y|]; simpl; try done.
  intros Hxy%negb_true_iff%Qle_bool_false. apply Qle_bool_iff. lra.
Qed.

Lemma feq_fge (a b : float) : feq a b = true → fge b a = true.
Proof.
  destruct a as [| |x|], b as [| |y|]; simpl; try done.
  intros Hxy%Qeq_bool_iff. apply Qle_bool_iff. lra.
Qed.

Lemma fgt_asym (a b : float) : fgt a b = true → fge b a = false.
Proof.
  destruct a as [| |x|], b as [| |y|]; simpl; try done.
  intros Hxy%negb_true_iff. done.
Qed.

Lemma fgt_isnan (a b : float) : fgt a b = true → isnan a = false ∧ isnan b = false.
Proof. by destruct a, b. Qed.

Lemma lower_asym (cells : list float) (i j : nat) :
  lower cells i j = true → lower cells j i = false.
Proof.
  unfold lower. destruct (cells !! i) as [x|], (cells !! j) as [y|]; try done.
  intros [Hgt|[Heq Hlt]%andb_true_iff]%orb_true_iff.
  - apply orb_false_iff. split.
    + destruct (fgt x y) eqn:Hxy; [|done].
      apply fgt_fge in Hxy. apply fgt_asym in Hgt. congruence.
    + apply andb_false_iff. left.
      destruct (feq y x) eqn:Hyx; [|done].
      apply feq_fge in Hyx. apply fgt_asym in Hgt. congruence.
  - apply bool_decide_eq_true in Hlt. apply orb_false_iff. split.
    + destruct (fgt x y) eqn:Hxy; [|done].
      apply feq_fge in Heq. apply fgt_asym in Hxy. congruence.
    + apply andb_false_iff. right. apply bool_decide_eq_false. lia.
Qed.

(** Where [argmin_from] stops: at a cell that comes before all others. *)
Lemma argmin_from_spec (pre rest : list float) (mp : float) (min_ind : nat) :
  Forall (fun x => isnan x = false) (pre ++ rest) →
  pre !! min_ind = Some mp →
  (∀ j, j < length pre → j ≠ min_ind → lower pre min_ind j = true) →
  argmin_from rest (length pre) mp min_ind < length (pre ++ rest) ∧
  ∀ j, j < length (pre ++ rest) → j ≠ argmin_from rest (length pre) mp min_ind →
       lower (pre ++ rest) (argmin_from rest (length pre) mp min_ind) j = true.
Proof.
  revert pre mp min_ind. induction rest as [|x rest IH]; intros pre mp min_ind Hnan Hmp Hpre.
  - simpl. rewrite app_nil_r. split; [by eapply lookup_lt_Some|done].
  - assert (isnan x = false ∧ isnan mp = false) as [Hx Hmpn].
    { rewrite Forall_forall in Hnan. split; apply Hnan.
      - apply elem_of_app. right. apply elem_of_cons. by left.
      - apply elem_of_app. left. by eapply list_elem_of_lookup_2. }
    pose proof (lookup_lt_Some _ _ _ Hmp) as Hlt.
    simpl. rewrite Hx.
    replace (pre ++ x :: rest) with ((pre ++ [x]) ++ rest) in * by by rewrite <- app_assoc.
    replace (S (length pre)) with (length (pre ++ [x])) by (rewrite length_app; simpl; lia).
    destruct (fge x mp) eqn:Hge; simpl.
    + apply IH; [done|by apply lookup_app_l_Some|].
      intros j Hj Hne. rewrite length_app in Hj. simpl in Hj.
      destruct (decide (j < length pre)) as [Hjl|Hjl].
      * specialize (Hpre j Hjl Hne). unfold lower in *.
        by rewrite !lookup_app_l by lia.
      * assert (j = length pre) as -> by lia. unfold lower.
        rewrite lookup_app_l, Hmp by lia. rewrite list_lookup_middle by done.
        apply fge_true in Hge as [->|Heq]; [done|].
        rewrite Heq. simpl. rewrite bool_decide_eq_true_2 by lia. apply orb_true_r.
    + apply fge_false in Hge; [|done..].
      apply IH; [done|by apply list_lookup_middle|].
      intros j Hj Hne. rewrite length_app in Hj. simpl in Hj.
      assert (j < length pre) as Hjl by lia.
      unfold lower. rewrite list_lookup_middle by done.
      rewrite lookup_app_l by lia.
      destruct (pre !! j) as [y|] eqn:Hy; [|by apply lookup_ge_None in Hy; lia].
      apply orb_true_iff. left.
      destruct (decide (j = min_ind)) as [->|Hjm]; [congruence|].
      specialize (Hpre j Hjl Hjm). unfold lower in Hpre. rewrite Hmp, Hy in Hpre.
      apply orb_true_iff in Hpre as [Hgt|[Heq _]%andb_true_iff].
      * eapply fge_fgt_trans; [by apply fgt_fge|done].
      * eapply fge_fgt_trans; [by apply feq_fge|done].
Qed.

Lemma np_argmin_spec (cells : list float) :
  Forall (fun x => isnan x = false) cells → cells ≠ [] →
  ∃ m, np_argmin cells = Ok m ∧ m < length cells ∧
       ∀ j, j < length cells → j ≠ m → lower cells m j = true.
Proof.
  intros Hnan Hne. destruct cells as [|x rest]; [done|].
  unfold np_argmin. apply Forall_cons in Hnan as Hx. destruct Hx as [Hx _]. rewrite Hx.
  eexists. split; [done|].
  apply (argmin_from_spec [x] rest x 0); [done|done|].
  intros j Hj Hj0. simpl in Hj. lia.
Qed.

(** ** The auto-selection loop *)

Lemma set_cell_data (a : ndarray) (m : nat) (x : float) :
  nd_data (set_cell a (unravel_index m a) x) = <[m := x]> (nd_data a).
Proof.
  unfold set_cell, unravel_index. simpl. f_equal.
  pose proof (Nat.div_mod_eq m (nd_cols a)). lia.
Qed.

Lemma select_positions_done (fuel : nat) (vocabulary : option (gmap nat string))
    (n_plot : nat) (verbose : bool) (st : selection) :
  n_plot ≤ size (sel_seen st) →
  select_positions fuel vocabulary n_plot verbose st = (st, Ok (sel_seen st)).
Proof.
  intros Hn. destruct fuel; simpl; by rewrite bool_decide_eq_false_2 by lia.
Qed.

(** One turn of the loop. *)
Lemma select_positions_step (fuel : nat) (vocab : gmap nat string)
    (n_plot : nat) (verbose : bool) (st : selection) (m : nat) (aa : string) :
  size (sel_seen st) < n_plot →
  np_argmin (nd_data (sel_scores st)) = Ok m →
  vocab !! (m mod nd_cols (sel_scores st)) = Some aa →
  select_positions (S fuel) (Some vocab) n_plot verbose st =
  select_positions fuel (Some vocab) n_plot verbose
    (if decide (m / nd_cols (sel_scores st) ∈ sel_seen st)
     then Selection (set_cell (sel_scores st) (unravel_index m (sel_scores st)) PInf)
                    (sel_seen st) (sel_log st)
     else Selection (set_cell (sel_scores st) (unravel_index m (sel_scores st)) PInf)
                    (sel_seen st ∪ {[m / nd_cols (sel_scores st)]})
                    (if verbose
                     then sel_log st ++
                          [LoggInfo (lowest_score_message
                                       (size (sel_seen st ∪ {[m / nd_cols (sel_scores st)]}))
                                       aa (m / nd_cols (sel_scores st)))]
                     else sel_log st)).
Proof.
  intros Hlt Hm Haa. simpl. rewrite bool_decide_eq_true_2 by done.
  rewrite Hm. simpl. rewrite Haa. by case_decide.
Qed.

Lemma select_lowest (vocab : gmap nat string) (n_plot : nat) (verbose : bool)
    (k : nat) :
  ∀ (S : gset nat) (st : selection) (fuel : nat),
    size S = k → k ≤ fuel →
    size (sel_seen st) + k = n_plot →
    (∀ i, i ∈ S → below_inf (nd_data (sel_scores st)) i = true) →
    (∀ i j, i ∈ S → j ∉ S → j < length (nd_data (sel_scores st)) →
            lower (nd_data (sel_scores st)) i j = true) →
    (∀ i j, i ∈ S → j ∈ S →
            i / nd_cols (sel_scores st) = j / nd_cols (sel_scores st) → i = j) →
    (∀ i, i ∈ S → i / nd_cols (sel_scores st) ∉ sel_seen st) →
    (∀ i, i ∈ S → is_Some (vocab !! (i mod nd_cols (sel_scores st)))) →
    ∃ st',
      select_positions fuel (Some vocab) n_plot verbose st = (st', Ok (sel_seen st')) ∧
      sel_seen st' = sel_seen st ∪ set_map (fun i => i / nd_cols (sel_scores st)) S ∧
      nd_cols (sel_scores st') = nd_cols (sel_scores st) ∧
      nd_rows (sel_scores st') = nd_rows (sel_scores st) ∧
      nd_dtype (sel_scores st') = nd_dtype (sel_scores st) ∧
      length (nd_data (sel_scores st')) = length (nd_data (sel_scores st)) ∧
      (∀ i, i ∈ S → nd_data (sel_scores st') !! i = Some PInf) ∧
      (∀ j, j ∉ S → nd_data (sel_scores st') !! j = nd_data (sel_scores st) !! j).
Proof.
  induction k as [|k IH]; intros S st fuel Hsize Hfuel Hcount Hbelow Hlow Hinj Hnew Hvoc.
  - apply size_empty_iff in Hsize. apply leibniz_equiv in Hsize. subst S.
    exists st. rewrite select_positions_done by lia.
    split_and!; try done. set_solver.
  - destruct fuel as [|fuel]; [lia|].
    set (data := nd_data (sel_scores st)) in *.
    set (cols := nd_cols (sel_scores st)) in *.
    destruct (size_pos_elem_of S) as [i0 Hi0]; [lia|].
    assert (∀ i, i ∈ S → ∃ x, data !! i = Some x ∧ fgt PInf x = true) as Hcell.
    { intros i Hi. specialize (Hbelow i Hi). unfold below_inf in Hbelow.
      destruct (data !! i) as [x|]; [|done]. by exists x. }
    assert (Forall (fun x => isnan x = false) data) as Hnan.
    { apply Forall_lookup_2. intros j y Hy.
      destruct (decide (j ∈ S)) as [Hj|Hj].
      - destruct (Hcell j Hj) as (x & Hx & Hinf). rewrite Hy in Hx. injection Hx as ->.
        by apply fgt_isnan in Hinf as [_ ?].
      - pose proof (Hlow i0 j Hi0 Hj (lookup_lt_Some _ _ _ Hy)) as Hl.
        unfold lower in Hl. destruct (Hcell i0 Hi0) as (x & Hx & _).
        fold data in Hl. rewrite Hx, Hy in Hl.
        apply orb_true_iff in Hl as [Hgt|[Heq _]%andb_true_iff].
        + by apply fgt_isnan in Hgt as [? _].
        + by destruct x, y. }
    destruct (np_argmin_spec data Hnan) as (m & Hm & Hmlt & Hfirst).
    { destruct (Hcell i0 Hi0) as (x & Hx & _). by destruct data. }
    assert (m ∈ S) as HmS.
    { destruct (decide (m ∈ S)) as [|HmS]; [done|]. exfalso.
      pose proof (Hlow i0 m Hi0 HmS Hmlt) as H1.
      destruct (Hcell i0 Hi0) as (x & Hx & _).
      pose proof (Hfirst i0 (lookup_lt_Some _ _ _ Hx)) as H2.
      apply lower_asym in H1. rewrite H2 in H1; [done|]. by intros ->. }
    destruct (Hvoc m HmS) as [aa Haa].
    rewrite (select_positions_step fuel vocab n_plot verbose st m aa); [|lia|done|done].
    rewrite decide_False by by apply Hnew.
    fold cols.
    set (st1 := Selection _ _ _).
    assert (nd_data (sel_scores st1) = <[m := PInf]> data) as Hdata1.
    { subst st1. apply set_cell_data. }
    destruct (IH (S ∖ {[m]}) st1 fuel) as (st' & Hrun & Hseen & Hcols & Hrows & Hdt & Hlen & Hinf & Hkeep).
    + rewrite size_difference by set_solver. rewrite size_singleton. lia.
    + lia.
    + subst st1. simpl. rewrite size_union by (specialize (Hnew m HmS); set_solver).
      rewrite size_singleton. lia.
    + intros i Hi. rewrite Hdata1. unfold below_inf.
      rewrite list_lookup_insert_ne by set_solver.
      apply Hbelow. set_solver.
    + intros i j Hi Hj Hjlt. rewrite Hdata1 in *. rewrite length_insert in Hjlt.
      assert (i ≠ m ∧ i ∈ S) as [Him HiS] by set_solver.
      unfold lower. rewrite (list_lookup_insert_ne _ m i) by done.
      destruct (Hcell i HiS) as (x & Hx & Hxinf). rewrite Hx.
      destruct (decide (j = m)) as [->|Hjm].
      * rewrite list_lookup_insert_eq by done. by rewrite Hxinf.
      * rewrite list_lookup_insert_ne by done.
        assert (j ∉ S) as HjS by set_solver.
        specialize (Hlow i j HiS HjS Hjlt). unfold lower in Hlow. by rewrite Hx in Hlow.
    + intros i j Hi Hj. subst st1. simpl. apply Hinj; set_solver.
    + intros i Hi. subst st1. simpl.
      assert (i ≠ m ∧ i ∈ S) as [Him HiS] by set_solver.
      specialize (Hnew i HiS). specialize (Hinj i m HiS HmS). set_solver.
    + intros i Hi. subst st1. simpl. apply Hvoc. set_solver.
    + exists st'. rewrite Hdata1 in Hlen, Hkeep.
      change (nd_cols (sel_scores st1)) with cols in *.
      change (sel_seen st1) with (sel_seen st ∪ {[m `div` cols]}) in Hseen.
      split_and!; try done.
      * rewrite Hseen. apply set_eq. intros r. set_unfold.
        split.
        -- intros [[? | ->] | (i & -> & Hi & _)]; [by left|right; by exists m|right; by exists i].
        -- intros [?|(i & -> & Hi)]; [left; by left|].
           destruct (decide (i = m)) as [->|]; [left; by right|].
           right. exists i. done.
      * by rewrite Hlen, length_insert.
      * intros i Hi. destruct (decide (i = m)) as [->|Him].
        -- rewrite Hkeep by set_solver. by apply list_lookup_insert_eq.
        -- apply Hinf. set_solver.
      * intros j Hj. rewrite Hkeep by set_solver.
        apply list_lookup_insert_ne. set_solver.
Qed.

Lemma sorted_positions_spec (pos_seen : gset nat) :
  StronglySorted lt (sorted_positions pos_seen) ∧
  ∀ r, r ∈ sorted_positions pos_seen ↔ r ∈ pos_seen.
Proof.
  unfold sorted_positions.
  assert (∀ l : list nat, StronglySorted le l → NoDup l → StronglySorted lt l) as Hstrict.
  { induction 1 as [|x l Hl IH Hx]; intros Hnd; constructor.
    - apply IH. by apply NoDup_cons in Hnd as [_ ?].
    - apply NoDup_cons in Hnd as [Hnot _].
      rewrite Forall_forall in Hx |- *. intros y Hy.
      specialize (Hx y Hy). assert (x ≠ y) by (by intros ->). lia. }
  split.
  - apply Hstrict.
    + apply StronglySorted_merge_sort; apply _.
    + rewrite merge_sort_Permutation. apply NoDup_elements.
  - intros r. rewrite merge_sort_Permutation. apply elem_of_elements.
Qed.

(** C2, as the code has it. When the [n_plot] lowest cells of the score
    matrix (the scan order breaking ties) are below positive infinity,
    stand in [n_plot] distinct rows and have vocabulary entries for their
    columns, the auto-selection returns exactly their rows in ascending
    order, and afterwards each of those cells holds positive infinity while
    every other cell is as before. In any turn of the loop, a minimum
    found in a row already recorded is overwritten with positive infinity
    and nothing is recorded for it. *)
Theorem auto_select_lowest (adata : AnnData) (n_plot fuel : nat) (verbose : bool)
    (w : world) (l : nat) (scores : ndarray) (vocab : gmap nat string)
    (S : gset nat) :
  uns_array adata !! "residue_scores" = Some l →
  arrays w !! l = Some scores →
  uns_vocabulary adata !! "onehot_vocabulary" = Some vocab →
  size S = n_plot → n_plot ≤ fuel →
  (∀ i, i ∈ S → below_inf (nd_data scores) i = true) →
  (∀ i j, i ∈ S → j ∉ S → j < length (nd_data scores) →
          lower (nd_data scores) i j = true) →
  (∀ i j, i ∈ S → j ∈ S → i / nd_cols scores = j / nd_cols scores → i = j) →
  (∀ i, i ∈ S → is_Some (vocab !! (i mod nd_cols scores))) →
  (∃ w' positions scores',
     auto_select fuel adata n_plot verbose w = (w', Ok positions) ∧
     StronglySorted lt positions ∧
     (∀ r, r ∈ positions ↔ ∃ i, i ∈ S ∧ r = i / nd_cols scores) ∧
     arrays w' !! l = Some scores' ∧
     (∀ i, i ∈ S → nd_data scores' !! i = Some PInf) ∧
     (∀ j, j ∉ S → nd_data scores' !! j = nd_data scores !! j)) ∧
  (∀ fuel' st m aa,
     size (sel_seen st) < n_plot →
     np_argmin (nd_data (sel_scores st)) = Ok m →
     vocab !! (m mod nd_cols (sel_scores st)) = Some aa →
     m / nd_cols (sel_scores st) ∈ sel_seen st →
     m < length (nd_data (sel_scores st)) →
     ∃ scores1,
       select_positions (Datatypes.S fuel') (Some vocab) n_plot verbose st
       = select_positions fuel' (Some vocab) n_plot verbose
           (Selection scores1 (sel_seen st) (sel_log st)) ∧
       nd_data scores1 = <[m := PInf]> (nd_data (sel_scores st)) ∧
       nd_data scores1 !! m = Some PInf).
Proof.
  intros Hl Ha Hvocab Hsize Hfuel Hbelow Hlow Hinj Hvoc. split.
  - destruct (select_lowest vocab n_plot verbose n_plot S (Selection scores ∅ []) fuel)
      as (st' & Hrun & Hseen & Hcols & Hrows & Hdt & Hlen & Hinf & Hkeep);
      [done|done|done|done|done|done|set_solver|done|].
    simpl in *.
    exists (World (<[l := sel_scores st']> (arrays w)) (obs w) (nfig w)
                  (trace w ++ sel_log st')),
           (sorted_positions (sel_seen st')), (sel_scores st').
    split_and!.
    + unfold auto_select, bind at 1, uns_lookup. rewrite Hl. unfold ret at 1.
      unfold bind at 1, read_array. rewrite Ha, Hvocab, Hrun. done.
    + apply sorted_positions_spec.
    + intros r. rewrite (proj2 (sorted_positions_spec _)), Hseen. set_unfold.
      split.
      * intros [[]|(i & -> & Hi)]. by exists i.
      * intros (i & Hi & ->). right. by exists i.
    + simpl. apply lookup_insert_eq.
    + done.
    + done.
  - intros fuel' st m aa Hlt Hm Haa Hrow Hmlt.
    exists (set_cell (sel_scores st) (unravel_index m (sel_scores st)) PInf).
    rewrite (select_positions_step fuel' vocab n_plot verbose st m aa) by done.
    rewrite decide_True by done. split_and!.
    + done.
    + apply set_cell_data.
    + rewrite set_cell_data. by apply list_lookup_insert_eq.
Qed.


Lemma auto_select_lowest_witness :
  ∃ w' positions,
    auto_select 5 example_adata 5 true selection_world = (w', Ok positions) ∧
    StronglySorted lt positions ∧
    (∀ r, r ∈ positions ↔ r < 5) ∧
    ∃ scores', arrays w' !! 0 = Some scores' ∧ nd_data scores' !! 8 = Some PInf.
Proof.
  assert (size ({[0; 2; 4; 6; 8]} : gset nat) = 5) as Hsize by (vm_compute; reflexivity).
  destruct (auto_select_lowest example_adata 5 5 true selection_world 0
              selection_scores {[0 := "A"; 1 := "C"]} {[0; 2; 4; 6; 8]}
              eq_refl eq_refl eq_refl Hsize (le_n 5))
    as [(w' & positions & scores' & Hrun & Hsorted & Hrows & Hstored & Hinf & _) _].
  - intros i Hi. by elem_cases Hi.
  - intros i j Hi Hj Hlt. simpl in Hlt.
    assert (j = 1 ∨ j = 3 ∨ j = 5 ∨ j = 7 ∨ j = 9 ∨ j = 10 ∨ j = 11) as Hcases.
    { set_unfold in Hj. lia. }
    clear Hj Hlt. elem_cases Hi; elem_cases Hcases; reflexivity.
  - intros i j Hi Hj. elem_cases Hi; elem_cases Hj; simpl; done.
  - intros i Hi. elem_cases Hi; by eexists.
  - exists w', positions. split_and!; [exact Hrun|exact Hsorted| |].
    + intros r. rewrite Hrows. split.
      * intros (i & Hi & ->). elem_cases Hi; simpl; lia.
      * intros Hr. exists (2 * r). split.
        -- set_unfold. lia.
        -- change (nd_cols selection_scores) with 2. symmetry.
           rewrite Nat.mul_comm. by apply Nat.div_mul.
    + exists scores'. split; [exact Hstored|]. apply Hinf. set_solver.
Defined.

(** ** Fuel *)

Lemma argmin_from_lt (rest : list float) (i : nat) (mp : float) (min_ind : nat) :
  min_ind < i → argmin_from rest i mp min_ind < i + length rest.
Proof.
  revert i mp min_ind. induction rest as [|x rest IH]; intros i mp min_ind Hlt; simpl.
  - lia.
  - destruct (negb (fge x mp)).
    + destruct (isnan x); [lia|]. specialize (IH (S i) x i). lia.
    + specialize (IH (S i) mp min_ind). lia.
Qed.

Lemma np_argmin_ok (cells : list float) :
  cells ≠ [] → ∃ m, np_argmin cells = Ok m ∧ m < length cells.
Proof.
  destruct cells as [|x rest]; [done|]. intros _. simpl. eexists. split; [done|].
  destruct (isnan x); [lia|]. pose proof (argmin_from_lt rest 1 x 0). lia.
Qed.

Lemma np_argmin_fuel (cells : list float) : np_argmin cells ≠ OutOfFuel.
Proof. by destruct cells. Qed.

Lemma select_positions_add (a b : nat) (vocabulary : option (gmap nat string))
    (n_plot : nat) (verbose : bool) (st : selection) :
  select_positions (a + b) vocabulary n_plot verbose st =
  match select_positions a vocabulary n_plot verbose st with
  | (st', OutOfFuel) => select_positions b vocabulary n_plot verbose st'
  | r => r
  end.
Proof.
  revert st. induction a as [|a IH]; intros st.
  - simpl. case_bool_decide as Hlt; [done|].
    by rewrite select_positions_done by lia.
  - simpl. case_bool_decide as Hlt; [|done].
    destruct (np_argmin _) as [m| |] eqn:Harg; [|done|by apply np_argmin_fuel in Harg].
    destruct vocabulary as [vocab|]; [|done].
    destruct (vocab !! _) as [aa|]; [|done].
    case_decide; apply IH.
Qed.

(** A run that has not ended with some fuel has not ended with less. *)
Lemma select_positions_fuel_mono (a b : nat) (vocabulary : option (gmap nat string))
    (n_plot : nat) (verbose : bool) (st : selection) :
  (select_positions (a + b) vocabulary n_plot verbose st).2 = OutOfFuel →
  (select_positions a vocabulary n_plot verbose st).2 = OutOfFuel.
Proof.
  rewrite select_positions_add.
  by destruct (select_positions a vocabulary n_plot verbose st) as [st' [seen|e|]].
Qed.

Lemma argmin_from_all_inf (rest : list float) (i : nat) (min_ind : nat) :
  Forall (fun x => x = PInf) rest → argmin_from rest i PInf min_ind = min_ind.
Proof.
  revert i. induction rest as [|x rest IH]; intros i Hall; [done|].
  apply Forall_cons in Hall as [-> Hall]. simpl. by apply IH.
Qed.

(** Once every cell holds the sentinel, the minimum is found at the first
    cell again and again: with its row recorded, the loop never ends. *)
Lemma all_inf_stuck (vocab : gmap nat string) (n_plot : nat) (verbose : bool)
    (fuel : nat) :
  ∀ st,
    Forall (fun x => x = PInf) (nd_data (sel_scores st)) →
    nd_data (sel_scores st) ≠ [] →
    0 ∈ sel_seen st →
    size (sel_seen st) < n_plot →
    is_Some (vocab !! 0) →
    (select_positions fuel (Some vocab) n_plot verbose st).2 = OutOfFuel.
Proof.
  induction fuel as [|fuel IH]; intros st Hall Hne Hseen Hsize [aa Haa].
  - simpl. by rewrite bool_decide_eq_true_2 by done.
  - assert (np_argmin (nd_data (sel_scores st)) = Ok 0) as Harg.
    { destruct (nd_data (sel_scores st)) as [|x rest]; [done|].
      apply Forall_cons in Hall as [-> Hall]. simpl.
      by rewrite argmin_from_all_inf. }
    rewrite (select_positions_step fuel vocab n_plot verbose st 0 aa); [|done|done|].
    2:{ by rewrite Nat.Div0.mod_0_l. }
    rewrite Nat.Div0.div_0_l. rewrite decide_True by done.
    apply IH; cbn [sel_scores sel_seen sel_log]; try done.
    + rewrite set_cell_data. destruct (nd_data (sel_scores st)); [done|].
      simpl. apply Forall_cons in Hall as [_ Hall]. by constructor.
    + rewrite set_cell_data. by destruct (nd_data (sel_scores st)).
Qed.

Lemma auto_select_result (fuel : nat) (adata : AnnData) (n_plot : nat) (verbose : bool)
    (w : world) (l : nat) (scores : ndarray) :
  uns_array adata !! "residue_scores" = Some l →
  arrays w !! l = Some scores →
  (auto_select fuel adata n_plot verbose w).2 =
  match (select_positions fuel (uns_vocabulary adata !! "onehot_vocabulary")
           n_plot verbose (Selection scores ∅ [])).2 with
  | Ok pos_seen => Ok (sorted_positions pos_seen)
  | Raise e => Raise e
  | OutOfFuel => OutOfFuel
  end.
Proof.
  intros Hl Ha. unfold auto_select, bind at 1, uns_lookup. rewrite Hl. unfold ret at 1.
  unfold bind at 1, read_array. rewrite Ha.
  destruct (select_positions _ _ _ _ _) as [st [seen|e|]]; done.
Qed.

(** C2 as stated fails: the five cells of the five-row matrix below are
    its five lowest cells and stand in five distinct rows, but the last one
    already holds the sentinel; after four selections every cell holds it,
    the minimum is found in row 0 for ever, and the call never returns. *)
Lemma auto_select_sentinel_never_returns :
  size ({[0; 1; 2; 3; 4]} : gset nat) = 5 ∧
  (∀ i j, i ∈ ({[0; 1; 2; 3; 4]} : gset nat) → j ∉ ({[0; 1; 2; 3; 4]} : gset nat) →
          j < length (nd_data consumed_scores) →
          lower (nd_data consumed_scores) i j = true) ∧
  (∀ i j, i ∈ ({[0; 1; 2; 3; 4]} : gset nat) → j ∈ ({[0; 1; 2; 3; 4]} : gset nat) →
          i / nd_cols consumed_scores = j / nd_cols consumed_scores → i = j) ∧
  (∀ fuel, (auto_select fuel example_adata 5 true consumed_world).2 = OutOfFuel).
Proof.
  split_and!.
  - by vm_compute.
  - intros i j Hi Hj Hlt. simpl in Hlt. exfalso. apply Hj. set_unfold. lia.
  - intros i j Hi Hj. change (nd_cols consumed_scores) with 1. by rewrite !Nat.div_1_r.
  - intros fuel.
    rewrite (auto_select_result fuel example_adata 5 true consumed_world 0 consumed_scores)
      by done.
    change (uns_vocabulary example_adata !! "onehot_vocabulary")
      with (Some ({[0 := "A"; 1 := "C"]} : gmap nat string)).
    rewrite (select_positions_fuel_mono fuel 4); [done|].
    rewrite Nat.add_comm, select_positions_add.
    destruct (select_positions 4 _ _ _ _) as [st r] eqn:Hrun.
    vm_compute in Hrun. injection Hrun as <- <-.
    apply all_inf_stuck.
    + by repeat constructor.
    + done.
    + set_solver.
    + by vm_compute.
    + by eexists.
Qed.

(** ** Termination of the scan *)












(** ** The graph built from the difference matrix *)

Lemma csr_triples_spec (T : list (list float)) (u v : nat) :
  (u, v) ∈ csr_triples T ↔ stored_at T u v.
Proof.
  unfold csr_triples, stored_at, cell. rewrite list_elem_of_join. split.
  - intros (l & Huv & Hl).
    apply elem_of_lookup_imap in Hl as (i & row & -> & Hrow).
    apply list_elem_of_omap in Huv as ([j x] & Hjx & Hst).
    apply elem_of_lookup_imap in Hjx as (j' & x' & [= -> ->] & Hx).
    simpl in Hst. destruct (stored x') eqn:Hs; [|done]. injection Hst as <- <-.
    exists x'. rewrite Hrow. simpl. by rewrite Hx.
  - intros (x & Hx & Hs). destruct (T !! u) as [row|] eqn:Hrow; [|done]. simpl in Hx.
    exists (omap (fun jx : nat * float => if stored jx.2 then Some (u, jx.1) else None)
                 (imap pair row)).
    split.
    + apply list_elem_of_omap. exists (v, x). split.
      * by apply (elem_of_lookup_imap_2 pair row x v).
      * simpl. by rewrite Hs.
    + apply elem_of_lookup_imap. by exists u, row.
Qed.

Lemma adj_add_length (u v : nat) (G : nxgraph) : length (adj_add u v G) = length G.
Proof.
  unfold adj_add. destruct (G !! u); [|done]. case_decide; [done|].
  by rewrite length_insert.
Qed.

Lemma adj_add_neighbors (u v : nat) (G : nxgraph) (x y : nat) :
  y ∈ neighbors (adj_add u v G) x ↔
  y ∈ neighbors G x ∨ (x = u ∧ y = v ∧ u < length G).
Proof.
  unfold adj_add, neighbors.
  destruct (G !! u) as [ns|] eqn:Hu.
  - pose proof (lookup_lt_Some _ _ _ Hu) as Hlt. case_decide as Hin.
    + split; [by left|]. intros [?|(-> & -> & _)]; [done|]. by rewrite Hu.
    + destruct (decide (x = u)) as [->|Hne].
      * rewrite list_lookup_insert_eq by done. rewrite Hu. simpl.
        rewrite elem_of_app, list_elem_of_singleton. naive_solver.
      * rewrite list_lookup_insert_ne by done. naive_solver.
  - apply lookup_ge_None in Hu. split; [by left|]. intros [?|(_ & _ & ?)]; [done|lia].
Qed.

Lemma add_edge_length (G : nxgraph) (e : nat * nat) : length (add_edge G e) = length G.
Proof. unfold add_edge. by rewrite !adj_add_length. Qed.

Lemma add_edges_length (es : list (nat * nat)) (G : nxgraph) :
  length (foldl add_edge G es) = length G.
Proof.
  revert G. induction es as [|e es IH]; intros G; simpl; [done|].
  by rewrite IH, add_edge_length.
Qed.

Lemma add_edges_neighbors (es : list (nat * nat)) (G : nxgraph) (x y : nat) :
  (∀ u v, (u, v) ∈ es → u < length G ∧ v < length G) →
  y ∈ neighbors (foldl add_edge G es) x ↔
  y ∈ neighbors G x ∨ (x, y) ∈ es ∨ (y, x) ∈ es.
Proof.
  revert G. induction es as [|[u v] es IH]; intros G Hb; simpl.
  - rewrite !elem_of_nil. tauto.
  - rewrite IH.
    2:{ intros u' v' H. rewrite add_edge_length. apply Hb. apply elem_of_cons. by right. }
    unfold add_edge. simpl. rewrite !adj_add_neighbors, adj_add_length, !elem_of_cons.
    destruct (Hb u v) as [Hu Hv]; [apply elem_of_cons; by left|].
    split.
    + intros [[[?|(-> & -> & _)]|(-> & -> & _)]|[?|?]]; auto.
    + intros [?|[[[= -> ->]|?]|[[= -> ->]|?]]]; auto 10.
Qed.

Lemma is_square_spec (T : list (list float)) :
  is_square T = true → ∀ u v, stored_at T u v → u < length T ∧ v < length T.
Proof.
  unfold is_square. rewrite forallb_forall. intros Hsq u v (x & Hx & _).
  unfold cell in Hx. destruct (T !! u) as [row|] eqn:Hrow; [|done]. simpl in Hx.
  split; [by eapply lookup_lt_Some|].
  specialize (Hsq row). rewrite <- list_elem_of_In in Hsq.
  specialize (Hsq (list_elem_of_lookup_2 _ _ _ Hrow)).
  apply Nat.eqb_eq in Hsq. rewrite <- Hsq. by eapply lookup_lt_Some.
Qed.

Lemma from_scipy_sparse_matrix_spec (T : list (list float)) (G : nxgraph) :
  from_scipy_sparse_matrix T = Ok G →
  length G = length T ∧
  ∀ u v, v ∈ neighbors G u ↔ undirected_edge T u v.
Proof.
  unfold from_scipy_sparse_matrix. destruct (is_square T) eqn:Hsq; [|done].
  intros [= <-]. rewrite add_edges_length, length_replicate. split; [done|].
  intros u v. rewrite add_edges_neighbors.
  - unfold undirected_edge. rewrite !csr_triples_spec.
    assert (v ∉ neighbors (replicate (length T) []) u) as Hempty.
    { unfold neighbors. destruct (replicate _ _ !! u) as [ns|] eqn:Hns; simpl.
      - apply lookup_replicate in Hns as [-> _]. apply not_elem_of_nil.
      - apply not_elem_of_nil. }
    tauto.
  - intros u' v' Huv%csr_triples_spec. rewrite length_replicate.
    by apply is_square_spec.
Qed.

(** ** The bidirectional search *)

Section Search.

Variable G : nxgraph.
Hypothesis G_sym : ∀ u v, v ∈ neighbors G u → u ∈ neighbors G v.
Hypothesis G_bounded : ∀ u v, v ∈ neighbors G u → v < length G.

Lemma chain_mono (m m' : gmap nat (option nat)) (root x k : nat) :
  m ⊆ m' → chain G m root x k → chain G m' root x k.
Proof.
  intros Hsub. induction 1 as [Hroot|x p k Hx Hedge _ IH].
  - constructor. by eapply lookup_weaken.
  - econstructor; [by eapply lookup_weaken|done|done].
Qed.

Lemma chain_det (m : gmap nat (option nat)) (root x k k' : nat) :
  chain G m root x k → chain G m root x k' → k = k'.
Proof.
  intros Hk. revert k'. induction Hk as [Hroot|x p k Hx Hedge _ IH]; intros k' Hk'.
  - inversion Hk' as [|? p' ? Hx']; [done|congruence].
  - inversion Hk' as [Hroot|? p' k'' Hx' _ Hp']; [congruence|].
    subst. rewrite Hx in Hx'. injection Hx' as <-. f_equal. by apply IH.
Qed.

Lemma chain_lookup (m : gmap nat (option nat)) (root x k : nat) :
  chain G m root x k → is_Some (m !! x).
Proof. by destruct 1; eexists. Qed.

Lemma chain_zero (m : gmap nat (option nat)) (root x : nat) :
  chain G m root x 0 → x = root.
Proof. by inversion 1. Qed.

Lemma chain_avoid (m : gmap nat (option nat)) (root x p k k' : nat) :
  chain G m root p k → chain G m root x k' → k < k' →
  chain G (delete x m) root p k.
Proof.
  intros Hp Hx. induction Hp as [Hroot|y q k Hy Hedge Hq IH]; intros Hlt.
  - constructor. rewrite lookup_delete_ne; [done|].
    intros ->. pose proof (chain_det _ _ _ _ _ Hx (chain_root G m root Hroot)). lia.
  - econstructor; [|done|apply IH; lia].
    rewrite lookup_delete_ne; [done|].
    intros ->.
    pose proof (chain_det _ _ _ _ _ Hx (chain_step G m root y q k Hy Hedge Hq)). lia.
Qed.

Lemma chain_size (k : nat) :
  ∀ (m : gmap nat (option nat)) (root x : nat), chain G m root x k → k < size m.
Proof.
  induction k as [|k IH]; intros m root x Hx.
  - apply chain_lookup in Hx as [v Hv].
    pose proof (map_size_ne_0_lookup_2 m x (ltac:(by eexists))). lia.
  - inversion Hx as [|? p ? Hxp Hedge Hp]; subst.
    pose proof (chain_avoid _ _ _ _ _ _ Hp Hx (Nat.lt_succ_diag_r k)) as Hp'.
    apply IH in Hp'. rewrite map_size_delete, Hxp in Hp'. simpl in Hp'. lia.
Qed.

(** Following the dictionary from [x] gives the nodes of its chain. *)
Lemma follow_chain (m : gmap nat (option nat)) (root x k fuel : nat) :
  chain G m root x k → k < fuel →
  ∃ p, follow fuel m (Some x) = Ok p ∧ length p = S k ∧
       head p = Some x ∧ last p = Some root ∧
       walk (fun u v => v ∈ neighbors G u) p.
Proof.
  intros Hx. revert fuel. induction Hx as [Hroot|x q k Hxq Hedge _ IH]; intros fuel Hfuel.
  - destruct fuel as [|fuel]; [lia|]. simpl. rewrite Hroot.
    destruct fuel; simpl; (exists [root]; split_and!; [done..|]);
      by intros [|i] u v Hu Hv.
  - destruct fuel as [|fuel]; [lia|]. simpl. rewrite Hxq.
    destruct (IH fuel) as (p & Hp & Hlen & Hhead & Hlast & Hwalk); [lia|].
    rewrite Hp. exists (x :: p). split_and!; [done|simpl; lia|done| |].
    + destruct p; [done|]. done.
    + intros [|i] u v Hu Hv; simpl in *.
      * injection Hu as <-. rewrite <- head_lookup, Hhead in Hv. injection Hv as <-.
        by apply G_sym.
      * by eapply Hwalk.
Qed.

(** What the inner loop over the neighbours of [v] leaves behind. *)
Lemma visit_nbrs_spec (v : nat) (other : gmap nat (option nat)) (ws : list nat) :
  ∀ (mine : gmap nat (option nat)) (fringe : list nat),
    match visit_nbrs v ws mine other fringe with
    | Next mine' fringe' =>
        mine ⊆ mine' ∧
        (∀ x p, mine !! x = None → mine' !! x = Some p → p = Some v ∧ x ∈ ws) ∧
        (∀ w, w ∈ ws → is_Some (mine' !! w) ∧ other !! w = None) ∧
        (∀ x, x ∈ fringe' ↔ x ∈ fringe ∨ (mine !! x = None ∧ is_Some (mine' !! x)))
    | Found w mine' =>
        mine ⊆ mine' ∧
        (∀ x p, mine !! x = None → mine' !! x = Some p → p = Some v ∧ x ∈ ws) ∧
        is_Some (mine' !! w) ∧ is_Some (other !! w)
    end.
Proof.
  induction ws as [|w ws IH]; intros mine fringe; simpl.
  - split_and!; [done| |by intros ? ?%elem_of_nil|].
    + intros x p Hnone Hsome. congruence.
    + intros x. split; [by left|]. intros [?|[Hn [? ?]]]; [done|congruence].
  - set (mine1 := if mine !! w is None then <[w := Some v]> mine else mine).
    set (fringe1 := if mine !! w is None then fringe ++ [w] else fringe).
    assert (mine ⊆ mine1) as Hsub1.
    { subst mine1. destruct (mine !! w) eqn:Hw; [done|]. by apply insert_subseteq. }
    assert (∀ x p, mine !! x = None → mine1 !! x = Some p → p = Some v ∧ x = w) as Hnew1.
    { subst mine1. intros x p Hnone. destruct (mine !! w) eqn:Hw; [congruence|].
      destruct (decide (x = w)) as [->|Hne].
      - rewrite lookup_insert_eq. by intros [= <-].
      - rewrite lookup_insert_ne by done. congruence. }
    assert (is_Some (mine1 !! w)) as Hw1.
    { subst mine1. destruct (mine !! w) eqn:Hw; [by eexists|].
      rewrite lookup_insert_eq. by eexists. }
    assert (∀ x, x ∈ fringe1 ↔ x ∈ fringe ∨ (mine !! x = None ∧ is_Some (mine1 !! x)))
      as Hfr1.
    { subst fringe1 mine1. intros x. destruct (mine !! w) eqn:Hw.
      - split; [by left|]. intros [?|[Hn [? ?]]]; [done|congruence].
      - rewrite elem_of_app, list_elem_of_singleton. split.
        + intros [?| ->]; [by left|]. right. split; [done|].
          rewrite lookup_insert_eq. by eexists.
        + intros [?|[Hn [p Hp]]]; [by left|]. right.
          destruct (decide (x = w)) as [|Hne]; [done|].
          rewrite lookup_insert_ne in Hp by done. congruence. }
    destruct (other !! w) as [o|] eqn:Ho.
    + split_and!; [done| |done|by eexists].
      intros x p Hnone Hsome. destruct (Hnew1 x p Hnone Hsome) as [-> ->].
      split; [done|]. apply elem_of_cons. by left.
    + specialize (IH mine1 fringe1).
      destruct (visit_nbrs v ws mine1 other fringe1) as [w' mine'|mine' fringe'].
      * destruct IH as (Hsub & Hnew & Hw' & Ho').
        split_and!; [by etrans| |done|done].
        intros x p Hnone Hsome.
        destruct (mine1 !! x) as [p1|] eqn:Hx1.
        -- pose proof (lookup_weaken _ _ _ _ Hx1 Hsub) as Hx'.
           rewrite Hsome in Hx'. injection Hx' as ->.
           destruct (Hnew1 x p1 Hnone Hx1) as [-> ->].
           split; [done|]. apply elem_of_cons. by left.
        -- destruct (Hnew x p Hx1 Hsome) as [-> ?].
           split; [done|]. apply elem_of_cons. by right.
      * destruct IH as (Hsub & Hnew & Hall & Hfr).
        split_and!; [by etrans| | |].
        -- intros x p Hnone Hsome.
           destruct (mine1 !! x) as [p1|] eqn:Hx1.
           ++ pose proof (lookup_weaken _ _ _ _ Hx1 Hsub) as Hx'.
              rewrite Hsome in Hx'. injection Hx' as ->.
              destruct (Hnew1 x p1 Hnone Hx1) as [-> ->].
              split; [done|]. apply elem_of_cons. by left.
           ++ destruct (Hnew x p Hx1 Hsome) as [-> ?].
              split; [done|]. apply elem_of_cons. by right.
        -- intros w0 [->|Hin]%elem_of_cons; [|by apply Hall].
           split; [|done]. destruct Hw1 as [p Hp].
           exists p. by eapply lookup_weaken.
        -- intros x. rewrite Hfr, Hfr1. split.
           ++ intros [[?|[Hn [p Hp]]]|[Hn1 Hs]]; [by left| |].
              ** right. split; [done|]. exists p. by eapply lookup_weaken.
              ** right. split; [|done].
                 destruct (mine !! x) eqn:Hx; [|done].
                 pose proof (lookup_weaken _ _ _ _ Hx Hsub1). congruence.
           ++ intros [?|[Hn Hs]]; [left; by left|].
              destruct (mine1 !! x) as [p1|] eqn:Hx1.
              ** left. right. split; [done|by eexists].
              ** right. done.
Qed.

(** What one level of the search leaves behind. *)
Lemma visit_level_spec (other : gmap nat (option nat)) (level : list nat) :
  ∀ (mine : gmap nat (option nat)) (fringe : list nat),
    match visit_level G level mine other fringe with
    | Next mine' fringe' =>
        grown G level mine mine' ∧
        (∀ v y, v ∈ level → y ∈ neighbors G v → is_Some (mine' !! y)) ∧
        (∀ x, mine !! x = None → is_Some (mine' !! x) → other !! x = None) ∧
        (∀ x, x ∈ fringe' ↔ x ∈ fringe ∨ (mine !! x = None ∧ is_Some (mine' !! x)))
    | Found w mine' =>
        grown G level mine mine' ∧ is_Some (mine' !! w) ∧ is_Some (other !! w)
    end.
Proof.
  induction level as [|v level IH]; intros mine fringe; simpl.
  - split_and!.
    + split; [done|]. intros x p Hn Hs. congruence.
    + by intros v y ?%elem_of_nil.
    + intros x Hn [p Hp]. congruence.
    + intros x. split; [by left|]. intros [?|[Hn [? ?]]]; [done|congruence].
  - pose proof (visit_nbrs_spec v other (neighbors G v) mine fringe) as Hv.
    destruct (visit_nbrs v (neighbors G v) mine other fringe) as [w mine1|mine1 fringe1].
    + destruct Hv as (Hsub & Hnew & Hw & Ho). split_and!; [|done|done].
      split; [done|]. intros x p Hn Hs. destruct (Hnew x p Hn Hs) as [-> Hin].
      exists v. split_and!; [done|apply elem_of_cons; by left|done].
    + destruct Hv as (Hsub1 & Hnew1 & Hall1 & Hfr1).
      specialize (IH mine1 fringe1).
      assert (∀ mine', mine1 ⊆ mine' → grown G level mine1 mine' →
                       grown G (v :: level) mine mine') as Hgrow.
      { intros mine' Hsub [_ Hnew]. split; [by etrans|].
        intros x p Hn Hs. destruct (mine1 !! x) as [p1|] eqn:Hx1.
        - pose proof (lookup_weaken _ _ _ _ Hx1 Hsub) as Hx'.
          rewrite Hs in Hx'. injection Hx' as ->.
          destruct (Hnew1 x p1 Hn Hx1) as [-> Hin].
          exists v. split_and!; [done|apply elem_of_cons; by left|done].
        - destruct (Hnew x p Hx1 Hs) as (v' & -> & Hv' & Hin).
          exists v'. split_and!; [done|apply elem_of_cons; by right|done]. }
      destruct (visit_level G level mine1 other fringe1) as [w mine'|mine' fringe'].
      * destruct IH as (Hg & Hw & Ho). split_and!; [|done|done].
        apply Hgrow; [apply Hg|done].
      * destruct IH as (Hg & Hall & Hother & Hfr).
        pose proof Hg as [Hsub _].
        split_and!; [by apply Hgrow| | |].
        -- intros v' y [->|Hin]%elem_of_cons Hy; [|by eapply Hall].
           destruct (Hall1 y Hy) as [[p Hp] _]. exists p. by eapply lookup_weaken.
        -- intros x Hn Hs. destruct (mine1 !! x) as [p1|] eqn:Hx1.
           ++ destruct (Hnew1 x p1 Hn Hx1) as [_ Hin]. by apply Hall1.
           ++ by apply Hother.
        -- intros x. rewrite Hfr, Hfr1. split.
           ++ intros [[?|[Hn [p Hp]]]|[Hn1 Hs]]; [by left| |].
              ** right. split; [done|]. exists p. by eapply lookup_weaken.
              ** right. split; [|done].
                 destruct (mine !! x) eqn:Hx; [|done].
                 pose proof (lookup_weaken _ _ _ _ Hx Hsub1). congruence.
           ++ intros [?|[Hn Hs]]; [left; by left|].
              destruct (mine1 !! x) as [p1|] eqn:Hx1.
              ** left. right. split; [done|by eexists].
              ** right. done.
Qed.

Lemma grown_tree (level : list nat) (mine mine' : gmap nat (option nat))
    (root d : nat) :
  side_inv G mine root d level → grown G level mine mine' →
  ∀ x, is_Some (mine' !! x) →
       ∃ k, k ≤ S d ∧ chain G mine' root x k ∧ (mine !! x = None → k = S d).
Proof.
  intros (Htree & _ & Hlevel & _) [Hsub Hnew] x [p Hp].
  destruct (mine !! x) as [p0|] eqn:Hx.
  - destruct (Htree x) as (k & Hk & Hchain); [by eexists|].
    exists k. split_and!; [lia|by eapply chain_mono|done].
  - destruct (Hnew x p Hx Hp) as (v & -> & Hv & Hedge).
    apply Hlevel in Hv. exists (S d). split_and!; [done| |done].
    econstructor; [done|done|by eapply chain_mono].
Qed.

Lemma side_inv_grow (level fringe' : list nat) (mine mine' : gmap nat (option nat))
    (root d : nat) :
  side_inv G mine root d level → grown G level mine mine' →
  (∀ v y, v ∈ level → y ∈ neighbors G v → is_Some (mine' !! y)) →
  (∀ x, x ∈ fringe' ↔ mine !! x = None ∧ is_Some (mine' !! x)) →
  side_inv G mine' root (S d) fringe'.
Proof.
  intros Hinv Hgrown Hall Hfr.
  pose proof (grown_tree level mine mine' root d Hinv Hgrown) as Htree'.
  destruct Hinv as (Htree & Hclosed & Hlevel & Hbound & Hroot).
  pose proof Hgrown as [Hsub Hnew].
  split_and!.
  - intros x Hx. destruct (Htree' x Hx) as (k & ? & ? & _). by exists k.
  - intros x k y Hchain Hk Hy.
    destruct (Htree' x (chain_lookup _ _ _ _ Hchain)) as (k0 & Hk0 & Hchain0 & Hnew0).
    assert (k0 = k) as -> by by eapply chain_det.
    destruct (mine !! x) as [p|] eqn:Hx; [|specialize (Hnew0 eq_refl); lia].
    destruct (Htree x) as (k1 & Hk1 & Hchain1); [by eexists|].
    assert (k1 = k) as ->.
    { eapply chain_det; [|exact Hchain]. by eapply chain_mono. }
    destruct (decide (k < d)) as [Hlt|Hge].
    + destruct (Hclosed x k y Hchain1 Hlt Hy) as (k' & Hk' & Hchain').
      exists k'. split; [done|]. by eapply chain_mono.
    + assert (k = d) as -> by lia.
      apply Hlevel in Hchain1.
      destruct (Htree' y (Hall x y Hchain1 Hy)) as (k' & Hk' & Hchain' & _).
      by exists k'.
  - intros x. rewrite Hfr. split.
    + intros [Hn Hs]. destruct (Htree' x Hs) as (k & _ & Hchain & Hk).
      by rewrite <- (Hk Hn).
    + intros Hchain. split; [|by eapply chain_lookup].
      destruct (mine !! x) as [p|] eqn:Hx; [|done].
      destruct (Htree x) as (k & Hk & Hchain0); [by eexists|].
      pose proof (chain_det _ _ _ _ _ Hchain (chain_mono _ _ _ _ _ Hsub Hchain0)). lia.
  - intros x [p Hp]. destruct (mine !! x) as [p0|] eqn:Hx.
    + apply Hbound. by eexists.
    + destruct (Hnew x p Hx Hp) as (v & _ & _ & Hedge). by eapply G_bounded.
  - by eapply lookup_weaken.
Qed.

Lemma walk_reverse (q : list nat) :
  walk (fun u v => v ∈ neighbors G u) q →
  walk (fun u v => v ∈ neighbors G u) (reverse q).
Proof.
  intros Hwalk i u v Hu Hv.
  pose proof (lookup_lt_Some _ _ _ Hv) as Hlt. rewrite length_reverse in Hlt.
  rewrite reverse_lookup in Hu, Hv by lia.
  apply G_sym. apply (Hwalk (length q - S (S i)) v u); [done|].
  by replace (S (length q - S (S i))) with (length q - S i) by lia.
Qed.

Lemma walk_app (p1 p2 : list nat) :
  walk (fun u v => v ∈ neighbors G u) p1 →
  walk (fun u v => v ∈ neighbors G u) p2 →
  (∀ a b, last p1 = Some a → head p2 = Some b → b ∈ neighbors G a) →
  walk (fun u v => v ∈ neighbors G u) (p1 ++ p2).
Proof.
  intros H1 H2 Hjoin i u v Hu Hv.
  destruct (decide (S i < length p1)) as [Hlt|Hge].
  - rewrite lookup_app_l in Hu, Hv by lia. by eapply H1.
  - destruct (decide (i < length p1)) as [Hi|Hi].
    + rewrite lookup_app_l in Hu by lia. rewrite lookup_app_r in Hv by lia.
      assert (i = pred (length p1)) as -> by lia.
      rewrite <- last_lookup in Hu.
      replace (S (pred (length p1)) - length p1) with 0 in Hv by lia.
      rewrite <- head_lookup in Hv. by apply Hjoin.
    + rewrite lookup_app_r in Hu, Hv by lia.
      apply (H2 (i - length p1) u v); [done|].
      by replace (S (i - length p1)) with (S i - length p1) by lia.
Qed.

(** Along a walk from the root, the first [d] nodes are in the dictionary,
    no deeper than their place in the walk. *)
Lemma walk_prefix (m : gmap nat (option nat)) (root d : nat) (fringe q : list nat) :
  side_inv G m root d fringe →
  walk (fun u v => v ∈ neighbors G u) q → head q = Some root →
  ∀ i x, i ≤ d → q !! i = Some x → ∃ k, k ≤ i ∧ chain G m root x k.
Proof.
  intros (Htree & Hclosed & Hlevel & Hbound & Hroot) Hwalk Hhead.
  induction i as [|i IH]; intros x Hi Hx.
  - rewrite <- head_lookup, Hhead in Hx. injection Hx as <-.
    exists 0. split; [done|]. by constructor.
  - destruct (lookup_lt_is_Some_2 q i) as [x' Hx'].
    { apply lookup_lt_Some in Hx. lia. }
    destruct (IH x') as (k & Hk & Hchain); [lia|done|].
    destruct (Hclosed x' k x Hchain) as (k' & Hk' & Hchain'); [lia|by eapply Hwalk|].
    exists k'. split; [lia|done].
Qed.

(** When a fringe is empty the whole walk stays in the dictionary. *)
Lemma walk_closed (m : gmap nat (option nat)) (root d : nat) (q : list nat) :
  side_inv G m root d [] →
  walk (fun u v => v ∈ neighbors G u) q → head q = Some root →
  ∀ i x, q !! i = Some x → is_Some (m !! x).
Proof.
  intros (Htree & Hclosed & Hlevel & Hbound & Hroot) Hwalk Hhead.
  induction i as [|i IH]; intros x Hx.
  - rewrite <- head_lookup, Hhead in Hx. injection Hx as <-. by eexists.
  - destruct (lookup_lt_is_Some_2 q i) as [x' Hx'].
    { apply lookup_lt_Some in Hx. lia. }
    destruct (Htree x' (IH x' Hx')) as (k & Hk & Hchain).
    assert (k ≠ d) as Hne.
    { intros ->. apply Hlevel in Hchain. by apply elem_of_nil in Hchain. }
    destruct (Hclosed x' k x Hchain) as (k' & Hk' & Hchain'); [lia|by eapply Hwalk|].
    by eapply chain_lookup.
Qed.

Lemma walk_between_reverse (s t : nat) (q : list nat) :
  walk_between (fun u v => v ∈ neighbors G u) s t q →
  walk_between (fun u v => v ∈ neighbors G u) t s (reverse q).
Proof.
  intros (Hhead & Hlast & Hwalk). split_and!.
  - by rewrite head_reverse.
  - by rewrite last_reverse.
  - by apply walk_reverse.
Qed.

(** Between two levels, with the two dictionaries disjoint, every walk
    from [s] to [t] has more than [df + dr + 1] nodes. *)
Lemma walk_lower_bound (pred succ : gmap nat (option nat)) (s t df dr : nat)
    (ff rf q : list nat) :
  side_inv G pred s df ff → side_inv G succ t dr rf →
  (∀ x, is_Some (pred !! x) → succ !! x = None) →
  walk_between (fun u v => v ∈ neighbors G u) s t q →
  df + dr + 2 ≤ length q.
Proof.
  intros Hpred Hsucc Hdisj Hq.
  pose proof (walk_between_reverse s t q Hq) as (Hrhead & _ & Hrwalk).
  destruct Hq as (Hhead & Hlast & Hwalk).
  destruct (decide (df + dr + 2 ≤ length q)) as [|Hshort]; [done|]. exfalso.
  assert (0 < length q) as Hpos.
  { destruct q; [done|simpl; lia]. }
  set (i := Nat.min (length q - 1) df).
  destruct (lookup_lt_is_Some_2 q i) as [x Hx]; [lia|].
  destruct (walk_prefix pred s df ff q Hpred Hwalk Hhead i x) as (k & _ & Hchain);
    [lia|done|].
  destruct (walk_prefix succ t dr rf (reverse q) Hsucc Hrwalk Hrhead
              (length q - S i) x) as (k' & _ & Hchain'); [lia| |].
  { rewrite reverse_lookup by lia. rewrite <- Hx. f_equal. lia. }
  apply chain_lookup in Hchain, Hchain'.
  rewrite (Hdisj x Hchain) in Hchain'. by destruct Hchain'.
Qed.

Lemma disjoint_sizes (pred succ : gmap nat (option nat)) :
  (∀ x, is_Some (pred !! x) → succ !! x = None) →
  (∀ x, is_Some (pred !! x) → x < length G) →
  (∀ x, is_Some (succ !! x) → x < length G) →
  size pred + size succ ≤ length G.
Proof.
  intros Hdisj Hp Hs.
  rewrite <- !size_dom, <- (size_set_seq (C := gset nat) 0 (length G)).
  rewrite <- size_union.
  - apply subseteq_size. intros x [Hx|Hx]%elem_of_union; apply elem_of_dom in Hx;
      apply elem_of_set_seq; [specialize (Hp x Hx)|specialize (Hs x Hx)]; lia.
  - intros x Hx%elem_of_dom Hx'%elem_of_dom. rewrite (Hdisj x Hx) in Hx'. by destruct Hx'.
Qed.

Lemma grown_size (mine mine' : gmap nat (option nat)) (x : nat) :
  mine ⊆ mine' → mine !! x = None → is_Some (mine' !! x) → size mine < size mine'.
Proof.
  intros Hsub Hn [p Hp]. apply map_subset_size. split; [done|].
  intros Hsub'. pose proof (lookup_weaken _ _ _ _ Hp Hsub'). congruence.
Qed.

(** The search loop between two levels: it ends, with a meeting node on a
    shortest walk or with the news that there is no walk. *)
Lemma bidirectional_loop_spec (s t : nat) (fuel : nat) :
  ∀ (pred succ : gmap nat (option nat)) (ff rf : list nat) (df dr : nat),
    side_inv G pred s df ff → side_inv G succ t dr rf →
    (∀ x, is_Some (pred !! x) → succ !! x = None) →
    length G + 2 ≤ fuel + size pred + size succ →
    match bidirectional_loop fuel G pred succ ff rf with
    | Ok (pred', succ', w) =>
        ∃ kf kr, chain G pred' s w kf ∧ chain G succ' t w kr ∧
                 ∀ q, walk_between (fun u v => v ∈ neighbors G u) s t q →
                      kf + kr + 1 ≤ length q
    | Raise e =>
        e = NetworkXNoPath ∧
        ∀ q, ¬ walk_between (fun u v => v ∈ neighbors G u) s t q
    | OutOfFuel => False
    end.
Proof.
  induction fuel as [|fuel IH]; intros pred succ ff rf df dr Hpred Hsucc Hdisj Hfuel.
  { pose proof (disjoint_sizes pred succ Hdisj) as Hsz.
    destruct Hpred as (_ & _ & _ & Hbp & _), Hsucc as (_ & _ & _ & Hbs & _).
    specialize (Hsz Hbp Hbs). lia. }
  assert (∀ x, is_Some (succ !! x) → pred !! x = None) as Hdisj'.
  { intros x Hx. destruct (pred !! x) eqn:Hp; [|done].
    rewrite Hdisj in Hx by by eexists. by destruct Hx. }
  assert (ff = [] → ∀ q, ¬ walk_between (fun u v => v ∈ neighbors G u) s t q) as Hff.
  { intros -> q (Hhead & Hlast & Hwalk).
    assert (0 < length q) as Hpos by (destruct q; [done|simpl; lia]).
    rewrite last_lookup in Hlast.
    pose proof (walk_closed pred s df q Hpred Hwalk Hhead _ _ Hlast) as Ht.
    apply Hdisj in Ht. destruct Hsucc as (_ & _ & _ & _ & Hroot). congruence. }
  assert (rf = [] → ∀ q, ¬ walk_between (fun u v => v ∈ neighbors G u) s t q) as Hrf.
  { intros -> q Hq. apply walk_between_reverse in Hq as (Hhead & Hlast & Hwalk).
    rewrite last_lookup in Hlast.
    pose proof (walk_closed succ t dr _ Hsucc Hwalk Hhead _ _ Hlast) as Hs.
    apply Hdisj' in Hs. destruct Hpred as (_ & _ & _ & _ & Hroot). congruence. }
  simpl.
  destruct ff as [|v ff]; [by split; [|apply Hff]|].
  destruct rf as [|u rf]; [by split; [|apply Hrf]|].
  clear Hff Hrf.
  case_bool_decide as Hcmp.
  - pose proof (visit_level_spec succ (v :: ff) pred []) as Hvisit.
    destruct (visit_level G (v :: ff) pred succ []) as [w pred'|pred' ff'].
    + destruct Hvisit as (Hgrown & Hw & Hw').
      destruct (grown_tree _ _ _ _ _ Hpred Hgrown w Hw) as (kf & Hkf & Hchain & _).
      destruct Hsucc as (Htree & Hrest).
      destruct (Htree w Hw') as (kr & Hkr & Hchain').
      exists kf, kr. split_and!; [done..|].
      intros q Hq.
      pose proof (walk_lower_bound pred succ s t df dr _ _ q Hpred
                    (conj Htree Hrest) Hdisj Hq). lia.
    + destruct Hvisit as (Hgrown & Hall & Hother & Hfr).
      assert (side_inv G pred' s (S df) ff') as Hpred'.
      { eapply side_inv_grow; [done..|]. intros x. rewrite Hfr, elem_of_nil. tauto. }
      assert (∀ x, is_Some (pred' !! x) → succ !! x = None) as Hdisj1.
      { intros x Hx. destruct (pred !! x) eqn:Hp; [apply Hdisj; by eexists|].
        by apply Hother. }
      destruct ff' as [|x ff'].
      * pose proof (disjoint_sizes pred succ Hdisj) as Hsz.
        destruct Hpred as (_ & _ & _ & Hbp & _).
        pose proof Hsucc as (_ & _ & _ & Hbs & _).
        specialize (Hsz Hbp Hbs).
        destruct fuel as [|fuel]; [lia|]. simpl. split; [done|].
        intros q (Hhead & Hlast & Hwalk).
        rewrite last_lookup in Hlast.
        pose proof (walk_closed pred' s (S df) q Hpred' Hwalk Hhead _ _ Hlast) as Ht.
        apply Hdisj1 in Ht. destruct Hsucc as (_ & _ & _ & _ & Hroot). congruence.
      * apply (IH pred' succ (x :: ff') (u :: rf) (S df) dr); [done..|].
        assert (x ∈ x :: ff') as Hx by (apply elem_of_cons; by left).
        apply Hfr in Hx as [[]%elem_of_nil|[Hn Hs]].
        destruct Hgrown as [Hsub _].
        pose proof (grown_size pred pred' x Hsub Hn Hs). lia.
  - pose proof (visit_level_spec pred (u :: rf) succ []) as Hvisit.
    destruct (visit_level G (u :: rf) succ pred []) as [w succ'|succ' rf'].
    + destruct Hvisit as (Hgrown & Hw & Hw').
      destruct (grown_tree _ _ _ _ _ Hsucc Hgrown w Hw) as (kr & Hkr & Hchain & _).
      destruct Hpred as (Htree & Hrest).
      destruct (Htree w Hw') as (kf & Hkf & Hchain').
      exists kf, kr. split_and!; [done..|].
      intros q Hq.
      pose proof (walk_lower_bound pred succ s t df dr _ _ q (conj Htree Hrest)
                    Hsucc Hdisj Hq). lia.
    + destruct Hvisit as (Hgrown & Hall & Hother & Hfr).
      assert (side_inv G succ' t (S dr) rf') as Hsucc'.
      { eapply side_inv_grow; [done..|]. intros x. rewrite Hfr, elem_of_nil. tauto. }
      assert (∀ x, is_Some (pred !! x) → succ' !! x = None) as Hdisj1.
      { intros x Hx. destruct (succ' !! x) as [p|] eqn:Hs'; [|done].
        destruct (succ !! x) as [p0|] eqn:Hs.
        - rewrite Hdisj in Hs by done. done.
        - rewrite Hother in Hx; [by destruct Hx|done|by eexists]. }
      destruct rf' as [|x rf'].
      * pose proof (disjoint_sizes pred succ Hdisj) as Hsz.
        pose proof Hpred as (_ & _ & _ & Hbp & _).
        destruct Hsucc as (_ & _ & _ & Hbs & _).
        specialize (Hsz Hbp Hbs).
        destruct fuel as [|fuel]; [lia|]. simpl. split; [done|].
        intros q Hq. apply walk_between_reverse in Hq as (Hhead & Hlast & Hwalk).
        rewrite last_lookup in Hlast.
        pose proof (walk_closed succ' t (S dr) _ Hsucc' Hwalk Hhead _ _ Hlast) as Hs.
        destruct (pred !! s) as [p|] eqn:Hps.
        -- rewrite Hdisj1 in Hs by by eexists. by destruct Hs.
        -- destruct Hpred as (_ & _ & _ & _ & Hroot). congruence.
      * apply (IH pred succ' (v :: ff) (x :: rf') df (S dr)); [done..|].
        assert (x ∈ x :: rf') as Hx by (apply elem_of_cons; by left).
        apply Hfr in Hx as [[]%elem_of_nil|[Hn Hs]].
        destruct Hgrown as [Hsub _].
        pose proof (grown_size succ succ' x Hsub Hn Hs). lia.
Qed.

Lemma side_inv_init (root : nat) :
  root < length G → side_inv G {[root := None]} root 0 [root].
Proof.
  intros Hroot. split_and!.
  - intros x [p Hp]. apply lookup_singleton_Some in Hp as [<- <-].
    exists 0. split; [done|]. constructor. apply lookup_singleton_eq.
  - intros x k y _ Hk. lia.
  - intros x. rewrite list_elem_of_singleton. split.
    + intros ->. constructor. apply lookup_singleton_eq.
    + apply chain_zero.
  - intros x [p Hp]. by apply lookup_singleton_Some in Hp as [<- <-].
  - apply lookup_singleton_eq.
Qed.

(** [nx.shortest_path] on the graph: a shortest walk if there is a walk,
    and [NetworkXNoPath] if there is none. *)
Lemma nx_shortest_path_spec (s t : nat) :
  s < length G → t < length G →
  match nx_shortest_path G s t with
  | Ok p =>
      walk_between (fun u v => v ∈ neighbors G u) s t p ∧
      ∀ q, walk_between (fun u v => v ∈ neighbors G u) s t q → length p ≤ length q
  | Raise e =>
      e = NetworkXNoPath ∧
      ∀ q, ¬ walk_between (fun u v => v ∈ neighbors G u) s t q
  | OutOfFuel => False
  end.
Proof.
  intros Hs Ht. unfold nx_shortest_path, bidirectional_shortest_path.
  rewrite bool_decide_eq_true_2 by done.
  unfold bidirectional_pred_succ. destruct (decide (t = s)) as [->|Hne].
  - rewrite map_size_singleton. simpl. rewrite !lookup_singleton_eq. simpl.
    split.
    + split_and!; [done..|]. by intros [|i] u v Hu Hv.
    + intros q (Hhead & _). destruct q; [done|simpl; lia].
  - pose proof (bidirectional_loop_spec s t (2 * length G + 1)
                  {[s := None]} {[t := None]} [s] [t] 0 0
                  (side_inv_init s Hs) (side_inv_init t Ht)) as Hloop.
    destruct (bidirectional_loop _ _ _ _ _ _) as [[[pred succ] w]|e|].
    + destruct Hloop as (kf & kr & Hchain & Hchain' & Hmin).
      { intros x [p Hp]. apply lookup_singleton_Some in Hp as [<- <-].
        by apply lookup_singleton_ne. }
      { rewrite !map_size_singleton. lia. }
      destruct (follow_chain pred s w kf (S (size pred)) Hchain)
        as (back & -> & Hlen & Hhead & Hlast & Hwalk).
      { pose proof (chain_size _ _ _ _ Hchain). lia. }
      inversion Hchain' as [Hroot|? p kr' Hwp Hedge Hp]; subst.
      * rewrite Hroot. simpl. rewrite app_nil_r. split.
        -- split_and!; [by rewrite head_reverse|by rewrite last_reverse|].
           by apply walk_reverse.
        -- intros q Hq. specialize (Hmin q Hq). rewrite length_reverse. lia.
      * rewrite Hwp.
        destruct (follow_chain succ t p kr' (S (size succ)) Hp)
          as (rest & -> & Hlen' & Hhead' & Hlast' & Hwalk').
        { pose proof (chain_size _ _ _ _ Hp). lia. }
        split.
        -- split_and!.
           ++ rewrite head_app. rewrite head_reverse, Hlast. done.
           ++ rewrite last_app, Hlast'. done.
           ++ apply walk_app; [by apply walk_reverse|done|].
              intros a b Ha Hb. rewrite last_reverse, Hhead in Ha.
              rewrite Hhead' in Hb. injection Ha as <-. injection Hb as <-.
              by apply G_sym.
        -- intros q Hq. specialize (Hmin q Hq).
           rewrite length_app, length_reverse. lia.
    + apply Hloop.
      * intros x [p Hp]. apply lookup_singleton_Some in Hp as [<- <-].
        by apply lookup_singleton_ne.
      * rewrite !map_size_singleton. lia.
    + apply Hloop.
      * intros x [p Hp]. apply lookup_singleton_Some in Hp as [<- <-].
        by apply lookup_singleton_ne.
      * rewrite !map_size_singleton. lia.
Qed.

End Search.

Lemma walk_between_iff (E E' : nat → nat → Prop) (s t : nat) (p : list nat) :
  (∀ u v, E u v → E' u v) → walk_between E s t p → walk_between E' s t p.
Proof.
  intros Himpl (Hhead & Hlast & Hwalk). split_and!; [done..|].
  intros i u v Hu Hv. apply Himpl. by eapply Hwalk.
Qed.

(** C1, as the code has it. On a dataset that passes the neighbor-graph
    check and holds both transition graphs, with a square difference
    [T = graph - graph_neg] and two of its nodes, [shortest_path] returns
    a sequence of nodes from the source to the target whose consecutive
    nodes are joined by an edge of the undirected graph of [T] (an entry of
    [T] in either direction), with as few nodes as any such sequence,
    whenever there is one; and it raises [NetworkXNoPath] when there is
    none. *)
Theorem shortest_path_undirected (adata : AnnData) (s t : nat) (vkey : string)
    (w : world) (pos neg T : list (list float)) :
  neighbors_ok adata →
  uns_graph adata !! (vkey +:+ "_graph") = Some pos →
  uns_graph adata !! (vkey +:+ "_graph_neg") = Some neg →
  sparse_sub pos neg = Ok T →
  is_square T = true →
  s < length T → t < length T →
  ((∃ q, walk_between (undirected_edge T) s t q) →
   ∃ w' path,
     shortest_path adata s t vkey w = (w', Ok path) ∧
     walk_between (undirected_edge T) s t path ∧
     ∀ q, walk_between (undirected_edge T) s t q → length path ≤ length q) ∧
  ((∀ q, ¬ walk_between (undirected_edge T) s t q) →
   ∃ w', shortest_path adata s t vkey w = (w', Raise NetworkXNoPath)).
Proof.
  intros [Hne Hall] Hpos Hneg HT Hsq Hs Ht.
  pose proof (shortest_path_cases adata s t vkey w) as Hcases.
  pose proof (fewest_positive_zero (get_neighs adata "distances")) as Hzero.
  destruct (np_min_nat _) as [fewest|e|] eqn:Hmin; [| |done].
  2:{ by destruct (get_neighs adata "distances"). }
  specialize (Hzero fewest eq_refl).
  destruct (decide (fewest = 0)) as [Hf|Hf].
  { apply Hzero in Hf as (row & Hrow & Hnp).
    rewrite Forall_forall in Hall. by destruct (Hall row Hrow). }
  rewrite Hpos, Hneg, HT in Hcases.
  destruct (from_scipy_sparse_matrix T) as [G| |] eqn:HG.
  2,3: unfold from_scipy_sparse_matrix in HG; by rewrite Hsq in HG.
  apply from_scipy_sparse_matrix_spec in HG as [Hlen Hedges].
  assert (∀ u v, v ∈ neighbors G u → u ∈ neighbors G v) as Hsym.
  { intros u v. rewrite !Hedges. unfold undirected_edge. tauto. }
  assert (∀ u v, v ∈ neighbors G u → v < length G) as Hbound.
  { intros u v. rewrite Hedges, Hlen.
    intros [H|H]; apply (is_square_spec T Hsq) in H; tauto. }
  pose proof (nx_shortest_path_spec G Hsym Hbound s t) as Hnx.
  rewrite Hlen in Hnx. specialize (Hnx Hs Ht).
  rewrite Hcases. clear Hcases.
  destruct (nx_shortest_path G s t) as [path|e|]; [| |done].
  - destruct Hnx as [Hwalk Hshort]. split.
    + intros _. eexists _, path. split_and!; [done| |].
      * eapply walk_between_iff; [|exact Hwalk]. intros u v. by rewrite Hedges.
      * intros q Hq. apply Hshort. eapply walk_between_iff; [|exact Hq].
        intros u v. by rewrite Hedges.
    + intros Hnone. exfalso. apply (Hnone path).
      eapply walk_between_iff; [|exact Hwalk]. intros u v. by rewrite Hedges.
  - destruct Hnx as [-> Hnone]. split.
    + intros [q Hq]. exfalso. apply (Hnone q).
      eapply walk_between_iff; [|exact Hq]. intros u v. by rewrite Hedges.
    + intros _. by eexists.
Qed.

Lemma shortest_path_undirected_witness :
  ∃ w' path,
    shortest_path example_adata 1 0 "velocity" example_world = (w', Ok path) ∧
    head path = Some 1 ∧ last path = Some 0 ∧ length path ≤ 2.
Proof.
  assert (neighbors_ok example_adata) as Hok.
  { split; [done|]. repeat constructor; intros H.
    - apply Forall_cons in H as [_ H]. by apply Forall_cons in H as [H _].
    - by apply Forall_cons in H as [H _].
    - apply Forall_cons in H as [_ H]. by apply Forall_cons in H as [H _]. }
  assert (walk_between
            (undirected_edge [[Fin 0; Fin 0; Fin 0]; [Fin 1; Fin 0; Fin 0];
                              [Fin 0; Fin 0; Fin 0]]) 1 0 [1; 0]) as Hwalk.
  { split_and!; [done..|]. intros [|[|i]] u v [= <-] [= <-].
    unfold undirected_edge, stored_at. left. by exists (Fin 1). }
  destruct (shortest_path_undirected example_adata 1 0 "velocity" example_world
              _ _ [[Fin 0; Fin 0; Fin 0]; [Fin 1; Fin 0; Fin 0]; [Fin 0; Fin 0; Fin 0]]
              Hok eq_refl eq_refl eq_refl eq_refl)
    as [Hfound _]; [simpl; lia|simpl; lia|].
  destruct Hfound as (w' & path & Hrun & (Hhead & Hlast & _) & Hmin);
    [by eexists|].
  exists w', path. split_and!; [done..|]. by apply (Hmin [1; 0]).
Defined.

(** C1 as stated fails: the only entry of the difference matrix of the
    example dataset is [(1, 0)], so the directed graph has the one edge
    from 1 to 0; yet the resolver answers a path from 0 to 1 (networkx
    builds an undirected graph), whose one step is no edge of that
    directed graph. *)
Lemma shortest_path_against_direction :
  neighbors_ok example_adata ∧
  sparse_sub [[nat_cell 0; nat_cell 0; nat_cell 0]; [nat_cell 1; nat_cell 0; nat_cell 0];
              [nat_cell 0; nat_cell 0; nat_cell 0]]
             [[nat_cell 0; nat_cell 0; nat_cell 0]; [nat_cell 0; nat_cell 0; nat_cell 0];
              [nat_cell 0; nat_cell 0; nat_cell 0]]
    = Ok [[Fin 0; Fin 0; Fin 0]; [Fin 1; Fin 0; Fin 0]; [Fin 0; Fin 0; Fin 0]] ∧
  (shortest_path example_adata 0 1 "velocity" example_world).2 = Ok [0; 1] ∧
  ¬ stored_at [[Fin 0; Fin 0; Fin 0]; [Fin 1; Fin 0; Fin 0]; [Fin 0; Fin 0; Fin 0]] 0 1.
Proof.
  split_and!.
  - split; [done|]. repeat constructor; intros H.
    + apply Forall_cons in H as [_ H]. by apply Forall_cons in H as [H _].
    + by apply Forall_cons in H as [H _].
    + apply Forall_cons in H as [_ H]. by apply Forall_cons in H as [H _].
  - reflexivity.
  - reflexivity.
  - intros (x & Hx & Hst). by injection Hx as <-.
Qed.

(** * Further properties *)

(** ** More of the path resolver *)

Lemma example_neighbors_ok : neighbors_ok example_adata.
Proof.
  split; [done|]. repeat constructor; intros H.
  - apply Forall_cons in H as [_ H]. by apply Forall_cons in H as [H _].
  - by apply Forall_cons in H as [H _].
  - apply Forall_cons in H as [_ H]. by apply Forall_cons in H as [H _].
Qed.

(** Past its checks, [shortest_path] is the search on the undirected graph
    of the difference matrix. *)
Lemma shortest_path_run (adata : AnnData) (s t : nat) (vkey : string)
    (w : world) (pos neg T : list (list float)) :
  neighbors_ok adata →
  uns_graph adata !! (vkey +:+ "_graph") = Some pos →
  uns_graph adata !! (vkey +:+ "_graph_neg") = Some neg →
  sparse_sub pos neg = Ok T →
  is_square T = true →
  ∃ G, length G = length T ∧
       (∀ u v, v ∈ neighbors G u ↔ undirected_edge T u v) ∧
       shortest_path adata s t vkey w
       = (World (arrays w) (obs w) (nfig w) (trace w ++ [SparseSub; NxGraph (length T)]),
          nx_shortest_path G s t).
Proof.
  intros [Hne Hall] Hpos Hneg HT Hsq.
  pose proof (shortest_path_cases adata s t vkey w) as Hcases.
  pose proof (fewest_positive_zero (get_neighs adata "distances")) as Hzero.
  destruct (np_min_nat _) as [fewest|e|] eqn:Hmin; [| |done].
  2:{ by destruct (get_neighs adata "distances"). }
  specialize (Hzero fewest eq_refl).
  destruct (decide (fewest = 0)) as [Hf|Hf].
  { apply Hzero in Hf as (row & Hrow & Hnp).
    rewrite Forall_forall in Hall. by destruct (Hall row Hrow). }
  rewrite Hpos, Hneg, HT in Hcases.
  destruct (from_scipy_sparse_matrix T) as [G| |] eqn:HG.
  2,3: unfold from_scipy_sparse_matrix in HG; by rewrite Hsq in HG.
  apply from_scipy_sparse_matrix_spec in HG as [Hlen Hedges].
  exists G. rewrite Hlen in Hcases. done.
Qed.

(** The search on the graph of a square matrix, in terms of the matrix. *)
Lemma nx_shortest_path_matrix (T : list (list float)) (G : nxgraph) (s t : nat) :
  is_square T = true →
  length G = length T →
  (∀ u v, v ∈ neighbors G u ↔ undirected_edge T u v) →
  s < length T → t < length T →
  match nx_shortest_path G s t with
  | Ok p =>
      walk_between (undirected_edge T) s t p ∧
      ∀ q, walk_between (undirected_edge T) s t q → length p ≤ length q
  | Raise e =>
      e = NetworkXNoPath ∧ ∀ q, ¬ walk_between (undirected_edge T) s t q
  | OutOfFuel => False
  end.
Proof.
  intros Hsq Hlen Hedges Hs Ht.
  assert (∀ u v, v ∈ neighbors G u → u ∈ neighbors G v) as Hsym.
  { intros u v. rewrite !Hedges. unfold undirected_edge. tauto. }
  assert (∀ u v, v ∈ neighbors G u → v < length G) as Hbound.
  { intros u v. rewrite Hedges, Hlen.
    intros [H|H]; apply (is_square_spec T Hsq) in H; tauto. }
  pose proof (nx_shortest_path_spec G Hsym Hbound s t) as Hnx.
  rewrite Hlen in Hnx. specialize (Hnx Hs Ht).
  destruct (nx_shortest_path G s t) as [path|e|]; [| |done].
  - destruct Hnx as [Hwalk Hshort]. split.
    + eapply walk_between_iff; [|exact Hwalk]. intros u v. by rewrite Hedges.
    + intros q Hq. apply Hshort. eapply walk_between_iff; [|exact Hq].
      intros u v. by rewrite Hedges.
  - destruct Hnx as [-> Hnone]. split; [done|].
    intros q Hq. apply (Hnone q).
    eapply walk_between_iff; [|exact Hq]. intros u v. by rewrite Hedges.
Qed.

Lemma nx_shortest_path_not_found (G : nxgraph) (s t : nat) :
  length G ≤ s ∨ length G ≤ t → nx_shortest_path G s t = Raise NodeNotFound.
Proof.
  intros H. unfold nx_shortest_path, bidirectional_shortest_path.
  rewrite bool_decide_eq_false_2; [done|]. lia.
Qed.

(** X3. A source or target that is not an observation of the dataset is
    refused by networkx with [NodeNotFound], after the graph was built. *)
Theorem shortest_path_node_not_found (adata : AnnData) (s t : nat) (vkey : string)
    (w : world) (pos neg T : list (list float)) :
  neighbors_ok adata →
  uns_graph adata !! (vkey +:+ "_graph") = Some pos →
  uns_graph adata !! (vkey +:+ "_graph_neg") = Some neg →
  sparse_sub pos neg = Ok T →
  is_square T = true →
  length T ≤ s ∨ length T ≤ t →
  shortest_path adata s t vkey w
  = (World (arrays w) (obs w) (nfig w) (trace w ++ [SparseSub; NxGraph (length T)]),
     Raise NodeNotFound).
Proof.
  intros Hok Hpos Hneg HT Hsq Hout.
  destruct (shortest_path_run adata s t vkey w pos neg T) as (G & Hlen & _ & ->);
    [done..|].
  f_equal. apply nx_shortest_path_not_found. by rewrite Hlen.
Qed.

Lemma shortest_path_node_not_found_witness :
  shortest_path example_adata 0 3 "velocity" example_world
  = (World (arrays example_world) (obs example_world) 0 [SparseSub; NxGraph 3],
     Raise NodeNotFound).
Proof.
  apply (shortest_path_node_not_found example_adata 0 3 "velocity" example_world
           _ _ [[Fin 0; Fin 0; Fin 0]; [Fin 1; Fin 0; Fin 0]; [Fin 0; Fin 0; Fin 0]]
           example_neighbors_ok eq_refl eq_refl eq_refl eq_refl).
  right. simpl. lia.
Defined.

(** X4. Transition graphs of different shapes are refused by the subtraction,
    and a difference that is not square by networkx, in both cases before
    any search. *)
Theorem shortest_path_shape_errors (adata : AnnData) (s t : nat) (vkey : string)
    (w : world) (pos neg : list (list float)) :
  neighbors_ok adata →
  uns_graph adata !! (vkey +:+ "_graph") = Some pos →
  uns_graph adata !! (vkey +:+ "_graph_neg") = Some neg →
  (length <$> pos ≠ length <$> neg →
   shortest_path adata s t vkey w = (w, Raise NumpyValueError)) ∧
  (length <$> pos = length <$> neg →
   is_square (zip_with (zip_with fsub) pos neg) = false →
   shortest_path adata s t vkey w
   = (World (arrays w) (obs w) (nfig w) (trace w ++ [SparseSub]), Raise NetworkXError)).
Proof.
  intros [Hne Hall] Hpos Hneg.
  pose proof (shortest_path_cases adata s t vkey w) as Hcases.
  pose proof (fewest_positive_zero (get_neighs adata "distances")) as Hzero.
  destruct (np_min_nat _) as [fewest|e|] eqn:Hmin; [| |done].
  2:{ by destruct (get_neighs adata "distances"). }
  specialize (Hzero fewest eq_refl).
  destruct (decide (fewest = 0)) as [Hf|Hf].
  { apply Hzero in Hf as (row & Hrow & Hnp).
    rewrite Forall_forall in Hall. by destruct (Hall row Hrow). }
  rewrite Hpos, Hneg in Hcases. unfold sparse_sub, from_scipy_sparse_matrix in Hcases.
  split.
  - intros Hshape. by rewrite decide_False in Hcases.
  - intros Hshape Hsq. rewrite decide_True in Hcases by done. by rewrite Hsq in Hcases.
Qed.

Lemma shortest_path_shape_errors_witness :
  shortest_path misshapen_adata 0 1 "velocity" example_world
    = (example_world, Raise NumpyValueError) ∧
  shortest_path oblong_adata 0 1 "velocity" example_world
    = (World (arrays example_world) (obs example_world) 0 [SparseSub], Raise NetworkXError).
Proof.
  split.
  - by apply (proj1 (shortest_path_shape_errors misshapen_adata 0 1 "velocity" example_world
                       _ _ example_neighbors_ok eq_refl eq_refl)).
  - by apply (proj2 (shortest_path_shape_errors oblong_adata 0 1 "velocity" example_world
                       _ _ example_neighbors_ok eq_refl eq_refl)).
Defined.

(** A walk that is as short as any between its ends visits no node twice. *)
Lemma shortest_walk_NoDup (E : nat → nat → Prop) (t : nat) (p : list nat) :
  ∀ s, walk_between E s t p →
       (∀ q, walk_between E s t q → length p ≤ length q) →
       NoDup p.
Proof.
  induction p as [|x rest IH]; intros s (Hhead & Hlast & Hwalk) Hmin; [constructor|].
  injection Hhead as ->.
  assert (∀ l, walk E (s :: l) → walk E l) as Htail.
  { intros l Hl i u v Hu Hv. by apply (Hl (S i)). }
  constructor.
  - intros Hin. apply list_elem_of_split in Hin as (l1 & l2 & ->).
    assert (walk_between E s t (s :: l2)) as Hshort.
    { split_and!; [done| |].
      - change (s :: l1 ++ s :: l2) with ((s :: l1) ++ s :: l2) in Hlast.
        rewrite last_app in Hlast.
        destruct (last (s :: l2)) eqn:Hl2; [done|]. by apply last_None in Hl2.
      - intros i u v Hu Hv. apply (Hwalk (S (length l1) + i)).
        + change (s :: l1 ++ s :: l2) with ((s :: l1) ++ s :: l2).
          rewrite lookup_app_r by (simpl; lia).
          replace (S (length l1) + i - length (s :: l1)) with i by (simpl; lia). done.
        + change (s :: l1 ++ s :: l2) with ((s :: l1) ++ s :: l2).
          rewrite lookup_app_r by (simpl; lia).
          replace (S (S (length l1) + i) - length (s :: l1)) with (S i) by (simpl; lia).
          done. }
    apply Hmin in Hshort. simpl in Hshort. rewrite length_app in Hshort. simpl in Hshort. lia.
  - destruct rest as [|y rest']; [constructor|].
    apply (IH y).
    + split_and!; [done|exact Hlast|by apply Htail].
    + intros q (Hqh & Hql & Hqw).
      assert (walk_between E s t (s :: q)) as Hq.
      { split_and!; [done| |].
        - rewrite last_cons. by rewrite Hql.
        - intros [|i] u v Hu Hv.
          + injection Hu as <-. simpl in Hv. destruct q as [|y' q']; [done|].
            injection Hqh as ->. injection Hv as <-.
            by apply (Hwalk 0).
          + by apply (Hqw i). }
      apply Hmin in Hq. simpl in *. lia.
Qed.

Lemma walk_between_bounded (T : list (list float)) (s t : nat) (p : list nat) :
  is_square T = true → s < length T →
  walk_between (undirected_edge T) s t p →
  Forall (fun v => v < length T) p.
Proof.
  intros Hsq Hs (Hhead & _ & Hwalk). apply Forall_lookup. intros [|i] v Hv.
  - destruct p; [done|]. simpl in *. congruence.
  - destruct (lookup_lt_is_Some_2 p i) as [u Hu].
    { apply lookup_lt_Some in Hv. lia. }
    destruct (Hwalk i u v Hu Hv) as [H|H]; apply (is_square_spec T Hsq) in H; tauto.
Qed.

(** X5. The path [shortest_path] returns runs from the source to the target,
    visits no node twice, and holds only observations of the dataset. *)
Theorem shortest_path_simple (adata : AnnData) (s t : nat) (vkey : string)
    (w w' : world) (pos neg T : list (list float)) (path : list nat) :
  neighbors_ok adata →
  uns_graph adata !! (vkey +:+ "_graph") = Some pos →
  uns_graph adata !! (vkey +:+ "_graph_neg") = Some neg →
  sparse_sub pos neg = Ok T →
  is_square T = true →
  shortest_path adata s t vkey w = (w', Ok path) →
  head path = Some s ∧ last path = Some t ∧ NoDup path ∧
  Forall (fun v => v < length T) path.
Proof.
  intros Hok Hpos Hneg HT Hsq.
  destruct (shortest_path_run adata s t vkey w pos neg T) as (G & Hlen & Hedges & ->);
    [done..|].
  intros [= _ Hrun].
  destruct (decide (s < length T ∧ t < length T)) as [[Hs Ht]|Hout].
  2:{ rewrite nx_shortest_path_not_found in Hrun; [done|]. lia. }
  pose proof (nx_shortest_path_matrix T G s t Hsq Hlen Hedges Hs Ht) as Hnx.
  rewrite Hrun in Hnx. destruct Hnx as [Hwalk Hmin].
  split_and!; [apply Hwalk..| |].
  - by eapply shortest_walk_NoDup.
  - by apply (walk_between_bounded T s t).
Qed.

Lemma shortest_path_simple_witness :
  ∃ path, (shortest_path example_adata 0 1 "velocity" example_world).2 = Ok path ∧
          NoDup path ∧ Forall (fun v => v < 3) path.
Proof.
  destruct (shortest_path_simple example_adata 0 1 "velocity" example_world
              (shortest_path example_adata 0 1 "velocity" example_world).1
              _ _ [[Fin 0; Fin 0; Fin 0]; [Fin 1; Fin 0; Fin 0]; [Fin 0; Fin 0; Fin 0]]
              [0; 1]
              example_neighbors_ok eq_refl eq_refl eq_refl eq_refl eq_refl)
    as (_ & _ & Hnd & Hall).
  by exists [0; 1].
Defined.

Lemma undirected_walk_reverse (T : list (list float)) (s t : nat) (q : list nat) :
  walk_between (undirected_edge T) s t q →
  walk_between (undirected_edge T) t s (reverse q).
Proof.
  intros (Hhead & Hlast & Hwalk). split_and!.
  - by rewrite head_reverse.
  - by rewrite last_reverse.
  - intros i u v Hu Hv.
    rewrite reverse_lookup_Some in Hu, Hv. destruct Hu as [Hu Hi], Hv as [Hv Hi'].
    assert (undirected_edge T v u) as [H|H]; [|by right|by left].
    apply (Hwalk (length q - S (S i))); [done|].
    replace (S (length q - S (S i))) with (length q - S i) by lia. done.
Qed.

(** X6. The answer does not depend on the direction asked for: from the source
    to the target and from the target to the source [shortest_path] finds
    paths of the same number of nodes, or fails with the same error. *)
Theorem shortest_path_symmetric (adata : AnnData) (s t : nat) (vkey : string)
    (w : world) (pos neg T : list (list float)) :
  neighbors_ok adata →
  uns_graph adata !! (vkey +:+ "_graph") = Some pos →
  uns_graph adata !! (vkey +:+ "_graph_neg") = Some neg →
  sparse_sub pos neg = Ok T →
  is_square T = true →
  match (shortest_path adata s t vkey w).2, (shortest_path adata t s vkey w).2 with
  | Ok p, Ok q => length p = length q
  | Raise e, Raise e' => e = e'
  | _, _ => False
  end.
Proof.
  intros Hok Hpos Hneg HT Hsq.
  destruct (shortest_path_run adata s t vkey w pos neg T) as (G & Hlen & Hedges & ->);
    [done..|].
  destruct (shortest_path_run adata t s vkey w pos neg T) as (G' & Hlen' & Hedges' & ->);
    [done..|].
  simpl.
  destruct (decide (s < length T ∧ t < length T)) as [[Hs Ht]|Hout].
  2:{ rewrite !nx_shortest_path_not_found by lia. done. }
  pose proof (nx_shortest_path_matrix T G s t Hsq Hlen Hedges Hs Ht) as Hst.
  pose proof (nx_shortest_path_matrix T G' t s Hsq Hlen' Hedges' Ht Hs) as Hts.
  destruct (nx_shortest_path G s t) as [p|e|], (nx_shortest_path G' t s) as [q|e'|];
    try done.
  - destruct Hst as [Hp Hpmin], Hts as [Hq Hqmin].
    apply undirected_walk_reverse in Hp as Hp', Hq as Hq'.
    apply Hpmin in Hq'. apply Hqmin in Hp'. rewrite length_reverse in *. lia.
  - destruct Hst as [Hp _], Hts as [_ Hnone].
    by apply undirected_walk_reverse, Hnone in Hp.
  - destruct Hst as [_ Hnone], Hts as [Hq _].
    by apply undirected_walk_reverse, Hnone in Hq.
  - destruct Hst as [-> _], Hts as [-> _]. done.
Qed.

Lemma shortest_path_symmetric_witness :
  ∃ p q, (shortest_path example_adata 0 1 "velocity" example_world).2 = Ok p ∧
         (shortest_path example_adata 1 0 "velocity" example_world).2 = Ok q ∧
         length p = length q.
Proof.
  pose proof (shortest_path_symmetric example_adata 0 1 "velocity" example_world
                _ _ [[Fin 0; Fin 0; Fin 0]; [Fin 1; Fin 0; Fin 0]; [Fin 0; Fin 0; Fin 0]]
                example_neighbors_ok eq_refl eq_refl eq_refl eq_refl) as H.
  by exists [0; 1], [1; 0].
Defined.

(** ** More of the path renderer *)

Lemma after_nil (w : world) : after w [] = w.
Proof. unfold after. rewrite app_nil_r. by destruct w. Qed.

Lemma after_after (w : world) (l1 l2 : list event) :
  after (after w l1) l2 = after w (l1 ++ l2).
Proof. unfold after. simpl. by rewrite app_assoc. Qed.

Lemma draw_path_unfold (adata : AnnData) (path : option (list nat))
    (s t : option nat) (basis vkey : string) (ax : option nat)
    (color : string) (size : float) (edgecolor linecolor : string)
    (linewidth : float) :
  draw_path adata path s t basis vkey ax color size edgecolor linecolor linewidth =
  match path, s, t with
  | Some p, _, _ =>
      let! a := match ax with Some a => ret a | None => new_figure None end in
      render_path adata p basis a color size edgecolor linecolor linewidth
  | None, Some s, Some t =>
      let! p := shortest_path adata s t vkey in
      let! a := match ax with Some a => ret a | None => new_figure None end in
      render_path adata p basis a color size edgecolor linecolor linewidth
  | None, _, _ => raise missing_path_arguments
  end.
Proof. by destruct path, s, t. Qed.

Lemma take_column_ok (X : list (list float)) (path : list nat) (col : nat) :
  Forall (fun v => is_Some (cell X v col)) path ↔ ∃ xs, take_column X path col = Ok xs.
Proof.
  unfold take_column.
  pose proof (mapM_is_Some (fun i => X !! i ≫= (.!! col)) path) as H.
  unfold cell. rewrite <- H. destruct (mapM _ path) as [l|]; split.
  - intros _. by exists l.
  - intros _. by eexists.
  - by intros [? ?].
  - by intros [? ?].
Qed.

Lemma take_column_raises (X : list (list float)) (path : list nat) (col : nat) :
  ¬ Forall (fun v => is_Some (cell X v col)) path →
  take_column X path col = Raise IndexError.
Proof.
  rewrite take_column_ok. unfold take_column.
  destruct (mapM _ path); [|done]. intros []. by eexists.
Qed.

(** The drawing itself, when every node of the path has its two
    coordinates. *)
Lemma render_path_ok (adata : AnnData) (p : list nat) (basis : string) (a : nat)
    (color : string) (size : float) (edgecolor linecolor : string)
    (linewidth : float) (w : world) (X : list (list float)) (xs ys : list float) :
  obsm adata !! ("X_" +:+ basis) = Some X →
  take_column X p 0 = Ok xs → take_column X p 1 = Ok ys →
  ∃ arrows,
    render_path adata p basis a color size edgecolor linecolor linewidth w
    = (after w (arrows ++ [Scatter a xs ys size color edgecolor 10]), Ok a) ∧
    length arrows = length p - 1 ∧
    Forall (fun e => path_event e = true) arrows ∧
    ∀ i, i < length p - 1 → arrows !! i = segment a xs ys linewidth linecolor i.
Proof.
  intros HX Hxs Hys. unfold render_path. rewrite HX.
  unfold bind at 1, lift at 1. rewrite Hxs.
  unfold bind at 1, lift at 1. rewrite Hys.
  pose proof (take_column_length _ _ _ _ Hxs) as Hlx.
  pose proof (take_column_length _ _ _ _ Hys) as Hly.
  destruct (draw_arrows_spec a xs ys linewidth linecolor (zip xs ys) 0 w)
    as (arrows & Hrun & Hcount & Hseg); [lia|done|].
  exists arrows. unfold bind at 1. rewrite Hrun. unfold bind, emit, ret, after. simpl.
  split_and!.
  - by rewrite <- app_assoc.
  - lia.
  - apply Forall_lookup. intros i e He.
    rewrite Hseg in He by (by eapply lookup_lt_Some).
    unfold segment in He. by simplify_option_eq.
  - intros i Hi. apply Hseg. lia.
Qed.

(** Whatever it comes to, the drawing only adds arrows and a scatter
    layer to the trace. *)
Lemma render_path_frame (adata : AnnData) (p : list nat) (basis : string) (a : nat)
    (color : string) (size : float) (edgecolor linecolor : string)
    (linewidth : float) (w : world) :
  ∃ events,
    (render_path adata p basis a color size edgecolor linecolor linewidth w).1
      = after w events ∧
    Forall (fun e => path_event e = true) events ∧
    match (render_path adata p basis a color size edgecolor linecolor linewidth w).2 with
    | Ok a' => a' = a
    | Raise e => events = [] ∧ (e = missing_basis basis ∨ e = IndexError)
    | OutOfFuel => False
    end.
Proof.
  destruct (obsm adata !! ("X_" +:+ basis)) as [X|] eqn:HX.
  2:{ exists []. unfold render_path. rewrite HX. simpl. rewrite after_nil.
      split; [done|]. split; [constructor|]. split; [done|by left]. }
  destruct (take_column X p 0) as [xs|e|] eqn:Hxs.
  2:{ exists []. unfold render_path. rewrite HX. unfold bind at 1, lift at 1. rewrite Hxs.
      simpl. rewrite after_nil. split; [done|]. split; [constructor|]. split; [done|right].
      unfold take_column in Hxs. destruct (mapM _ _); congruence. }
  2:{ unfold take_column in Hxs. by destruct (mapM _ _). }
  destruct (take_column X p 1) as [ys|e|] eqn:Hys.
  2:{ exists []. unfold render_path. rewrite HX. unfold bind at 1, lift at 1. rewrite Hxs.
      unfold bind at 1, lift at 1. rewrite Hys.
      simpl. rewrite after_nil. split; [done|]. split; [constructor|]. split; [done|right].
      unfold take_column in Hys. destruct (mapM _ _); congruence. }
  2:{ unfold take_column in Hys. by destruct (mapM _ _). }
  destruct (render_path_ok adata p basis a color size edgecolor linecolor linewidth w
              X xs ys HX Hxs Hys) as (arrows & -> & _ & Harrows & _).
  eexists. split_and!; [done| |done].
  apply Forall_app. split; [done|]. by repeat constructor.
Qed.

Lemma shortest_path_frame (adata : AnnData) (s t : nat) (vkey : string) (w : world) :
  ∃ events, (shortest_path adata s t vkey w).1 = after w events ∧
            Forall (fun e => path_event e = true) events.
Proof.
  pose proof (shortest_path_cases adata s t vkey w) as Hcases.
  destruct (np_min_nat _) as [fewest|e|]; [| |done].
  2:{ exists []. rewrite Hcases. by rewrite after_nil. }
  destruct (decide (fewest = 0)). { exists []. rewrite Hcases. by rewrite after_nil. }
  destruct (uns_graph adata !! (vkey +:+ "_graph")) as [pos|].
  2:{ exists []. rewrite Hcases. by rewrite after_nil. }
  destruct (uns_graph adata !! (vkey +:+ "_graph_neg")) as [neg|].
  2:{ exists []. rewrite Hcases. by rewrite after_nil. }
  destruct (sparse_sub pos neg) as [T| |].
  2,3: exists []; rewrite Hcases; by rewrite after_nil.
  destruct (from_scipy_sparse_matrix T) as [G| |].
  2,3: exists [SparseSub]; rewrite Hcases; split; [done|by repeat constructor].
  exists [SparseSub; NxGraph (length G)]. rewrite Hcases. split; [done|by repeat constructor].
Qed.

(** X7. [draw_path] never writes to the dataset's arrays or to its
    observation columns; it opens no figure when a drawing surface is
    handed in and at most one otherwise; every call it makes is one of the
    resolver's, a figure, an arrow or a scatter layer; and what it returns
    is the surface handed in or else the surface of the figure it opened. *)
Theorem draw_path_frame (adata : AnnData) (path : option (list nat))
    (s t : option nat) (basis vkey : string) (ax : option nat)
    (color : string) (size : float) (edgecolor linecolor : string)
    (linewidth : float) (w w' : world) (r : result nat) :
  draw_path adata path s t basis vkey ax color size edgecolor linecolor linewidth w
    = (w', r) →
  ∃ events,
    trace w' = trace w ++ events ∧
    Forall (fun e => path_event e = true) events ∧
    arrays w' = arrays w ∧ obs w' = obs w ∧
    match ax, r with
    | Some a0, Ok a => a = a0 ∧ nfig w' = nfig w
    | Some _, _ => nfig w' = nfig w
    | None, Ok a => a = S (nfig w) ∧ nfig w' = S (nfig w)
    | None, _ => nfig w' ≤ S (nfig w)
    end.
Proof.
  assert (∀ p pre,
    Forall (fun e => path_event e = true) pre →
    (let! a := match ax with Some a => ret a | None => new_figure None end in
     render_path adata p basis a color size edgecolor linecolor linewidth) (after w pre)
      = (w', r) →
    ∃ events,
      trace w' = trace w ++ events ∧
      Forall (fun e => path_event e = true) events ∧
      arrays w' = arrays w ∧ obs w' = obs w ∧
      match ax, r with
      | Some a0, Ok a => a = a0 ∧ nfig w' = nfig w
      | Some _, _ => nfig w' = nfig w
      | None, Ok a => a = S (nfig w) ∧ nfig w' = S (nfig w)
      | None, _ => nfig w' ≤ S (nfig w)
      end) as Hrest.
  { intros p pre Hpre. unfold bind at 1.
    destruct ax as [a0|]; simpl.
    - intros Hrun.
      destruct (render_path_frame adata p basis a0 color size edgecolor linecolor
                  linewidth (after w pre)) as (events & Hw & Hev & Hr).
      rewrite Hrun in Hw, Hr. simpl in Hw, Hr. subst w'.
      exists (pre ++ events). simpl. rewrite app_assoc.
      split_and!; [done|by apply Forall_app|done..|].
      by destruct r.
    - intros Hrun.
      destruct (render_path_frame adata p basis (S (nfig w)) color size edgecolor linecolor
                  linewidth (with_figure (after w pre) None)) as (events & Hw & Hev & Hr).
      unfold with_figure in Hw, Hr. simpl in Hw, Hr.
      rewrite Hrun in Hw, Hr. simpl in Hw, Hr. subst w'.
      exists (pre ++ [Figure (S (nfig w)) None] ++ events). simpl.
      split_and!; [by rewrite <- !app_assoc| |done..|].
      + apply Forall_app. split; [done|]. by apply Forall_cons.
      + destruct r; [done|lia|done]. }
  rewrite draw_path_unfold.
  destruct path as [p|].
  - intros Hrun. apply (Hrest p []); [constructor|]. by rewrite after_nil.
  - destruct s as [s|], t as [t|].
    2-4: intros [= <- <-]; exists []; rewrite app_nil_r;
         (split_and!; [done|by apply Forall_nil|done..|]); destruct ax; lia.
    destruct (shortest_path_frame adata s t vkey w) as (pre & Hw1 & Hpre).
    unfold bind at 1.
    destruct (shortest_path adata s t vkey w) as [w1 [p|e|]]; simpl in Hw1; subst w1.
    + intros Hrun. by apply (Hrest p pre).
    + intros [= <- <-]. exists pre. split_and!; [done..|]. destruct ax; simpl; lia.
    + intros [= <- <-]. exists pre. split_and!; [done..|]. destruct ax; simpl; lia.
Qed.

Lemma draw_path_frame_witness :
  ∃ w' events,
    draw_path example_adata None (Some 0) (Some 1) "umap" "velocity" None
              "white" (Fin 15) "black" "#888888" (Fin (1 # 1000)) example_world
      = (w', Ok 1) ∧
    trace w' = events ∧ Forall (fun e => path_event e = true) events ∧
    arrays w' = arrays example_world ∧ nfig w' = 1.
Proof.
  destruct (draw_path_frame example_adata None (Some 0) (Some 1) "umap" "velocity" None
              "white" (Fin 15) "black" "#888888" (Fin (1 # 1000)) example_world
              (draw_path example_adata None (Some 0) (Some 1) "umap" "velocity" None
                 "white" (Fin 15) "black" "#888888" (Fin (1 # 1000)) example_world).1
              (Ok 1) eq_refl)
    as (events & Htrace & Hev & Harr & _ & _ & Hfig).
  eexists _, events. split_and!; [reflexivity|exact Htrace|exact Hev|exact Harr|exact Hfig].
Defined.

(** X8. Asked for two observations that the transition graph connects, on a
    dataset whose embedding has two coordinates for every observation,
    [draw_path] succeeds: it resolves a shortest path between them and
    draws it, with one arrow for every step of the path. *)
Theorem draw_path_between (adata : AnnData) (s t : nat) (basis vkey : string)
    (ax : option nat) (color : string) (size : float) (edgecolor linecolor : string)
    (linewidth : float) (w : world) (pos neg T X : list (list float)) (q : list nat) :
  neighbors_ok adata →
  uns_graph adata !! (vkey +:+ "_graph") = Some pos →
  uns_graph adata !! (vkey +:+ "_graph_neg") = Some neg →
  sparse_sub pos neg = Ok T →
  is_square T = true →
  s < length T → t < length T →
  walk_between (undirected_edge T) s t q →
  obsm adata !! ("X_" +:+ basis) = Some X →
  (∀ v, v < length T → is_Some (cell X v 0) ∧ is_Some (cell X v 1)) →
  ∃ w' a path xs ys arrows,
    draw_path adata None (Some s) (Some t) basis vkey ax
              color size edgecolor linecolor linewidth w = (w', Ok a) ∧
    walk_between (undirected_edge T) s t path ∧
    length path ≤ length q ∧
    take_column X path 0 = Ok xs ∧ take_column X path 1 = Ok ys ∧
    length arrows = length path - 1 ∧
    (∀ i, i < length path - 1 → arrows !! i = segment a xs ys linewidth linecolor i) ∧
    trace w' = trace w ++ [SparseSub; NxGraph (length T)]
                 ++ (if ax is None then [Figure a None] else [])
                 ++ arrows ++ [Scatter a xs ys size color edgecolor 10].
Proof.
  intros Hok Hpos Hneg HT Hsq Hs Ht Hq HX Hcells.
  destruct (shortest_path_run adata s t vkey w pos neg T) as (G & Hlen & Hedges & Hrun);
    [done..|].
  pose proof (nx_shortest_path_matrix T G s t Hsq Hlen Hedges Hs Ht) as Hnx.
  destruct (nx_shortest_path G s t) as [path|e|]; [| |done].
  2:{ destruct Hnx as [_ Hnone]. by apply Hnone in Hq. }
  destruct Hnx as [Hwalk Hmin].
  pose proof (walk_between_bounded T s t path Hsq Hs Hwalk) as Hbound.
  destruct (proj1 (take_column_ok X path 0)) as [xs Hxs].
  { eapply Forall_impl; [exact Hbound|]. intros v Hv. by apply Hcells. }
  destruct (proj1 (take_column_ok X path 1)) as [ys Hys].
  { eapply Forall_impl; [exact Hbound|]. intros v Hv. by apply Hcells. }
  rewrite draw_path_unfold. unfold bind at 1. rewrite Hrun. unfold bind at 1.
  destruct ax as [a0|]; simpl.
  - destruct (render_path_ok adata path basis a0 color size edgecolor linecolor linewidth
                (World (arrays w) (obs w) (nfig w) (trace w ++ [SparseSub; NxGraph (length T)]))
                X xs ys HX Hxs Hys) as (arrows & -> & Hcount & _ & Hseg).
    eexists _, a0, path, xs, ys, arrows.
    split_and!; [done|done|by apply Hmin|done..|].
    simpl. by rewrite <- !app_assoc.
  - destruct (render_path_ok adata path basis (S (nfig w)) color size edgecolor linecolor
                linewidth
                (World (arrays w) (obs w) (S (nfig w))
                   ((trace w ++ [SparseSub; NxGraph (length T)]) ++ [Figure (S (nfig w)) None]))
                X xs ys HX Hxs Hys) as (arrows & -> & Hcount & _ & Hseg).
    eexists _, (S (nfig w)), path, xs, ys, arrows.
    split_and!; [done|done|by apply Hmin|done..|].
    simpl. by rewrite <- !app_assoc.
Qed.

Lemma draw_path_between_witness :
  ∃ (w' : world) (path : list nat) (arrows : list event),
    draw_path example_adata None (Some 0) (Some 1) "umap" "velocity" None
              "white" (Fin 15) "black" "#888888" (Fin (1 # 1000)) example_world
      = (w', Ok 1) ∧
    length path ≤ 2 ∧ length arrows = length path - 1.
Proof.
  assert (walk_between
            (undirected_edge [[Fin 0; Fin 0; Fin 0]; [Fin 1; Fin 0; Fin 0];
                              [Fin 0; Fin 0; Fin 0]]) 0 1 [0; 1]) as Hwalk.
  { split_and!; [done..|]. intros [|[|i]] u v [= <-] [= <-].
    unfold undirected_edge, stored_at. right. by exists (Fin 1). }
  destruct (draw_path_between example_adata 0 1 "umap" "velocity" None
              "white" (Fin 15) "black" "#888888" (Fin (1 # 1000)) example_world
              _ _ [[Fin 0; Fin 0; Fin 0]; [Fin 1; Fin 0; Fin 0]; [Fin 0; Fin 0; Fin 0]]
              [[nat_cell 0; nat_cell 0]; [nat_cell 1; nat_cell 2]; [nat_cell 3; nat_cell 3]]
              [0; 1]
              example_neighbors_ok eq_refl eq_refl eq_refl eq_refl)
    as (w' & a & path & xs & ys & arrows & Hrun & _ & Hlen & _ & _ & Hcount & _ & _);
    [simpl; lia|simpl; lia|exact Hwalk|reflexivity| |].
  { intros [|[|[|v]]] Hv; simpl in Hv; try lia; by split; eexists. }
  exists w', path, arrows. split_and!; [|done..].
  rewrite Hrun. f_equal. f_equal.
  assert ((draw_path example_adata None (Some 0) (Some 1) "umap" "velocity" None
             "white" (Fin 15) "black" "#888888" (Fin (1 # 1000)) example_world).2 = Ok 1)
    as Hv by reflexivity.
  rewrite Hrun in Hv. by injection Hv.
Defined.

(** X9. A node of the path given that has no row in the embedding, or a row
    without two coordinates, makes [draw_path] raise [IndexError] before
    it draws anything: no arrow and no scatter layer, only the figure it
    opened when it was given no drawing surface. *)
Theorem draw_path_index_error (adata : AnnData) (p : list nat) (s t : option nat)
    (basis vkey : string) (ax : option nat) (color : string) (size : float)
    (edgecolor linecolor : string) (linewidth : float) (w : world)
    (X : list (list float)) (v : nat) :
  obsm adata !! ("X_" +:+ basis) = Some X →
  v ∈ p →
  cell X v 0 = None ∨ cell X v 1 = None →
  draw_path adata (Some p) s t basis vkey ax color size edgecolor linecolor linewidth w
  = (if ax is Some _ then w else with_figure w None, Raise IndexError).
Proof.
  intros HX Hv Hcell. rewrite draw_path_unfold.
  assert (∀ a w1, render_path adata p basis a color size edgecolor linecolor linewidth w1
                  = (w1, Raise IndexError)) as Hrender.
  { intros a w1. unfold render_path. rewrite HX. unfold bind at 1, lift at 1.
    destruct (take_column X p 0) as [xs|e|] eqn:Hxs.
    - unfold bind at 1, lift at 1. rewrite take_column_raises; [done|].
      intros Hall. rewrite Forall_forall in Hall.
      assert (Forall (fun v => is_Some (cell X v 0)) p) as Hall0.
      { apply take_column_ok. by eexists. }
      rewrite Forall_forall in Hall0.
      destruct Hcell as [Hc|Hc].
      + apply Hall0 in Hv. rewrite Hc in Hv. by destruct Hv.
      + apply Hall in Hv. rewrite Hc in Hv. by destruct Hv.
    - unfold take_column in Hxs. destruct (mapM _ _); congruence.
    - unfold take_column in Hxs. by destruct (mapM _ _). }
  unfold bind. destruct ax as [a0|]; simpl; by rewrite Hrender.
Qed.

Lemma draw_path_index_error_witness :
  draw_path example_adata (Some [0; 3]) None None "umap" "velocity" (Some 7)
            "white" (Fin 15) "black" "#888888" (Fin (1 # 1000)) example_world
  = (example_world, Raise IndexError).
Proof.
  apply (draw_path_index_error example_adata [0; 3] None None "umap" "velocity" (Some 7)
           "white" (Fin 15) "black" "#888888" (Fin (1 # 1000)) example_world
           _ 3 eq_refl).
  - set_solver.
  - by left.
Defined.

(** X10. With a path given, [draw_path] does not call the resolver: what it
    does depends on the embedding alone (not on the source and target
    handed in with the path, nor on the graphs of the dataset), and the
    only errors it can raise are the missing embedding and [IndexError]. *)
Theorem draw_path_explicit_path (adata adata' : AnnData) (p : list nat)
    (s t s' t' : option nat) (basis vkey vkey' : string) (ax : option nat)
    (color : string) (size : float) (edgecolor linecolor : string)
    (linewidth : float) (w : world) :
  obsm adata' = obsm adata →
  draw_path adata' (Some p) s' t' basis vkey' ax color size edgecolor linecolor linewidth w
  = draw_path adata (Some p) s t basis vkey ax color size edgecolor linecolor linewidth w ∧
  match (draw_path adata (Some p) s t basis vkey ax
           color size edgecolor linecolor linewidth w).2 with
  | Ok _ => True
  | Raise e => e = missing_basis basis ∨ e = IndexError
  | OutOfFuel => False
  end.
Proof.
  intros Hobsm. rewrite !draw_path_unfold. split.
  - unfold render_path. by rewrite Hobsm.
  - unfold bind.
    destruct ax as [a0|]; simpl.
    + destruct (render_path_frame adata p basis a0 color size edgecolor linecolor
                  linewidth w) as (events & _ & _ & Hr).
      destruct (render_path _ _ _ _ _ _ _ _ _ _) as [w' [a|e|]]; simpl in *; tauto.
    + destruct (render_path_frame adata p basis (S (nfig w)) color size edgecolor linecolor
                  linewidth (with_figure w None)) as (events & _ & _ & Hr).
      unfold with_figure in Hr.
      destruct (render_path _ _ _ _ _ _ _ _ _ _) as [w' [a|e|]]; simpl in *; tauto.
Qed.

Lemma draw_path_explicit_path_witness :
  draw_path isolated_adata (Some [0]) (Some 5) None "umap" "none" (Some 0)
            "white" (Fin 15) "black" "#888888" (Fin (1 # 1000)) example_world
  = draw_path (Build_AnnData [] [] ∅ [] ∅ ∅ ∅) (Some [0]) None None "umap" "velocity" (Some 0)
              "white" (Fin 15) "black" "#888888" (Fin (1 # 1000)) example_world.
Proof.
  by apply (draw_path_explicit_path (Build_AnnData [] [] ∅ [] ∅ ∅ ∅) isolated_adata [0]).
Defined.

(** ** More of the heatmap *)

Lemma untouched_refl (w : world) : untouched w w.
Proof. by split_and!. Qed.

Lemma untouched_wrapped (w : world) (a : ndarray) : untouched w (wrapped w a).
Proof.
  unfold wrapped. destruct (nd_dtype a); [apply untouched_refl|].
  split_and!; [done..|]. simpl. apply insert_subseteq.
  apply not_elem_of_dom, is_fresh.
Qed.

(** What [residue_scores] comes to, step by step. *)
Lemma residue_scores_cases (adata : AnnData) (p : Q) (basis key : string)
    (save : option string) (w : world) :
  residue_scores adata p basis key save w =
  match uns_array adata !! key with
  | None => (w, Raise (KeyError key))
  | Some l =>
      match arrays w !! l with
      | None => (w, Raise (KeyError ""))
      | Some a =>
          match uns_vocabulary adata !! (basis +:+ "_vocabulary") with
          | None => (wrapped w a, Raise (KeyError (basis +:+ "_vocabulary")))
          | Some vocab =>
              if negb (Nat.eqb (size vocab) (nd_cols a))
              then (wrapped w a, Raise AnnDataValueError)
              else
                match keep_mask (rows_of (scores_X a)) p with
                | Raise e => (wrapped w a, Raise e)
                | OutOfFuel => (wrapped w a, OutOfFuel)
                | Ok mask =>
                    match color_end (keep_rows mask (rows_of (scores_X a))) with
                    | Raise e => (wrapped w a, Raise e)
                    | OutOfFuel => (wrapped w a, OutOfFuel)
                    | Ok e =>
                        (World (<[(if nd_dtype a is float32 then l
                                   else fresh (dom (arrays w))) :=
                                  NdArray float32 (nd_rows a) (nd_cols a)
                                    (mjoin (put_rows mask (rows_of (scores_X a))
                                              (scale (keep_rows mask (rows_of (scores_X a))) e)))]>
                                  (arrays w))
                               (obs w) (S (nfig w))
                               (trace w ++
                                [Figure (S (nfig w))
                                   (Some (Nat.max (nd_cols a / 2) 5,
                                          Nat.max (length (keep_rows mask (rows_of (scores_X a))) / 20) 5));
                                 Heatmap (S (nfig w)) (scale (keep_rows mask (rows_of (scores_X a))) e)
                                   (var_names vocab)
                                   (keep_rows mask (pretty <$> seq 0 (nd_rows a)))] ++
                                (if save is Some name
                                 then [Savefig ("figures/evolocity_" +:+ name); Close]
                                 else [])),
                         Ok (if save is Some _ then None else Some (S (nfig w))))
                    end
                end
          end
      end
  end.
Proof.
  destruct (uns_array adata !! key) as [l|] eqn:Hl.
  2:{ unfold residue_scores, bind at 1, uns_lookup at 1. by rewrite Hl. }
  destruct (arrays w !! l) as [a|] eqn:Ha.
  2:{ unfold residue_scores, bind at 1, uns_lookup at 1. rewrite Hl. unfold ret at 1.
      unfold bind at 1, AnnData_init, bind at 1, read_array at 1. by rewrite Ha. }
  destruct (uns_vocabulary adata !! (basis +:+ "_vocabulary")) as [vocab|] eqn:Hvocab.
  2:{ unfold residue_scores, bind at 1, uns_lookup at 1. rewrite Hl. unfold ret at 1.
      unfold bind at 1, AnnData_init, bind at 1, read_array at 1. rewrite Ha.
      unfold wrapped. destruct (nd_dtype a).
      - unfold ret at 1, bind at 1, uns_lookup at 1. by rewrite Hvocab.
      - unfold bind at 1, uns_lookup at 1. by rewrite Hvocab. }
  destruct (Nat.eqb (size vocab) (nd_cols a)) eqn:Hsize; simpl.
  2:{ unfold residue_scores, bind at 1, uns_lookup at 1. rewrite Hl. unfold ret at 1.
      unfold bind at 1, AnnData_init, bind at 1, read_array at 1. rewrite Ha.
      unfold wrapped, scores_X in *. destruct a as [dt rows cols data]. simpl in *. destruct dt.
      - unfold ret at 1, bind at 1, uns_lookup at 1. rewrite Hvocab. unfold ret at 1.
        unfold bind at 1, read_array at 1. rewrite Ha.
        unfold astype_float32. cbn [nd_cols]. by rewrite var_names_length, Hsize.
      - unfold bind at 1, uns_lookup at 1. rewrite Hvocab. unfold ret at 1.
        unfold bind at 1, read_array at 1. simpl. rewrite lookup_insert_eq.
        unfold astype_float32. cbn [nd_cols]. by rewrite var_names_length, Hsize. }
  apply Nat.eqb_eq in Hsize.
  destruct (keep_mask (rows_of (scores_X a)) p) as [mask|e|] eqn:Hmask.
  - destruct (color_end (keep_rows mask (rows_of (scores_X a)))) as [e|e|] eqn:Hend.
    + by apply residue_scores_run.
    + unfold residue_scores, bind at 1, uns_lookup at 1. rewrite Hl. unfold ret at 1.
      unfold bind at 1, AnnData_init, bind at 1, read_array at 1. rewrite Ha.
      unfold wrapped, scores_X in *. destruct a as [dt rows cols data]. simpl in *. destruct dt.
      * unfold ret at 1, bind at 1, uns_lookup at 1. rewrite Hvocab. unfold ret at 1.
        unfold bind at 1, read_array at 1. rewrite Ha.
        rewrite var_names_length, Hsize, Nat.eqb_refl. simpl.
        unfold rows_of, astype_float32 in *. simpl in *.
        unfold bind at 1, lift at 1. rewrite Hmask.
        unfold bind at 1, lift at 1. by rewrite Hend.
      * unfold bind at 1, uns_lookup at 1. rewrite Hvocab. unfold ret at 1.
        unfold bind at 1, read_array at 1. simpl. rewrite lookup_insert_eq.
        unfold astype_float32. cbn [nd_cols]. rewrite var_names_length, Hsize, Nat.eqb_refl. simpl.
        unfold rows_of, astype_float32 in *. simpl in *.
        unfold bind at 1, lift at 1. rewrite Hmask.
        unfold bind at 1, lift at 1. by rewrite Hend.
    + unfold color_end in Hend. by repeat case_match.
  - unfold residue_scores, bind at 1, uns_lookup at 1. rewrite Hl. unfold ret at 1.
    unfold bind at 1, AnnData_init, bind at 1, read_array at 1. rewrite Ha.
    unfold wrapped, scores_X in *. destruct a as [dt rows cols data]. simpl in *. destruct dt.
    * unfold ret at 1, bind at 1, uns_lookup at 1. rewrite Hvocab. unfold ret at 1.
      unfold bind at 1, read_array at 1. rewrite Ha.
      rewrite var_names_length, Hsize, Nat.eqb_refl. simpl.
      unfold rows_of, astype_float32 in *. simpl in *.
      unfold bind at 1, lift at 1. by rewrite Hmask.
    * unfold bind at 1, uns_lookup at 1. rewrite Hvocab. unfold ret at 1.
      unfold bind at 1, read_array at 1. simpl. rewrite lookup_insert_eq.
      unfold astype_float32. cbn [nd_cols]. rewrite var_names_length, Hsize, Nat.eqb_refl. simpl.
      unfold rows_of, astype_float32 in *. simpl in *.
      unfold bind at 1, lift at 1. by rewrite Hmask.
  - unfold keep_mask in Hmask. destruct (Qle_bool p 0); [done|].
    destruct (np_percentile _ _) eqn:Hp; try done.
    unfold np_percentile in Hp. repeat case_match; done.
Qed.

(** X11. Without the score matrix under [key], [residue_scores] raises the
    [KeyError] of that key and has done nothing; with the matrix but
    without the vocabulary of the basis, it raises the [KeyError] of the
    vocabulary's key, with no figure opened and no array changed. *)
Theorem residue_scores_missing_keys (adata : AnnData) (p : Q) (basis key : string)
    (save : option string) (w : world) :
  (uns_array adata !! key = None →
   residue_scores adata p basis key save w = (w, Raise (KeyError key))) ∧
  (∀ l a, uns_array adata !! key = Some l → arrays w !! l = Some a →
     uns_vocabulary adata !! (basis +:+ "_vocabulary") = None →
     ∃ w', residue_scores adata p basis key save w
             = (w', Raise (KeyError (basis +:+ "_vocabulary"))) ∧
           untouched w w').
Proof.
  rewrite residue_scores_cases. split.
  - by intros ->.
  - intros l a -> -> ->. eexists. split; [done|]. apply untouched_wrapped.
Qed.

Lemma residue_scores_missing_keys_witness :
  residue_scores example_adata 0 "onehot" "scores" None example_world
    = (example_world, Raise (KeyError "scores")) ∧
  ∃ w', residue_scores example_adata 0 "blosum" "residue_scores" None example_world
          = (w', Raise (KeyError "blosum_vocabulary")) ∧ untouched example_world w'.
Proof.
  split.
  - by apply (proj1 (residue_scores_missing_keys example_adata 0 "onehot" "scores" None
                       example_world)).
  - by apply (proj2 (residue_scores_missing_keys example_adata 0 "blosum" "residue_scores"
                       None example_world) 0 example_scores).
Defined.

(** X12. A vocabulary that has not one entry for every column of the score
    matrix is refused when the column names are set: the call raises
    anndata's [ValueError] with no figure opened and no array changed. *)
Theorem residue_scores_vocabulary_size (adata : AnnData) (p : Q) (basis key : string)
    (save : option string) (w : world) (l : nat) (a : ndarray) (vocab : gmap nat string) :
  uns_array adata !! key = Some l →
  arrays w !! l = Some a →
  uns_vocabulary adata !! (basis +:+ "_vocabulary") = Some vocab →
  size vocab ≠ nd_cols a →
  ∃ w', residue_scores adata p basis key save w = (w', Raise AnnDataValueError) ∧
        untouched w w'.
Proof.
  intros Hl Ha Hvocab Hsize. rewrite residue_scores_cases, Hl, Ha, Hvocab.
  apply Nat.eqb_neq in Hsize. rewrite Hsize. simpl.
  eexists. split; [done|]. apply untouched_wrapped.
Qed.

Lemma residue_scores_vocabulary_size_witness :
  ∃ w', residue_scores example_adata 0 "onehot" "residue_scores" None wide_world
          = (w', Raise AnnDataValueError) ∧ untouched wide_world w'.
Proof.
  apply (residue_scores_vocabulary_size example_adata 0 "onehot" "residue_scores" None
           wide_world 0 (NdArray float64 1 3 [nat_cell 1; nat_cell 2; nat_cell 3])
           {[0 := "A"; 1 := "C"]} eq_refl eq_refl eq_refl).
  vm_compute. lia.
Defined.

Lemma keep_mask_nonpositive (X : list (list float)) (p : Q) :
  (p <= 0)%Q → keep_mask X p = Ok (replicate (length X) true).
Proof.
  intros Hp. unfold keep_mask. apply Qle_bool_iff in Hp. by rewrite Hp.
Qed.

Lemma keep_mask_above_100 (X : list (list float)) (p : Q) :
  (100 < p)%Q → keep_mask X p = Raise NumpyValueError.
Proof.
  intros Hp. unfold keep_mask.
  assert (Qle_bool p 0 = false) as ->.
  { apply not_true_is_false. intros H%Qle_bool_iff. lra. }
  unfold np_percentile.
  assert (Qle_bool p 100 = false) as ->.
  { apply not_true_is_false. intros H%Qle_bool_iff. lra. }
  by rewrite andb_false_r.
Qed.

(** X13. [percentile_keep] is read as a percentage: zero and anything below it
    filter nothing (the call is the one with [percentile_keep = 0]), and
    anything above 100 is refused by [np.percentile], with no figure opened
    and no array changed. *)
Theorem percentile_keep_range (adata : AnnData) (p : Q) (basis key : string)
    (save : option string) (w : world) (l : nat) (a : ndarray) (vocab : gmap nat string) :
  uns_array adata !! key = Some l →
  arrays w !! l = Some a →
  uns_vocabulary adata !! (basis +:+ "_vocabulary") = Some vocab →
  size vocab = nd_cols a →
  ((p <= 0)%Q →
   residue_scores adata p basis key save w = residue_scores adata 0 basis key save w) ∧
  ((100 < p)%Q →
   ∃ w', residue_scores adata p basis key save w = (w', Raise NumpyValueError) ∧
         untouched w w').
Proof.
  intros Hl Ha Hvocab Hsize. split.
  - intros Hp. rewrite !residue_scores_cases, Hl, Ha, Hvocab.
    rewrite (keep_mask_nonpositive _ p Hp), (keep_mask_nonpositive _ 0); [done|lra].
  - intros Hp. rewrite residue_scores_cases, Hl, Ha, Hvocab.
    rewrite Hsize, Nat.eqb_refl. simpl. rewrite (keep_mask_above_100 _ p Hp).
    eexists. split; [done|]. apply untouched_wrapped.
Qed.

Lemma percentile_keep_range_witness :
  residue_scores example_adata (-5) "onehot" "residue_scores" None example_world
    = residue_scores example_adata 0 "onehot" "residue_scores" None example_world ∧
  ∃ w', residue_scores example_adata 101 "onehot" "residue_scores" None example_world
          = (w', Raise NumpyValueError) ∧ untouched example_world w'.
Proof.
  destruct (percentile_keep_range example_adata (-5) "onehot" "residue_scores" None
              example_world 0 example_scores {[0 := "A"; 1 := "C"]}
              eq_refl eq_refl eq_refl eq_refl) as [Hlow _].
  destruct (percentile_keep_range example_adata 101 "onehot" "residue_scores" None
              example_world 0 example_scores {[0 := "A"; 1 := "C"]}
              eq_refl eq_refl eq_refl eq_refl) as [_ Hhigh].
  split; [apply Hlow|apply Hhigh]; unfold Qle, Qlt; simpl; lia.
Defined.

Lemma keep_rows_subseteq {A} (mask : list bool) (rows : list A) (x : A) :
  x ∈ keep_rows mask rows → x ∈ rows.
Proof.
  unfold keep_rows. rewrite list_elem_of_omap. intros ([b y] & Hin & Hy).
  simpl in Hy. destruct b; [|done]. injection Hy as ->.
  apply elem_of_zip_r in Hin. done.
Qed.

Lemma rows_of_empty (a : ndarray) :
  nd_rows a = 0 ∨ nd_cols a = 0 → ∀ row, row ∈ rows_of a → row = [].
Proof.
  unfold rows_of. intros [H|H] row; rewrite H.
  - simpl. by intros ?%elem_of_nil.
  - rewrite list_elem_of_fmap. by intros (r & -> & _).
Qed.

(** X14. A score matrix with no cells has no minimum: when it has rows but no
    columns, or no rows and no percentile filter is asked for,
    [residue_scores] raises numpy's [ValueError], with no figure opened
    and no array changed. *)
Theorem residue_scores_empty_matrix (adata : AnnData) (p : Q) (basis key : string)
    (save : option string) (w : world) (l : nat) (a : ndarray) (vocab : gmap nat string) :
  uns_array adata !! key = Some l →
  arrays w !! l = Some a →
  uns_vocabulary adata !! (basis +:+ "_vocabulary") = Some vocab →
  size vocab = nd_cols a →
  nd_rows a = 0 ∧ (p <= 0)%Q ∨ 0 < nd_rows a ∧ nd_cols a = 0 →
  ∃ w', residue_scores adata p basis key save w = (w', Raise NumpyValueError) ∧
        untouched w w'.
Proof.
  intros Hl Ha Hvocab Hsize Hcase.
  assert (nd_rows a = 0 ∨ nd_cols a = 0) as Hempty by tauto. clear Hcase.
  rewrite residue_scores_cases, Hl, Ha, Hvocab.
  rewrite Hsize, Nat.eqb_refl. simpl.
  destruct (keep_mask (rows_of (scores_X a)) p) as [mask|e|] eqn:Hmask.
  - assert (mjoin (keep_rows mask (rows_of (scores_X a))) = []) as Hnil.
    { apply elem_of_nil_inv. intros x Hx. apply list_elem_of_join in Hx as (row & Hx & Hrow).
      apply keep_rows_subseteq in Hrow.
      destruct (scores_X_shape a) as (_ & Hr & Hc). rewrite <- Hr, <- Hc in Hempty.
      apply (rows_of_empty _ Hempty) in Hrow. subst row.
      by apply elem_of_nil in Hx. }
    unfold color_end. rewrite Hnil. simpl.
    eexists. split; [done|]. apply untouched_wrapped.
  - assert (e = NumpyValueError) as ->.
    { unfold keep_mask in Hmask. destruct (Qle_bool p 0); [done|].
      destruct (np_percentile _ _) eqn:Hp; try done. injection Hmask as <-.
      unfold np_percentile in Hp. by repeat case_match; simplify_eq. }
    eexists. split; [done|]. apply untouched_wrapped.
  - unfold keep_mask in Hmask. destruct (Qle_bool p 0); [done|].
    destruct (np_percentile _ _) eqn:Hp; try done.
    unfold np_percentile in Hp. by repeat case_match.
Qed.

Lemma residue_scores_empty_matrix_witness :
  ∃ w', residue_scores example_adata 0 "onehot" "residue_scores" None empty_world
          = (w', Raise NumpyValueError) ∧ untouched empty_world w'.
Proof.
  apply (residue_scores_empty_matrix example_adata 0 "onehot" "residue_scores" None
           empty_world 0 (NdArray float64 0 2 []) {[0 := "A"; 1 := "C"]}
           eq_refl eq_refl eq_refl eq_refl).
  left. split; [reflexivity|]. unfold Qle. simpl. lia.
Defined.

(** A call of [residue_scores] that gets as far as [end] draws the kept
    rows divided by it. *)
Lemma residue_scores_heatmap (adata : AnnData) (p : Q) (basis key : string)
    (save : option string) (w : world) (l : nat) (a : ndarray)
    (vocab : gmap nat string) (mask : list bool) (e : float) :
  uns_array adata !! key = Some l →
  arrays w !! l = Some a →
  uns_vocabulary adata !! (basis +:+ "_vocabulary") = Some vocab →
  size vocab = nd_cols a →
  keep_mask (rows_of (scores_X a)) p = Ok mask →
  color_end (keep_rows mask (rows_of (scores_X a))) = Ok e →
  ∃ w' ax, residue_scores adata p basis key save w = (w', Ok ax) ∧
           drew_heatmap w w' (scale (keep_rows mask (rows_of (scores_X a))) e).
Proof.
  intros Hl Ha Hvocab Hsize Hmask Hend.
  rewrite (residue_scores_run _ _ _ _ _ _ _ _ _ _ _ Hl Ha Hvocab Hsize Hmask Hend).
  eexists _, _. split; [done|]. unfold drew_heatmap. simpl.
  eexists _, _, _, _, _. split; [done|].
  destruct save; [right; by eexists|by left].
Qed.

Lemma fge_trans (a b c : float) :
  fge a b = true → fge b c = true → fge a c = true.
Proof.
  destruct a, b, c; simpl; try done.
  rewrite !Qle_bool_iff. intros. by eapply Qle_trans.
Qed.

Lemma fge_refl (a : float) : isnan a = false → fge a a = true.
Proof. destruct a; simpl; try done. intros _. apply Qle_bool_iff, Qle_refl. Qed.

(** numpy's minimum and maximum of cells none of which is NaN. *)
Lemma foldl_np_minimum_spec (rest : list float) :
  ∀ x, Forall (fun y => isnan y = false) (x :: rest) →
       foldl np_minimum x rest ∈ x :: rest ∧
       ∀ y, y ∈ x :: rest → fge y (foldl np_minimum x rest) = true.
Proof.
  induction rest as [|b rest IH]; intros x Hnan; simpl.
  - apply Forall_cons in Hnan as [Hx _]. split; [set_solver|].
    intros y Hy. apply list_elem_of_singleton in Hy as ->. by apply fge_refl.
  - apply Forall_cons in Hnan as [Hx Hnan]. apply Forall_cons in Hnan as [Hb Hnan].
    assert (np_minimum x b = if fge b x then x else b) as ->
      by (unfold np_minimum; by rewrite Hx, Hb).
    destruct (fge b x) eqn:Hbx.
    + destruct (IH x) as [Hin Hle]; [by apply Forall_cons|]. split; [set_solver|].
      intros y Hy. apply elem_of_cons in Hy as [->|Hy]; [apply Hle; set_solver|].
      apply elem_of_cons in Hy as [->|Hy]; [|apply Hle; set_solver].
      apply (fge_trans b x); [exact Hbx|]. apply Hle. set_solver.
    + destruct (IH b) as [Hin Hle]; [by apply Forall_cons|]. split; [set_solver|].
      intros y Hy. apply elem_of_cons in Hy as [->|Hy]; [|apply Hle; set_solver].
      apply (fge_trans x b); [|apply Hle; set_solver].
      apply fgt_fge. by apply fge_false.
Qed.

Lemma foldl_np_maximum_spec (rest : list float) :
  ∀ x, Forall (fun y => isnan y = false) (x :: rest) →
       foldl np_maximum x rest ∈ x :: rest ∧
       ∀ y, y ∈ x :: rest → fge (foldl np_maximum x rest) y = true.
Proof.
  induction rest as [|b rest IH]; intros x Hnan; simpl.
  - apply Forall_cons in Hnan as [Hx _]. split; [set_solver|].
    intros y Hy. apply list_elem_of_singleton in Hy as ->. by apply fge_refl.
  - apply Forall_cons in Hnan as [Hx Hnan]. apply Forall_cons in Hnan as [Hb Hnan].
    assert (np_maximum x b = if fge x b then x else b) as ->
      by (unfold np_maximum; by rewrite Hx, Hb).
    destruct (fge x b) eqn:Hxb.
    + destruct (IH x) as [Hin Hle]; [by apply Forall_cons|]. split; [set_solver|].
      intros y Hy. apply elem_of_cons in Hy as [->|Hy]; [apply Hle; set_solver|].
      apply elem_of_cons in Hy as [->|Hy]; [|apply Hle; set_solver].
      apply (fge_trans _ x); [|exact Hxb]. apply Hle. set_solver.
    + destruct (IH b) as [Hin Hle]; [by apply Forall_cons|]. split; [set_solver|].
      intros y Hy. apply elem_of_cons in Hy as [->|Hy]; [|apply Hle; set_solver].
      apply (fge_trans _ b); [apply Hle; set_solver|].
      apply fgt_fge. by apply fge_false.
Qed.

Lemma foldl_np_minimum_nan (rest : list float) (x : float) :
  NaN ∈ x :: rest → foldl np_minimum x rest = NaN.
Proof.
  revert x. induction rest as [|b rest IH]; intros x Hin; simpl.
  - by apply list_elem_of_singleton in Hin.
  - apply IH. apply elem_of_cons in Hin as [<-|Hin]; [set_solver|].
    apply elem_of_cons in Hin as [<-|Hin]; [|set_solver].
    unfold np_minimum. destruct x; set_solver.
Qed.

Lemma foldl_np_maximum_nan (rest : list float) (x : float) :
  NaN ∈ x :: rest → foldl np_maximum x rest = NaN.
Proof.
  revert x. induction rest as [|b rest IH]; intros x Hin; simpl.
  - by apply list_elem_of_singleton in Hin.
  - apply IH. apply elem_of_cons in Hin as [<-|Hin]; [set_solver|].
    apply elem_of_cons in Hin as [<-|Hin]; [|set_solver].
    unfold np_maximum. destruct x; set_solver.
Qed.

(** [end] of a matrix of zeros is zero, of a matrix with a NaN is NaN, and
    of a matrix with an infinite cell and no NaN is positive infinity. *)
Lemma color_end_zero (X : list (list float)) :
  mjoin X ≠ [] → all_zero X → ∃ e, color_end X = Ok (Fin e) ∧ (e == 0)%Q.
Proof.
  unfold all_zero, color_end, np_min, np_max. generalize (mjoin X).
  intros [|x rest] Hne Hzero; [done|].
  assert (∀ y, y ∈ rest → ∃ q, y = Fin q) as Hrest.
  { intros y Hy. destruct (Hzero y) as (q & -> & _); [set_solver|]. by eexists. }
  destruct (Hzero x) as (q0 & -> & Hq0); [set_solver|].
  destruct (foldl_np_minimum_finite q0 rest Hrest) as (lo & -> & Hlo & _).
  destruct (foldl_np_maximum_finite q0 rest Hrest) as (hi & -> & Hhi & _).
  destruct (Hzero _ Hlo) as (lo' & [= <-] & Hlo0).
  destruct (Hzero _ Hhi) as (hi' & [= <-] & Hhi0).
  unfold py_max, fabs, fgt. destruct (negb _); eexists; (split; [done|]); [done|].
  rewrite Hlo0. done.
Qed.

Lemma color_end_nan (X : list (list float)) :
  NaN ∈ mjoin X → color_end X = Ok NaN.
Proof.
  unfold color_end, np_min, np_max. generalize (mjoin X).
  intros [|x rest] Hin; [by apply elem_of_nil in Hin|].
  by rewrite foldl_np_minimum_nan, foldl_np_maximum_nan.
Qed.

Lemma color_end_infinite (X : list (list float)) :
  NaN ∉ mjoin X → PInf ∈ mjoin X ∨ NInf ∈ mjoin X → color_end X = Ok PInf.
Proof.
  unfold color_end, np_min, np_max. generalize (mjoin X).
  intros [|x rest] Hnan Hinf; [destruct Hinf as [H|H]; by apply elem_of_nil in H|].
  assert (Forall (fun y => isnan y = false) (x :: rest)) as Hall.
  { apply Forall_forall. intros y Hy. destruct y; try done. }
  destruct (foldl_np_minimum_spec rest x Hall) as [Hlo_in Hlo].
  destruct (foldl_np_maximum_spec rest x Hall) as [Hhi_in Hhi].
  destruct (foldl np_minimum x rest) as [| |lo|] eqn:Hmin,
           (foldl np_maximum x rest) as [| |hi|] eqn:Hmax; try done;
    destruct Hinf as [Hinf|Hinf];
    try (apply Hhi in Hinf; done); try (apply Hlo in Hinf; done).
  all: unfold py_max; simpl; try done.
Qed.

Lemma keep_rows_fmap {A B} (f : A → B) (mask : list bool) (rows : list A) :
  keep_rows mask (f <$> rows) = f <$> keep_rows mask rows.
Proof.
  revert rows. induction mask as [|b mask IH]; intros [|x rows]; try done.
  destruct b.
  - change (f x :: keep_rows mask (f <$> rows) = f x :: (f <$> keep_rows mask rows)).
    by rewrite IH.
  - change (keep_rows mask (f <$> rows) = f <$> keep_rows mask rows). apply IH.
Qed.

Lemma keep_rows_replicate {A} (rows : list A) :
  keep_rows (replicate (length rows) true) rows = rows.
Proof.
  induction rows as [|x rows IH]; [done|].
  change (x :: keep_rows (replicate (length rows) true) rows = x :: rows).
  by rewrite IH.
Qed.

Lemma keep_rows_none {A} (mask : list bool) (rows : list A) :
  Forall (fun b => b = false) mask → keep_rows mask rows = [].
Proof.
  intros Hmask. revert rows. induction Hmask as [|b mask -> _ IH]; intros [|x rows]; try done.
  change (keep_rows mask rows = []). apply IH.
Qed.

Lemma keep_rows_elem_inv {A} (mask : list bool) (rows : list A) (row : A) :
  row ∈ keep_rows mask rows → ∃ r, mask !! r = Some true ∧ rows !! r = Some row.
Proof.
  revert rows. induction mask as [|b mask IH]; intros [|x rows] Hrow;
    try (by apply elem_of_nil in Hrow).
  assert (keep_rows (b :: mask) (x :: rows)
          = if b then x :: keep_rows mask rows else keep_rows mask rows) as Heq
    by (by destruct b).
  rewrite Heq in Hrow. destruct b.
  - apply elem_of_cons in Hrow as [->|Hrow]; [by exists 0|].
    destruct (IH rows Hrow) as (r & ? & ?). by exists (S r).
  - destruct (IH rows Hrow) as (r & ? & ?). by exists (S r).
Qed.

Lemma fmap_all_true {A} (g : A → bool) (l : list A) :
  (∀ x, x ∈ l → g x = true) → g <$> l = replicate (length l) true.
Proof.
  induction l as [|x l IH]; intros Hall; [done|].
  rewrite fmap_cons. cbn [length replicate].
  rewrite (Hall x) by set_solver. f_equal. apply IH. set_solver.
Qed.

Lemma cell_fmap (f : float → float) (X : list (list float)) (r c : nat) :
  cell ((fun row : list float => f <$> row) <$> X) r c = f <$> cell X r c.
Proof.
  unfold cell. rewrite list_lookup_fmap.
  destruct (X !! r) as [row|]; [|done]. simpl. by rewrite list_lookup_fmap.
Qed.

Lemma join_fmap_rows (f : float → float) (X : list (list float)) :
  mjoin ((fun row : list float => f <$> row) <$> X) = f <$> mjoin X.
Proof.
  induction X as [|row X IH]; [done|].
  change ((f <$> row) ++ mjoin ((fun row : list float => f <$> row) <$> X)
          = f <$> (row ++ mjoin X)).
  by rewrite IH, fmap_app.
Qed.

(** The matrix [residue_scores] works on is the stored one cell by cell,
    up to the conversion, which keeps NaN and the zeros. *)
Lemma scores_X_rows (a : ndarray) :
  ∃ f : float → float,
    rows_of (scores_X a) = (fun row : list float => f <$> row) <$> rows_of a ∧
    f NaN = NaN ∧
    ∀ q, (q == 0)%Q → ∃ q', f (Fin q) = Fin q' ∧ (q' == 0)%Q.
Proof.
  unfold scores_X. destruct (nd_dtype a).
  - exists id. split_and!; [|done|by eexists].
    rewrite <- (list_fmap_id (rows_of a)) at 1. apply list_fmap_ext.
    intros _ row _. by rewrite list_fmap_id.
  - exists float32_of. split_and!; [apply rows_of_astype_float32|done|].
    intros q Hq. exists 0%Q. split; [|done]. simpl. unfold round_float32.
    apply Qeq_bool_iff in Hq. by rewrite Hq.
Qed.

Lemma keep_mask_positive (X : list (list float)) (p : Q) :
  Qle_bool p 0 = false →
  keep_mask X p = match np_percentile (abs_sum <$> X) p with
                  | Ok cutoff => Ok ((fun s => fge s cutoff) <$> (abs_sum <$> X))
                  | Raise e => Raise e
                  | OutOfFuel => OutOfFuel
                  end.
Proof. intros Hp. unfold keep_mask. by rewrite Hp. Qed.

(** The sum of the absolute values of a row is NaN when a cell is, zero
    when all cells are, and never negative. *)
Lemma abs_sum_nan (row : list float) : NaN ∈ row → abs_sum row = NaN.
Proof.
  unfold abs_sum. intros Hnan.
  assert (∀ acc, foldl fadd acc (fabs <$> row) = NaN) as ->; [|done].
  induction row as [|x row IH]; intros acc; [by apply elem_of_nil in Hnan|].
  apply elem_of_cons in Hnan as [<-|Hnan]; simpl.
  - assert (fadd acc NaN = NaN) as -> by (by destruct acc).
    clear IH. induction row as [|y row IH]; [done|]. simpl. apply IH.
  - by apply IH.
Qed.

Lemma abs_sum_zero (row : list float) :
  (∀ x, x ∈ row → ∃ q, x = Fin q ∧ (q == 0)%Q) → ∃ q, abs_sum row = Fin q ∧ (q == 0)%Q.
Proof.
  unfold abs_sum. intros Hzero.
  assert (∀ a, (a == 0)%Q →
            ∃ q, foldl fadd (Fin a) (fabs <$> row) = Fin q ∧ (q == 0)%Q) as Hsum.
  { induction row as [|x row IH]; intros a Ha; [by exists a|].
    destruct (Hzero x) as (qx & -> & Hqx); [set_solver|]. simpl. apply IH.
    - intros y Hy. apply Hzero. set_solver.
    - rewrite Ha, Hqx. done. }
  destruct (Hsum 0%Q) as (q & -> & Hq); [done|]. exists q. split; [|done].
  unfold overflow32, float32_of, round_float32.
  apply Qeq_bool_iff in Hq. by rewrite Hq.
Qed.

Lemma abs_sum_sign (row : list float) :
  abs_sum row = NaN ∨ abs_sum row = PInf ∨ ∃ q, abs_sum row = Fin q ∧ (0 <= q)%Q.
Proof.
  unfold abs_sum.
  assert (∀ acc, (acc = NaN ∨ acc = PInf ∨ ∃ q, acc = Fin q ∧ (0 <= q)%Q) →
            let s := foldl fadd acc (fabs <$> row) in
            s = NaN ∨ s = PInf ∨ ∃ q, s = Fin q ∧ (0 <= q)%Q) as Hsum.
  { induction row as [|x row IH]; intros acc Hacc; [done|]. simpl. apply IH.
    destruct Hacc as [->|[->|(a & -> & Ha)]], x as [| |q|]; simpl; auto.
    right. right. eexists. split; [done|]. pose proof (Qabs_nonneg q). lra. }
  destruct (Hsum (Fin 0)) as [->|[->|(q & -> & Hq)]]; [right; right; by exists 0%Q|auto..|].
  unfold overflow32, float32_of, round_float32.
  apply Qle_bool_iff in Hq. rewrite Hq.
  repeat case_match; simplify_eq; eauto using Qle_bool_imp_le.
  all: right; right; eexists; split; [done|]; by apply Qle_bool_iff.
Qed.

(** With a NaN among the numbers their percentile is NaN. *)
Lemma np_percentile_nan (sums : list float) (p : Q) (cutoff : float) :
  NaN ∈ sums → np_percentile sums p = Ok cutoff → cutoff = NaN.
Proof.
  intros Hnan. unfold np_percentile. destruct (negb _); [done|].
  assert (existsb isnan sums = true) as ->; [|by intros [= <-]].
  apply existsb_exists. exists NaN. split; [by apply list_elem_of_In|done].
Qed.

(** The percentile of zeros is zero. *)
Lemma np_percentile_zeros (sums sums' : list float) (p : Q) (cutoff : float) :
  np_percentile sums p = Ok cutoff → cutoff ≠ NaN →
  length sums' = length sums →
  (∀ s, s ∈ sums' → ∃ q, s = Fin q ∧ (q == 0)%Q) →
  ∃ v, np_percentile sums' p = Ok (Fin v) ∧ (v == 0)%Q.
Proof.
  intros Hcut Hnan Hlen Hzero. unfold np_percentile in *.
  destruct (negb _); [done|].
  destruct (existsb isnan sums); [by injection Hcut as <-|].
  assert (existsb isnan sums' = false) as ->.
  { apply not_true_is_false. intros (s & Hs & Hnans)%existsb_exists.
    apply list_elem_of_In in Hs. by destruct (Hzero s Hs) as (q & -> & _). }
  rewrite Hlen.
  set (below := Z.to_nat _) in *. set (above := Nat.min _ _) in *.
  destruct (merge_sort float_le sums !! below) as [x|] eqn:Hx;
    [|by injection Hcut as <-].
  destruct (merge_sort float_le sums !! above) as [y|] eqn:Hy;
    [|by injection Hcut as <-].
  assert (length (merge_sort float_le sums') = length (merge_sort float_le sums)) as Hlens
    by (by rewrite !merge_sort_Permutation).
  assert (∀ i z, merge_sort float_le sums !! i = Some z →
            ∃ q, merge_sort float_le sums' !! i = Some (Fin q) ∧ (q == 0)%Q) as Hlook.
  { intros i z Hz. apply lookup_lt_Some in Hz. rewrite <- Hlens in Hz.
    destruct (lookup_lt_is_Some_2 _ _ Hz) as [z' Hz'].
    destruct (Hzero z') as (q & -> & Hq); [|by exists q].
    rewrite <- (merge_sort_Permutation float_le). by eapply list_elem_of_lookup_2. }
  destruct (Hlook _ _ Hx) as (qx & -> & Hqx), (Hlook _ _ Hy) as (qy & -> & Hqy).
  unfold lerp. simpl. destruct (Qle_bool _ _).
  - eexists. split; [done|]. rewrite Hqx, Hqy. ring.
  - eexists. split; [done|]. rewrite Hqx, Hqy. ring.
Qed.

(** When the rows that are kept are rows of zeros (and there is a cell),
    every row is kept and is a row of zeros; the same rows are then kept
    of the matrix the function works on. *)
Lemma keep_mask_zeros (a : ndarray) (p : Q) (mask : list bool) :
  keep_mask (rows_of a) p = Ok mask →
  mjoin (keep_rows mask (rows_of a)) ≠ [] →
  all_zero (keep_rows mask (rows_of a)) →
  mask = replicate (length (rows_of a)) true ∧
  keep_mask (rows_of (scores_X a)) p = Ok mask.
Proof.
  intros Hmask Hne Hzero.
  destruct (scores_X_rows a) as (f & Hrows & _ & Hfzero).
  destruct (Qle_bool p 0) eqn:Hp.
  { apply Qle_bool_iff in Hp. rewrite keep_mask_nonpositive in Hmask by done.
    injection Hmask as <-. split; [done|].
    rewrite keep_mask_nonpositive by done. by rewrite Hrows, length_fmap. }
  rewrite keep_mask_positive in Hmask by done.
  destruct (np_percentile (abs_sum <$> rows_of a) p) as [cutoff| |] eqn:Hcut; [|done..].
  injection Hmask as <-.
  (* a row of zeros is kept *)
  destruct (mjoin (keep_rows _ (rows_of a))) as [|x cells] eqn:Hcells; [done|]. clear Hne.
  assert (x ∈ mjoin (keep_rows ((λ s, fge s cutoff) <$> (abs_sum <$> rows_of a)) (rows_of a)))
    as Hx by (rewrite Hcells; set_solver). clear Hcells.
  apply list_elem_of_join in Hx as (row0 & _ & Hrow0).
  pose proof Hrow0 as Hkept.
  apply keep_rows_elem_inv in Hrow0 as (r0 & Hm & Hr0).
  rewrite !list_lookup_fmap, Hr0 in Hm. simpl in Hm. injection Hm as Hm.
  destruct (abs_sum_zero row0) as (q0 & Hq0 & Hq0z).
  { intros y Hy. apply Hzero. apply list_elem_of_join. by exists row0. }
  rewrite Hq0 in Hm.
  assert (cutoff ≠ NaN) as Hnan by (intros ->; done).
  (* so the cutoff is not positive, and every row is kept *)
  assert (∀ s, s ∈ abs_sum <$> rows_of a → fge s cutoff = true) as Hall.
  { intros s Hs.
    assert (s ≠ NaN) as Hs'.
    { intros ->. by apply Hnan, (np_percentile_nan _ _ _ Hs Hcut). }
    apply list_elem_of_fmap in Hs as (row & -> & _).
    destruct (abs_sum_sign row) as [?|[->|(q & -> & Hq)]]; [done| |].
    - by destruct cutoff.
    - destruct cutoff as [| |c|]; try done. simpl in *.
      apply Qle_bool_iff in Hm. apply Qle_bool_iff. lra. }
  assert ((λ s, fge s cutoff) <$> (abs_sum <$> rows_of a)
          = replicate (length (rows_of a)) true) as Htrue.
  { rewrite (fmap_all_true _ _ Hall). by rewrite length_fmap. }
  rewrite Htrue in Hzero |- *. split; [done|].
  rewrite keep_rows_replicate in Hzero.
  (* the converted matrix is a matrix of zeros too *)
  assert (∀ s, s ∈ abs_sum <$> rows_of (scores_X a) → ∃ q, s = Fin q ∧ (q == 0)%Q) as Hzero'.
  { intros s Hs. apply list_elem_of_fmap in Hs as (row' & -> & Hrow').
    rewrite Hrows in Hrow'. apply list_elem_of_fmap in Hrow' as (row & -> & Hrow).
    apply abs_sum_zero. intros y Hy. apply list_elem_of_fmap in Hy as (y0 & -> & Hy0).
    destruct (Hzero y0) as (q & -> & Hq); [apply list_elem_of_join; by exists row|].
    by apply Hfzero. }
  destruct (np_percentile_zeros _ (abs_sum <$> rows_of (scores_X a)) _ _ Hcut Hnan)
    as (v & Hcut' & Hv); [by rewrite !length_fmap, Hrows, length_fmap|done|].
  rewrite keep_mask_positive, Hcut' by done. f_equal.
  rewrite fmap_all_true.
  - by rewrite length_fmap, Hrows, length_fmap.
  - intros s Hs. destruct (Hzero' s Hs) as (q & -> & Hq). simpl.
    apply Qle_bool_iff. rewrite Hv, Hq. done.
Qed.

(** The same for a NaN among the kept cells: it is there only when no
    percentile filter is asked for. *)
Lemma keep_mask_nan (a : ndarray) (p : Q) (mask : list bool) :
  keep_mask (rows_of a) p = Ok mask →
  NaN ∈ mjoin (keep_rows mask (rows_of a)) →
  mask = replicate (length (rows_of a)) true ∧
  keep_mask (rows_of (scores_X a)) p = Ok mask.
Proof.
  intros Hmask Hnan.
  destruct (scores_X_rows a) as (f & Hrows & _ & _).
  destruct (Qle_bool p 0) eqn:Hp.
  { apply Qle_bool_iff in Hp. rewrite keep_mask_nonpositive in Hmask by done.
    injection Hmask as <-. split; [done|].
    rewrite keep_mask_nonpositive by done. by rewrite Hrows, length_fmap. }
  exfalso. rewrite keep_mask_positive in Hmask by done.
  destruct (np_percentile (abs_sum <$> rows_of a) p) as [cutoff| |] eqn:Hcut; [|done..].
  injection Hmask as <-.
  apply list_elem_of_join in Hnan as (row & Hx & Hrow).
  pose proof (keep_rows_subseteq _ _ _ Hrow) as Hrow'.
  assert (cutoff = NaN) as ->.
  { apply (np_percentile_nan (abs_sum <$> rows_of a) p); [|done].
    apply list_elem_of_fmap. exists row. by rewrite abs_sum_nan. }
  rewrite keep_rows_none in Hrow; [by apply elem_of_nil in Hrow|].
  apply Forall_fmap, Forall_forall. intros s _. simpl. by destruct s.
Qed.

(** The two cases on the matrix the function works on. *)
Lemma heatmap_of_zeros_converted (adata : AnnData) (p : Q) (basis key : string)
    (save : option string) (w : world) (l : nat) (a : ndarray)
    (vocab : gmap nat string) (mask : list bool) :
  uns_array adata !! key = Some l →
  arrays w !! l = Some a →
  uns_vocabulary adata !! (basis +:+ "_vocabulary") = Some vocab →
  size vocab = nd_cols a →
  keep_mask (rows_of (scores_X a)) p = Ok mask →
  mjoin (keep_rows mask (rows_of (scores_X a))) ≠ [] →
  all_zero (keep_rows mask (rows_of (scores_X a))) →
  ∃ w' ax X,
    residue_scores adata p basis key save w = (w', Ok ax) ∧
    drew_heatmap w w' X ∧
    ∀ r c, is_Some (cell (keep_rows mask (rows_of (scores_X a))) r c) →
           cell X r c = Some NaN.
Proof.
  intros Hl Ha Hvocab Hsize Hmask Hne Hzero.
  destruct (color_end_zero _ Hne Hzero) as (e & Hend & He).
  destruct (residue_scores_heatmap adata p basis key save w l a vocab mask (Fin e))
    as (w' & ax & Hrun & Hdrew); [done..|].
  exists w', ax, (scale (keep_rows mask (rows_of (scores_X a))) (Fin e)).
  split_and!; [done..|].
  intros r c [x Hx]. rewrite cell_scale, Hx. simpl.
  destruct (Hzero x) as (q & -> & Hq); [by eapply cell_elem_of|].
  simpl. apply Qeq_bool_iff in He, Hq. by rewrite He, Hq.
Qed.

Lemma heatmap_with_nan_converted (adata : AnnData) (p : Q) (basis key : string)
    (save : option string) (w : world) (l : nat) (a : ndarray)
    (vocab : gmap nat string) (mask : list bool) :
  uns_array adata !! key = Some l →
  arrays w !! l = Some a →
  uns_vocabulary adata !! (basis +:+ "_vocabulary") = Some vocab →
  size vocab = nd_cols a →
  keep_mask (rows_of (scores_X a)) p = Ok mask →
  NaN ∈ mjoin (keep_rows mask (rows_of (scores_X a))) →
  ∃ w' ax X,
    residue_scores adata p basis key save w = (w', Ok ax) ∧
    drew_heatmap w w' X ∧
    ∀ r c, is_Some (cell (keep_rows mask (rows_of (scores_X a))) r c) →
           cell X r c = Some NaN.
Proof.
  intros Hl Ha Hvocab Hsize Hmask Hnan.
  destruct (residue_scores_heatmap adata p basis key save w l a vocab mask NaN)
    as (w' & ax & Hrun & Hdrew); [done..|by apply color_end_nan|].
  exists w', ax, (scale (keep_rows mask (rows_of (scores_X a))) NaN).
  split_and!; [done..|].
  intros r c [x Hx]. rewrite cell_scale, Hx. simpl. by destruct x.
Qed.

(** X15. A score matrix of zeros has [end = 0], and the division leaves NaN in
    every cell of the heatmap: the call draws it all the same. *)
Theorem heatmap_of_zeros (adata : AnnData) (p : Q) (basis key : string)
    (save : option string) (w : world) (l : nat) (a : ndarray)
    (vocab : gmap nat string) (mask : list bool) :
  uns_array adata !! key = Some l →
  arrays w !! l = Some a →
  uns_vocabulary adata !! (basis +:+ "_vocabulary") = Some vocab →
  size vocab = nd_cols a →
  keep_mask (rows_of a) p = Ok mask →
  mjoin (keep_rows mask (rows_of a)) ≠ [] →
  all_zero (keep_rows mask (rows_of a)) →
  ∃ w' ax X,
    residue_scores adata p basis key save w = (w', Ok ax) ∧
    drew_heatmap w w' X ∧
    ∀ r c, is_Some (cell (keep_rows mask (rows_of a)) r c) → cell X r c = Some NaN.
Proof.
  intros Hl Ha Hvocab Hsize Hmask Hne Hzero.
  destruct (keep_mask_zeros a p mask Hmask Hne Hzero) as [-> Hmask'].
  destruct (scores_X_rows a) as (f & Hrows & _ & Hfzero).
  rewrite keep_rows_replicate in Hne, Hzero |- *.
  assert (keep_rows (replicate (length (rows_of a)) true) (rows_of (scores_X a))
          = rows_of (scores_X a)) as Hkeep.
  { rewrite <- (keep_rows_replicate (rows_of (scores_X a))) at 2.
    by rewrite Hrows, length_fmap. }
  destruct (heatmap_of_zeros_converted adata p basis key save w l a vocab _
              Hl Ha Hvocab Hsize Hmask') as (w' & ax & X & Hrun & Hdrew & Hcells).
  - rewrite Hkeep, Hrows, join_fmap_rows. intros Hnil. apply Hne.
    by apply fmap_nil_inv in Hnil.
  - unfold all_zero. rewrite Hkeep, Hrows, join_fmap_rows.
    intros x (y & -> & Hy)%list_elem_of_fmap.
    destruct (Hzero y Hy) as (q & -> & Hq). destruct (Hfzero q Hq) as (q' & -> & Hq').
    by exists q'.
  - exists w', ax, X. split_and!; [done..|]. intros r c Hcell. apply Hcells.
    rewrite Hkeep, Hrows, cell_fmap. by apply fmap_is_Some.
Qed.

Lemma heatmap_of_zeros_witness :
  ∃ w' ax X,
    residue_scores example_adata 0 "onehot" "residue_scores" None zero_world = (w', Ok ax) ∧
    drew_heatmap zero_world w' X ∧ cell X 1 0 = Some NaN.
Proof.
  destruct (heatmap_of_zeros example_adata 0 "onehot" "residue_scores" None zero_world
              0 (NdArray float64 2 2 [Fin 0; Fin 0; Fin 0; Fin 0]) {[0 := "A"; 1 := "C"]}
              [true; true] eq_refl eq_refl eq_refl eq_refl eq_refl)
    as (w' & ax & X & Hrun & Hdrew & Hcells).
  - done.
  - intros x Hx. exists 0%Q. split; [|done].
    change (x ∈ [Fin 0; Fin 0; Fin 0; Fin 0]) in Hx. set_solver.
  - exists w', ax, X. split_and!; [done..|]. apply Hcells. by eexists.
Defined.

(** X16. One NaN among the cells that are drawn makes [end] NaN, and with it
    every cell of the heatmap. *)
Theorem heatmap_with_nan (adata : AnnData) (p : Q) (basis key : string)
    (save : option string) (w : world) (l : nat) (a : ndarray)
    (vocab : gmap nat string) (mask : list bool) :
  uns_array adata !! key = Some l →
  arrays w !! l = Some a →
  uns_vocabulary adata !! (basis +:+ "_vocabulary") = Some vocab →
  size vocab = nd_cols a →
  keep_mask (rows_of a) p = Ok mask →
  NaN ∈ mjoin (keep_rows mask (rows_of a)) →
  ∃ w' ax X,
    residue_scores adata p basis key save w = (w', Ok ax) ∧
    drew_heatmap w w' X ∧
    ∀ r c, is_Some (cell (keep_rows mask (rows_of a)) r c) → cell X r c = Some NaN.
Proof.
  intros Hl Ha Hvocab Hsize Hmask Hnan.
  destruct (keep_mask_nan a p mask Hmask Hnan) as [-> Hmask'].
  destruct (scores_X_rows a) as (f & Hrows & Hfnan & _).
  rewrite keep_rows_replicate in Hnan |- *.
  assert (keep_rows (replicate (length (rows_of a)) true) (rows_of (scores_X a))
          = rows_of (scores_X a)) as Hkeep.
  { rewrite <- (keep_rows_replicate (rows_of (scores_X a))) at 2.
    by rewrite Hrows, length_fmap. }
  destruct (heatmap_with_nan_converted adata p basis key save w l a vocab _
              Hl Ha Hvocab Hsize Hmask') as (w' & ax & X & Hrun & Hdrew & Hcells).
  - rewrite Hkeep, Hrows, join_fmap_rows. apply list_elem_of_fmap. by exists NaN.
  - exists w', ax, X. split_and!; [done..|]. intros r c Hcell. apply Hcells.
    rewrite Hkeep, Hrows, cell_fmap. by apply fmap_is_Some.
Qed.

Lemma heatmap_with_nan_witness :
  ∃ w' ax X,
    residue_scores example_adata 0 "onehot" "residue_scores" None nan_world = (w', Ok ax) ∧
    drew_heatmap nan_world w' X ∧ cell X 1 1 = Some NaN.
Proof.
  destruct (heatmap_with_nan example_adata 0 "onehot" "residue_scores" None nan_world
              0 (NdArray float64 2 2 [nat_cell 1; NaN; nat_cell 2; nat_cell 3])
              {[0 := "A"; 1 := "C"]}
              [true; true] eq_refl eq_refl eq_refl eq_refl eq_refl)
    as (w' & ax & X & Hrun & Hdrew & Hcells).
  - change (NaN ∈ [nat_cell 1; NaN; nat_cell 2; nat_cell 3]). set_solver.
  - exists w', ax, X. split_and!; [done..|]. apply Hcells. by eexists.
Defined.

(** X17. An infinite cell among the cells that are drawn (and no NaN) makes
    [end] infinite: the heatmap shows 0 for every finite cell and NaN for
    every infinite one. The cells are those of the float32 matrix the
    function works on, [scores_X a]: in a float64 score matrix a finite
    score beyond the float32 range is an infinite cell of it. This is what
    a score matrix looks like after the auto-selection of
    [residue_categories] has written its sentinel into it. *)
Theorem heatmap_with_infinity (adata : AnnData) (p : Q) (basis key : string)
    (save : option string) (w : world) (l : nat) (a : ndarray)
    (vocab : gmap nat string) (mask : list bool) :
  uns_array adata !! key = Some l →
  arrays w !! l = Some a →
  uns_vocabulary adata !! (basis +:+ "_vocabulary") = Some vocab →
  size vocab = nd_cols a →
  keep_mask (rows_of (scores_X a)) p = Ok mask →
  NaN ∉ mjoin (keep_rows mask (rows_of (scores_X a))) →
  PInf ∈ mjoin (keep_rows mask (rows_of (scores_X a))) ∨ NInf ∈ mjoin (keep_rows mask (rows_of (scores_X a))) →
  ∃ w' ax X,
    residue_scores adata p basis key save w = (w', Ok ax) ∧
    drew_heatmap w w' X ∧
    ∀ r c x, cell (keep_rows mask (rows_of (scores_X a))) r c = Some x →
             cell X r c = Some (if x is Fin _ then Fin 0 else NaN).
Proof.
  intros Hl Ha Hvocab Hsize Hmask Hnan Hinf.
  destruct (residue_scores_heatmap adata p basis key save w l a vocab mask PInf)
    as (w' & ax & Hrun & Hdrew); [done..|by apply color_end_infinite|].
  exists w', ax, (scale (keep_rows mask (rows_of (scores_X a))) PInf). split_and!; [done..|].
  intros r c x Hx. rewrite cell_scale, Hx. simpl. by destruct x.
Qed.

Lemma heatmap_with_infinity_witness :
  ∃ w' ax X,
    residue_scores example_adata 0 "onehot" "residue_scores" None huge_world = (w', Ok ax) ∧
    drew_heatmap huge_world w' X ∧
    cell X 0 0 = Some NaN ∧ cell X 0 1 = Some NaN ∧ cell X 1 1 = Some (Fin 0).
Proof.
  assert (mjoin (keep_rows [true; true]
                   (rows_of (scores_X (NdArray float64 2 2
                      [PInf; Fin (inject_Z (10 ^ 39)); nat_cell 2; nat_cell 3]))))
          = [PInf; PInf; nat_cell 2; nat_cell 3]) as Hcellseq by (by vm_compute).
  destruct (heatmap_with_infinity example_adata 0 "onehot" "residue_scores" None huge_world
              0 (NdArray float64 2 2 [PInf; Fin (inject_Z (10 ^ 39)); nat_cell 2; nat_cell 3])
              {[0 := "A"; 1 := "C"]}
              [true; true] eq_refl eq_refl eq_refl eq_refl eq_refl)
    as (w' & ax & X & Hrun & Hdrew & Hcells).
  - rewrite Hcellseq. clear Hcellseq.
    intros [[=]|[[=]|[[=]|[[=]|[]%elem_of_nil]%elem_of_cons]%elem_of_cons]%elem_of_cons]%elem_of_cons.
  - left. rewrite Hcellseq. apply list_elem_of_here.
  - clear Hcellseq. exists w', ax, X. split_and!; [exact Hrun|exact Hdrew| | |].
    + apply (Hcells 0 0 PInf). by vm_compute.
    + apply (Hcells 0 1 PInf). by vm_compute.
    + apply (Hcells 1 1 (nat_cell 3)). by vm_compute.
Defined.

Lemma residue_scores_store_witness :
  arrays (residue_scores example_adata 0 "onehot" "residue_scores" None spent_world).1 !! 0
  = Some (NdArray float64 2 2 [PInf; nat_cell 1; nat_cell 2; nat_cell 3]).
Proof.
  apply (residue_scores_store example_adata 0 "onehot" "residue_scores" None spent_world
           0 (NdArray float64 2 2 [PInf; nat_cell 1; nat_cell 2; nat_cell 3])
           {[0 := "A"; 1 := "C"]} [true; true] PInf);
    reflexivity.
Defined.

(** The rows kept by a mask, by their numbers: in ascending order, and
    those and only those the mask marks. *)
Lemma keep_rows_seq (mask : list bool) (n : nat) :
  ∀ i, StronglySorted lt (keep_rows mask (seq i n)) ∧
       ∀ r, r ∈ keep_rows mask (seq i n) ↔
            i ≤ r < i + n ∧ mask !! (r - i) = Some true.
Proof.
  revert mask. induction n as [|n IH]; intros mask i.
  - unfold keep_rows. destruct mask; simpl.
    + split; [constructor|]. intros r. rewrite elem_of_nil. lia.
    + split; [constructor|]. intros r. rewrite elem_of_nil. lia.
  - destruct mask as [|b mask].
    { unfold keep_rows. simpl. split; [constructor|]. intros r. rewrite elem_of_nil.
      split; [done|]. by intros [_ ?]. }
    destruct (IH mask (S i)) as [Hsorted Helem].
    assert (keep_rows (b :: mask) (seq i (S n))
            = if b then i :: keep_rows mask (seq (S i) n) else keep_rows mask (seq (S i) n))
      as -> by (unfold keep_rows; simpl; by destruct b).
    assert (∀ r, (i ≤ r < i + S n ∧ (b :: mask) !! (r - i) = Some true) ↔
                 (r = i ∧ b = true) ∨ (S i ≤ r < S i + n ∧ mask !! (r - S i) = Some true))
      as Hcase.
    { intros r. destruct (decide (r = i)) as [->|Hne].
      - rewrite Nat.sub_diag. simpl. split.
        + intros [_ [= ->]]. by left.
        + intros [[_ ->]|[? _]]; [|lia]. split; [lia|done].
      - split.
        + intros [Hr Hm]. right. split; [lia|].
          replace (r - i) with (S (r - S i)) in Hm by lia. done.
        + intros [[? _]|[Hr Hm]]; [done|]. split; [lia|].
          replace (r - i) with (S (r - S i)) by lia. done. }
    destruct b.
    + split.
      * constructor; [done|]. apply Forall_forall. intros r Hr. apply Helem in Hr. lia.
      * intros r. rewrite elem_of_cons, Hcase, Helem. naive_solver.
    + split; [done|]. intros r. rewrite Hcase, Helem. naive_solver.
Qed.

Lemma seq_sorted (n : nat) : ∀ i, Sorted le (seq i n).
Proof.
  induction n as [|n IH]; intros i; simpl; [constructor|].
  constructor; [apply IH|]. destruct n; simpl; constructor. lia.
Qed.

(** The column names of a vocabulary whose keys are the column numbers
    are its values, column by column. *)
Lemma var_names_dense (vocab : gmap nat string) (n : nat) :
  (∀ k, is_Some (vocab !! k) ↔ k < n) →
  var_names vocab = (fun k => default "" (vocab !! k)) <$> seq 0 n.
Proof.
  intros Hdense. unfold var_names. f_equal.
  apply (Sorted_unique le).
  - apply Sorted_merge_sort. apply _.
  - apply seq_sorted.
  - rewrite merge_sort_Permutation. apply NoDup_Permutation.
    + apply NoDup_elements.
    + apply NoDup_seq.
    + intros k. rewrite elem_of_elements, elem_of_dom, Hdense, elem_of_seq. lia.
Qed.

Lemma rows_of_row_of (a : ndarray) : rows_of a = row_of a <$> seq 0 (nd_rows a).
Proof. done. Qed.

(** X18. The heatmap that a successful [residue_scores] draws has one row for
    every row that was kept of the matrix the function works on
    ([scores_X a]), in the order of the matrix, each labelled with its row
    number there. The kept rows are all the rows when [percentile_keep] is
    not positive, and otherwise those whose sum of absolute values is at
    least the cutoff, the [percentile_keep]-th percentile of these sums
    over all the rows. Every kept row is drawn divided, cell by cell, by
    [end = max(|min|, max)], minimum and maximum being those of the cells
    of the kept rows. The columns are labelled with the vocabulary's
    values in the order of its keys. The figure is at least 5 by 5; it is
    saved under [figures/evolocity_<save>] and closed when [save] is
    given, and its drawing surface is returned otherwise. *)
Theorem heatmap_labels (adata : AnnData) (p : Q) (basis key : string)
    (save : option string) (w w' : world) (ax : option nat)
    (l : nat) (a : ndarray) (vocab : gmap nat string) :
  uns_array adata !! key = Some l →
  arrays w !! l = Some a →
  uns_vocabulary adata !! (basis +:+ "_vocabulary") = Some vocab →
  residue_scores adata p basis key save w = (w', Ok ax) →
  ∃ ks lo hi width height saved,
    trace w' = trace w ++
      [Figure (nfig w') (Some (width, height));
       Heatmap (nfig w')
               ((fun r => (fun x => fdiv x (py_max (fabs lo) hi)) <$> row_of (scores_X a) r)
                  <$> ks)
               (var_names vocab) (pretty <$> ks)] ++ saved ∧
    StronglySorted lt ks ∧ (∀ r, r ∈ ks → r < nd_rows a) ∧
    ((p <= 0)%Q → ks = seq 0 (nd_rows a)) ∧
    (¬ (p <= 0)%Q →
     ∃ cutoff,
       np_percentile ((fun r => abs_sum (row_of (scores_X a) r)) <$> seq 0 (nd_rows a)) p
         = Ok cutoff ∧
       ∀ r, r ∈ ks ↔ r < nd_rows a ∧ fge (abs_sum (row_of (scores_X a) r)) cutoff = true) ∧
    np_min (mjoin (row_of (scores_X a) <$> ks)) = Ok lo ∧
    np_max (mjoin (row_of (scores_X a) <$> ks)) = Ok hi ∧
    length (var_names vocab) = nd_cols a ∧
    ((∀ k, is_Some (vocab !! k) ↔ k < nd_cols a) →
     ∀ c, c < nd_cols a → var_names vocab !! c = vocab !! c) ∧
    5 ≤ width ∧ 5 ≤ height ∧
    saved = (if save is Some name
             then [Savefig ("figures/evolocity_" +:+ name); Close] else []) ∧
    ax = (if save is Some _ then None else Some (nfig w')).
Proof.
  intros Hl Ha Hvocab. rewrite residue_scores_cases, Hl, Ha, Hvocab.
  destruct (Nat.eqb (size vocab) (nd_cols a)) eqn:Hsize; simpl; [|done].
  apply Nat.eqb_eq in Hsize.
  destruct (scores_X_shape a) as (_ & Hrows & _).
  rewrite rows_of_row_of, Hrows.
  destruct (keep_mask (row_of (scores_X a) <$> seq 0 (nd_rows a)) p)
    as [mask|e|] eqn:Hmask; [|done..].
  rewrite keep_rows_fmap.
  destruct (color_end (row_of (scores_X a) <$> keep_rows mask (seq 0 (nd_rows a))))
    as [e|e|] eqn:Hend; [|done..].
  intros [= <- <-]. simpl.
  destruct (keep_rows_seq mask (nd_rows a) 0) as [Hsorted Helem].
  unfold color_end in Hend.
  destruct (np_min _) as [lo| |] eqn:Hlo; [|done..].
  destruct (np_max _) as [hi| |] eqn:Hhi; [|done..].
  injection Hend as <-.
  exists (keep_rows mask (seq 0 (nd_rows a))), lo, hi.
  eexists _, _, _. split_and!.
  - rewrite keep_rows_fmap. unfold scale.
    rewrite <- list_fmap_compose. reflexivity.
  - done.
  - intros r Hr. apply Helem in Hr. lia.
  - intros Hp. rewrite (keep_mask_nonpositive _ p Hp) in Hmask. injection Hmask as <-.
    rewrite length_fmap. apply keep_rows_replicate.
  - intros Hp. unfold keep_mask in Hmask.
    assert (Qle_bool p 0 = false) as Hp'.
    { apply not_true_is_false. by intros H%Qle_bool_iff. }
    rewrite Hp', <- list_fmap_compose in Hmask.
    change ((λ row : list float, overflow32 (foldl fadd (Fin 0) (fabs <$> row)))
              ∘ row_of (scores_X a))
      with (fun r => abs_sum (row_of (scores_X a) r)) in Hmask.
    destruct (np_percentile _ p) as [cutoff| |] eqn:Hcut; [|done..].
    injection Hmask as <-. exists cutoff. split; [done|].
    intros r. rewrite Helem, Nat.sub_0_r, !list_lookup_fmap. split.
    + intros [Hr Hm]. split; [lia|]. rewrite lookup_seq_lt in Hm by lia.
      simpl in Hm. by injection Hm.
    + intros [Hr Hm]. split; [lia|]. rewrite lookup_seq_lt by lia. simpl. by rewrite Hm.
  - done.
  - done.
  - by rewrite var_names_length.
  - intros Hdense c Hc. rewrite (var_names_dense vocab (nd_cols a) Hdense).
    rewrite list_lookup_fmap, lookup_seq_lt by done. simpl.
    destruct (proj2 (Hdense c) Hc) as [name ->]. done.
  - lia.
  - lia.
  - done.
  - done.
Qed.

Lemma heatmap_labels_witness :
  ∃ ks figsize X,
    (0 ∉ ks) ∧ (1 ∈ ks) ∧ (2 ∈ ks) ∧
    trace (residue_scores example_adata 50 "onehot" "residue_scores" None example_world).1
    = [Figure 1 figsize; Heatmap 1 X ["A"; "C"] (pretty <$> ks)].
Proof.
  destruct (heatmap_labels example_adata 50 "onehot" "residue_scores" None example_world
              (residue_scores example_adata 50 "onehot" "residue_scores" None example_world).1
              (Some 1) 0 example_scores {[0 := "A"; 1 := "C"]}
              eq_refl eq_refl eq_refl eq_refl)
    as (ks & lo & hi & width & height & saved & Htrace & _ & _ & _ & Hpos & _ & _ & _ & _ &
        _ & _ & Hsaved & _).
  destruct Hpos as (cutoff & Hcut & Hks); [unfold Qle; simpl; lia|].
  vm_compute in Hcut. injection Hcut as <-.
  exists ks. eexists _, _. split_and!.
  - intros [_ H]%Hks. vm_compute in H. discriminate H.
  - apply Hks. split; [simpl; lia|]. by vm_compute.
  - apply Hks. split; [simpl; lia|]. by vm_compute.
  - rewrite Htrace, Hsaved. reflexivity.
Defined.

(** ** The overlay of the selected positions *)













(** ** The overlay with a reference *)

Lemma length_list_ascii_of_string (s : string) :
  length (String.list_ascii_of_string s) = String.length s.
Proof. induction s as [|c s IH]; simpl; by f_equal. Qed.

Lemma nongap_columns_length (msa : list ascii) (idx : nat) :
  length (nongap_columns msa idx) = length (degap msa).
Proof.
  revert idx. induction msa as [|ch rest IH]; intros idx; [done|].
  simpl. unfold degap in *. destruct (decide (ch = "-"%char)) as [->|Hch].
  - rewrite filter_cons_False by (intros H; by apply H). apply IH.
  - rewrite filter_cons_True by done. simpl. by rewrite IH.
Qed.

(** The [i]-th character of the ungapped sequence stands in the column of
    the [i]-th non-gap character. *)
Lemma ith_nongap_column_char (msa : list ascii) (i j : nat) :
  ith_nongap_column msa i j →
  ∃ ch, msa !! j = Some ch ∧ degap msa !! i = Some ch.
Proof.
  intros (ch & Hch & Hgap & Hlen). exists ch. split; [done|].
  rewrite <- (take_drop j msa). unfold degap in *. rewrite filter_app.
  rewrite lookup_app_r by lia. rewrite Hlen, Nat.sub_diag.
  rewrite (drop_S _ _ _ Hch). by rewrite filter_cons_True.
Qed.

(** The mapping of a reference whose gapped form agrees with its raw
    form. *)
Lemma reference_alignment_ok (seq_ref seq_ref_msa : string) :
  degap (String.list_ascii_of_string seq_ref_msa) = String.list_ascii_of_string seq_ref →
  ∃ pos2msa,
    reference_alignment seq_ref seq_ref_msa = Ok pos2msa ∧
    (∀ i, String.length seq_ref ≤ i → pos2msa !! i = None) ∧
    ∀ i, i < String.length seq_ref →
         ∃ j ch, pos2msa !! i = Some j ∧
                 String.get j seq_ref_msa = Some ch ∧ String.get i seq_ref = Some ch.
Proof.
  intros Hraw. unfold reference_alignment.
  destruct (pos2msa_loop_ok seq_ref (String.list_ascii_of_string seq_ref_msa) 0 ∅ 0)
    as (m & Hm & Hlook); [done|done|].
  exists m. split; [done|].
  assert (∀ i, m !! i = nongap_columns (String.list_ascii_of_string seq_ref_msa) 0 !! i)
    as Hcols.
  { intros i. rewrite Hlook. rewrite decide_False by lia. by rewrite Nat.sub_0_r. }
  split.
  - intros i Hi. rewrite Hcols. apply lookup_ge_None.
    by rewrite nongap_columns_length, Hraw, length_list_ascii_of_string.
  - intros i Hi.
    destruct (lookup_lt_is_Some_2 (nongap_columns (String.list_ascii_of_string seq_ref_msa) 0) i)
      as [j Hj].
    { by rewrite nongap_columns_length, Hraw, length_list_ascii_of_string. }
    pose proof Hj as Hj'. apply nongap_columns_spec in Hj' as (j' & -> & Hcol).
    apply ith_nongap_column_char in Hcol as (ch & Hch & Hi').
    exists (0 + j'), ch. rewrite Hcols, !string_get_lookup. simpl. split_and!; [done..|].
    by rewrite <- Hraw.
Qed.

Lemma residue_categories_reference (fuel : nat) (adata : AnnData)
    (positions : list nat) (n_plot : nat) (namespace : string) (ref : nat)
    (verbose : bool) (w : world) (seq_ref seq_ref_msa : string) (r : result (gmap nat nat)) :
  obs_seq adata !! ref = Some seq_ref →
  obs_seqs_msa adata !! ref = Some seq_ref_msa →
  reference_alignment seq_ref seq_ref_msa = r →
  residue_categories fuel adata (Some positions) n_plot namespace (Some ref) verbose w
  = match r with
    | Ok pos2msa => overlay_positions adata (Some pos2msa) namespace positions w
    | Raise e => (w, Raise e)
    | OutOfFuel => (w, OutOfFuel)
    end.
Proof.
  intros Hseq Hmsa Hr. unfold residue_categories.
  unfold bind at 1. unfold bind at 1, obs_lookup at 1. rewrite Hseq. unfold ret at 1.
  unfold bind at 1, obs_lookup at 1. rewrite Hmsa. unfold ret at 1.
  unfold bind at 1, lift at 1. rewrite Hr. by destruct r.
Qed.



(** X22. A position past the end of the reference has no entry in the mapping:
    the overlay stops there with the [KeyError] of that position, after
    the columns of the positions before it. The reference is checked
    first: a label that is not an observation raises its [KeyError], and a
    raw reference shorter than its aligned form [IndexError], both before
    anything is written or plotted. *)
Theorem residue_categories_reference_errors (fuel : nat) (adata : AnnData)
    (positions : list nat) (n_plot : nat) (namespace : string) (ref : nat)
    (verbose : bool) (w : world) :
  (obs_seq adata !! ref = None →
   residue_categories fuel adata (Some positions) n_plot namespace (Some ref) verbose w
   = (w, Raise (KeyError (pretty ref)))) ∧
  (∀ seq_ref seq_ref_msa c rest,
     obs_seq adata !! ref = Some seq_ref →
     obs_seqs_msa adata !! ref = Some seq_ref_msa →
     degap (String.list_ascii_of_string seq_ref_msa)
       = String.list_ascii_of_string seq_ref ++ c :: rest →
     residue_categories fuel adata (Some positions) n_plot namespace (Some ref) verbose w
     = (w, Raise IndexError)) ∧
  (∀ seq_ref seq_ref_msa pos after,
     obs_seq adata !! ref = Some seq_ref →
     obs_seqs_msa adata !! ref = Some seq_ref_msa →
     degap (String.list_ascii_of_string seq_ref_msa) = String.list_ascii_of_string seq_ref →
     positions = pos :: after →
     String.length seq_ref ≤ pos →
     residue_categories fuel adata (Some positions) n_plot namespace (Some ref) verbose w
     = (w, Raise (KeyError (pretty pos)))).
Proof.
  split_and!.
  - intros Hseq. unfold residue_categories.
    unfold bind at 1. unfold bind at 1, obs_lookup at 1. by rewrite Hseq.
  - intros seq_ref seq_ref_msa c rest Hseq Hmsa Hraw.
    rewrite (residue_categories_reference _ _ _ _ _ _ _ _ seq_ref seq_ref_msa
               (Raise IndexError)); [done..|].
    unfold reference_alignment.
    assert (∀ msa idx m k,
      degap msa = drop k (String.list_ascii_of_string seq_ref) ++ c :: rest →
      k ≤ String.length seq_ref →
      pos2msa_loop seq_ref msa idx m k = Raise IndexError) as Hloop.
    { induction msa as [|ch msa IH]; intros idx m k Hdegap Hk.
      - by destruct (drop k _).
      - simpl. unfold degap in Hdegap.
        destruct (decide (ch = "-"%char)) as [->|Hch].
        + rewrite filter_cons_False in Hdegap by (intros H; by apply H). by apply IH.
        + rewrite filter_cons_True in Hdegap by done.
          rewrite string_get_lookup.
          destruct (String.list_ascii_of_string seq_ref !! k) as [c'|] eqn:Hc; [|done].
          rewrite (drop_S _ _ _ Hc) in Hdegap. injection Hdegap as -> Hdegap.
          rewrite decide_True by done. apply IH; [done|].
          apply lookup_lt_Some in Hc. rewrite length_list_ascii_of_string in Hc. lia. }
    apply Hloop; [by rewrite drop_0|lia].
  - intros seq_ref seq_ref_msa pos after Hseq Hmsa Hraw -> Hpos.
    destruct (reference_alignment_ok seq_ref seq_ref_msa Hraw) as (m & Hm & Hnone & _).
    rewrite (residue_categories_reference _ _ _ _ _ _ _ _ seq_ref seq_ref_msa (Ok m))
      by done.
    simpl. unfold bind at 1, lift at 1.
    destruct (obs_seqs_msa adata) as [|seq seqs]; [done|].
    simpl. by rewrite (Hnone pos Hpos).
Qed.

Lemma residue_categories_reference_errors_witness :
  residue_categories 0 example_adata (Some [0]) 5 "residue_categories" (Some 7) true
                     example_world = (example_world, Raise (KeyError "7")) ∧
  residue_categories 0 example_adata (Some [2; 0]) 5 "residue_categories" (Some 0) true
                     example_world = (example_world, Raise (KeyError "2")).
Proof.
  destruct (residue_categories_reference_errors 0 example_adata [0] 5 "residue_categories"
              7 true example_world) as (Hlabel & _ & _).
  destruct (residue_categories_reference_errors 0 example_adata [2; 0] 5 "residue_categories"
              0 true example_world) as (_ & _ & Hpast).
  split.
  - by apply Hlabel.
  - by apply (Hpast "AC" "A-C" 2 [0]).
Defined.

(** ** More of the auto-selection *)

Lemma only_sentinels_refl (scores : ndarray) : only_sentinels scores scores.
Proof. split_and!; [done..|]. intros i x Hx. by right. Qed.

Lemma only_sentinels_trans (a b c : ndarray) :
  only_sentinels a b → only_sentinels b c → only_sentinels a c.
Proof.
  intros (? & ? & ? & ? & Hab) (? & ? & ? & ? & Hbc).
  split_and!; [congruence..|].
  intros i x Hx. destruct (Hbc i x Hx) as [?|Hb]; [by left|]. by apply Hab.
Qed.

Lemma only_sentinels_set_cell (a : ndarray) (m : nat) :
  only_sentinels a (set_cell a (unravel_index m a) PInf).
Proof.
  split_and!; [done..| |].
  - rewrite set_cell_data. by rewrite length_insert.
  - intros i x. rewrite set_cell_data. destruct (decide (i = m)) as [->|Hne].
    + intros Hx. left. apply list_lookup_insert_Some in Hx. naive_solver.
    + rewrite list_lookup_insert_ne by done. by right.
Qed.

(** What the loop keeps of the score matrix, whatever it comes to: its
    type and shape, and every cell but those it has overwritten with the
    sentinel, one of them in the row of every position it has recorded. *)
Lemma select_positions_sentinels (fuel : nat) (vocabulary : option (gmap nat string))
    (n_plot : nat) (verbose : bool) :
  ∀ st st' r,
    select_positions fuel vocabulary n_plot verbose st = (st', r) →
    only_sentinels (sel_scores st) (sel_scores st') ∧
    sel_seen st ⊆ sel_seen st' ∧
    ∀ pos, pos ∈ sel_seen st' →
           pos ∈ sel_seen st ∨
           ∃ i, i / nd_cols (sel_scores st) = pos ∧
                nd_data (sel_scores st') !! i = Some PInf.
Proof.
  induction fuel as [|fuel IH]; intros st st' r; simpl.
  - case_bool_decide; intros [= <- <-];
      (split_and!; [apply only_sentinels_refl|done|by left]).
  - case_bool_decide as Hlt.
    2:{ intros [= <- <-]. split_and!; [apply only_sentinels_refl|done|by left]. }
    destruct (np_argmin _) as [m|e|] eqn:Harg.
    2,3: intros [= <- <-]; (split_and!; [apply only_sentinels_refl|done|by left]).
    assert (m < length (nd_data (sel_scores st))) as Hm.
    { destruct (np_argmin_ok (nd_data (sel_scores st))) as (m' & Hm' & ?).
      - intros Hnil. by rewrite Hnil in Harg.
      - congruence. }
    pose proof (only_sentinels_set_cell (sel_scores st) m) as Hstep.
    destruct vocabulary as [vocab|].
    2:{ intros [= <- <-]. split_and!; [done|done|by left]. }
    destruct (vocab !! _) as [aa|].
    2:{ intros [= <- <-]. split_and!; [done|done|by left]. }
    case_decide as Hseen.
    + intros Hrun. apply IH in Hrun as (Hs & Hsub & Hrows). cbn [sel_scores sel_seen] in *.
      split_and!; [by eapply only_sentinels_trans|done|].
      intros pos Hpos. destruct (Hrows pos Hpos) as [?|(i & Hi & Hinf)]; [by left|].
      right. exists i. split; [|done]. by rewrite <- Hi.
    + intros Hrun. apply IH in Hrun as (Hs & Hsub & Hrows). cbn [sel_scores sel_seen] in *.
      split_and!; [by eapply only_sentinels_trans|set_solver|].
      intros pos Hpos. destruct (Hrows pos Hpos) as [Hin|(i & Hi & Hinf)].
      * apply elem_of_union in Hin as [?|Hin]; [by left|].
        apply elem_of_singleton in Hin as ->. right. exists m. split; [done|].
        destruct Hs as (_ & _ & _ & Hlen & Hcells).
        destruct (lookup_lt_is_Some_2 (nd_data (sel_scores st')) m) as [x Hx].
        { rewrite Hlen, set_cell_data, length_insert. done. }
        rewrite Hx. f_equal. destruct (Hcells m x Hx) as [?|Hold]; [done|].
        rewrite set_cell_data in Hold. apply list_lookup_insert_Some in Hold. naive_solver.
      * right. exists i. split; [|done]. by rewrite <- Hi.
Qed.

(** What the loop logs: nothing when not verbose, and otherwise one
    message for every position it records, numbered from the number of
    positions recorded so far. *)
Lemma select_positions_log (fuel : nat) (vocabulary : option (gmap nat string))
    (n_plot : nat) (verbose : bool) :
  ∀ st st' r,
    select_positions fuel vocabulary n_plot verbose st = (st', r) →
    sel_seen st ⊆ sel_seen st' ∧
    ∃ msgs,
      sel_log st' = sel_log st ++ msgs ∧
      length msgs = (if verbose then size (sel_seen st') - size (sel_seen st) else 0) ∧
      ∀ k m, msgs !! k = Some m →
             ∃ aa pos, pos ∈ sel_seen st' ∧
                       m = LoggInfo (lowest_score_message (size (sel_seen st) + S k) aa pos).
Proof.
  assert (∀ st : selection,
    sel_seen st ⊆ sel_seen st ∧
    ∃ msgs,
      sel_log st = sel_log st ++ msgs ∧
      length msgs = (if verbose then size (sel_seen st) - size (sel_seen st) else 0) ∧
      ∀ k m, msgs !! k = Some m →
             ∃ aa pos, pos ∈ sel_seen st ∧
                       m = LoggInfo (lowest_score_message (size (sel_seen st) + S k) aa pos))
    as Hstay.
  { intros st. split; [done|]. exists []. rewrite app_nil_r.
    split_and!; [done|destruct verbose; simpl; lia|]. by intros k m Hk. }
  induction fuel as [|fuel IH]; intros st st' r; simpl.
  - case_bool_decide; intros [= <- <-]; apply Hstay.
  - case_bool_decide as Hlt.
    2:{ intros [= <- <-]. apply Hstay. }
    destruct (np_argmin _) as [m|e|] eqn:Harg.
    2,3: intros [= <- <-]; apply Hstay.
    destruct vocabulary as [vocab|].
    2:{ intros [= <- <-]. apply (Hstay (Selection _ _ _)). }
    destruct (vocab !! _) as [aa|].
    2:{ intros [= <- <-]. apply (Hstay (Selection _ _ _)). }
    case_decide as Hseen.
    + intros Hrun. by apply IH in Hrun.
    + intros Hrun. apply IH in Hrun as (Hsub & msgs & Hlog & Hlen & Hmsgs).
      cbn [sel_scores sel_seen sel_log] in *.
      assert (size (sel_seen st ∪ {[m / nd_cols (sel_scores st)]}) = S (size (sel_seen st)))
        as Hsize.
      { rewrite size_union by set_solver. rewrite size_singleton. lia. }
      pose proof (subseteq_size _ _ Hsub) as Hle. rewrite Hsize in Hle.
      split; [set_solver|].
      destruct verbose.
      * exists (LoggInfo (lowest_score_message (S (size (sel_seen st))) aa
                            (m / nd_cols (sel_scores st))) :: msgs).
        split_and!.
        -- rewrite Hlog, Hsize. by rewrite <- app_assoc.
        -- simpl. rewrite Hlen, Hsize. lia.
        -- intros [|k] msg Hk; simpl in Hk.
           ++ injection Hk as <-. exists aa, (m / nd_cols (sel_scores st)).
              split; [set_solver|]. by rewrite Nat.add_1_r.
           ++ destruct (Hmsgs k msg Hk) as (aa' & pos & Hpos & ->).
              exists aa', pos. split; [done|]. rewrite Hsize. do 2 f_equal. lia.
      * exists msgs. split_and!; [done..|].
        intros k msg Hk. apply length_zero_iff_nil in Hlen. subst msgs. done.
Qed.

(** A loop that ends has recorded exactly [n_plot] positions, if it
    started with no more. *)
Lemma select_positions_count (fuel : nat) (vocabulary : option (gmap nat string))
    (n_plot : nat) (verbose : bool) :
  ∀ st st' seen,
    select_positions fuel vocabulary n_plot verbose st = (st', Ok seen) →
    size (sel_seen st) ≤ n_plot →
    seen = sel_seen st' ∧ size seen = n_plot.
Proof.
  induction fuel as [|fuel IH]; intros st st' seen; simpl.
  - case_bool_decide; [done|]. intros [= <- <-] ?. split; [done|lia].
  - case_bool_decide as Hlt.
    2:{ intros [= <- <-] ?. split; [done|lia]. }
    destruct (np_argmin _) as [m|e|] eqn:Harg; [|done..].
    destruct vocabulary as [vocab|]; [|done].
    destruct (vocab !! _) as [aa|]; [|done].
    case_decide as Hseen.
    + intros Hrun _. apply IH in Hrun; [done|]. cbn [sel_seen]. lia.
    + intros Hrun _. apply IH in Hrun; [done|]. cbn [sel_seen].
      rewrite size_union by set_solver. rewrite size_singleton. lia.
Qed.

(** [auto_select] as the loop from the stored matrix and no position. *)
Lemma auto_select_run (fuel : nat) (adata : AnnData) (n_plot : nat) (verbose : bool)
    (w : world) (l : nat) (scores : ndarray) :
  uns_array adata !! "residue_scores" = Some l →
  arrays w !! l = Some scores →
  auto_select fuel adata n_plot verbose w =
  (World (<[l := sel_scores (select_positions fuel (uns_vocabulary adata !! "onehot_vocabulary")
                               n_plot verbose (Selection scores ∅ [])).1]> (arrays w))
         (obs w) (nfig w)
         (trace w ++ sel_log (select_positions fuel (uns_vocabulary adata !! "onehot_vocabulary")
                                n_plot verbose (Selection scores ∅ [])).1),
   match (select_positions fuel (uns_vocabulary adata !! "onehot_vocabulary")
            n_plot verbose (Selection scores ∅ [])).2 with
   | Ok pos_seen => Ok (sorted_positions pos_seen)
   | Raise e => Raise e
   | OutOfFuel => OutOfFuel
   end).
Proof.
  intros Hl Ha. unfold auto_select, bind at 1, uns_lookup. rewrite Hl. unfold ret at 1.
  unfold bind at 1, read_array. rewrite Ha.
  destruct (select_positions _ _ _ _ _) as [st [seen|e|]]; done.
Qed.

Lemma auto_select_lookups (fuel : nat) (adata : AnnData) (n_plot : nat) (verbose : bool)
    (w w' : world) (positions : list nat) :
  auto_select fuel adata n_plot verbose w = (w', Ok positions) →
  ∃ l scores, uns_array adata !! "residue_scores" = Some l ∧ arrays w !! l = Some scores.
Proof.
  unfold auto_select, bind at 1, uns_lookup.
  destruct (uns_array adata !! "residue_scores") as [l|] eqn:Hl; [|done]. unfold ret at 1.
  unfold bind at 1, read_array. destruct (arrays w !! l) as [scores|] eqn:Ha; [|done].
  intros _. by exists l, scores.
Qed.

(** X23. An auto-selection that returns has found exactly [n_plot] positions,
    which it returns in ascending order; it has logged one message for
    each when verbose, the [k]-th numbered [k], and nothing otherwise; it
    has opened no figure and written no observation column. *)
Theorem auto_select_count (fuel : nat) (adata : AnnData) (n_plot : nat) (verbose : bool)
    (w w' : world) (positions : list nat) :
  auto_select fuel adata n_plot verbose w = (w', Ok positions) →
  length positions = n_plot ∧ StronglySorted lt positions ∧
  nfig w' = nfig w ∧ obs w' = obs w ∧
  ∃ msgs,
    trace w' = trace w ++ msgs ∧
    length msgs = (if verbose then n_plot else 0) ∧
    ∀ k m, msgs !! k = Some m →
           ∃ aa pos, pos ∈ positions ∧ m = LoggInfo (lowest_score_message (S k) aa pos).
Proof.
  intros Hrun.
  destruct (auto_select_lookups _ _ _ _ _ _ _ Hrun) as (l & scores & Hl & Ha).
  rewrite (auto_select_run _ _ _ _ _ l scores Hl Ha) in Hrun.
  destruct (select_positions fuel _ n_plot verbose (Selection scores ∅ []))
    as [st r] eqn:Hsel.
  simpl in Hrun. destruct r as [seen|e|]; [|done..].
  injection Hrun as <- <-.
  destruct (select_positions_count _ _ _ _ _ _ _ Hsel) as [-> Hsize].
  { cbn [sel_seen]. rewrite size_empty. lia. }
  destruct (select_positions_log _ _ _ _ _ _ _ Hsel) as (_ & msgs & Hlog & Hlen & Hmsgs).
  cbn [sel_seen sel_log] in *. rewrite size_empty in *.
  destruct (sorted_positions_spec (sel_seen st)) as [Hsorted Helem].
  split_and!; [|done..|].
  - unfold sorted_positions. rewrite merge_sort_Permutation.
    by rewrite <- Hsize.
  - simpl. exists msgs. split_and!.
    + by rewrite Hlog.
    + rewrite Hlen, Hsize. destruct verbose; lia.
    + intros k m Hk. destruct (Hmsgs k m Hk) as (aa & pos & Hpos & ->).
      exists aa, pos. split; [by apply Helem|done].
Qed.

Lemma auto_select_count_witness :
  ∃ w' positions msgs,
    auto_select 5 example_adata 5 true selection_world = (w', Ok positions) ∧
    length positions = 5 ∧ trace w' = msgs ∧ length msgs = 5.
Proof.
  destruct (auto_select_count 5 example_adata 5 true selection_world
              (auto_select 5 example_adata 5 true selection_world).1
              [0; 1; 2; 3; 4])
    as (Hlen & _ & _ & _ & msgs & Htrace & Hmsgs & _); [by vm_compute|].
  eexists _, [0; 1; 2; 3; 4], msgs. split_and!; [by vm_compute|done..].
Defined.

(** X24. Whatever the auto-selection comes to (a result, an error, or no end),
    the only change it makes to the world besides its log is in the
    stored score matrix, and there only cells overwritten with positive
    infinity: type, shape and every other cell are as before. Every
    position it returns has such a cell in its row. *)
Theorem auto_select_sentinels (fuel : nat) (adata : AnnData) (n_plot : nat)
    (verbose : bool) (w w' : world) (r : result (list nat)) (l : nat) (scores : ndarray) :
  uns_array adata !! "residue_scores" = Some l →
  arrays w !! l = Some scores →
  auto_select fuel adata n_plot verbose w = (w', r) →
  ∃ scores',
    arrays w' = <[l := scores']> (arrays w) ∧
    only_sentinels scores scores' ∧
    ∀ positions pos, r = Ok positions → pos ∈ positions →
      ∃ i, i / nd_cols scores = pos ∧ nd_data scores' !! i = Some PInf.
Proof.
  intros Hl Ha. rewrite (auto_select_run _ _ _ _ _ l scores Hl Ha).
  destruct (select_positions fuel _ n_plot verbose (Selection scores ∅ []))
    as [st r0] eqn:Hsel.
  simpl. intros [= <- <-].
  destruct (select_positions_sentinels _ _ _ _ _ _ _ Hsel) as (Hs & _ & Hrows).
  cbn [sel_scores sel_seen] in *.
  exists (sel_scores st). split_and!; [done..|].
  intros positions pos Hr Hpos. destruct r0 as [seen|e|]; [|done..].
  injection Hr as <-.
  assert (seen = sel_seen st) as ->.
  { apply (select_positions_count _ _ _ _ _ _ _ Hsel).
    cbn [sel_seen]. rewrite size_empty. lia. }
  apply sorted_positions_spec in Hpos.
  destruct (Hrows pos Hpos) as [Hin|Hin]; [set_solver|done].
Qed.

Lemma auto_select_sentinels_witness :
  ∃ w' scores',
    auto_select 5 example_adata 5 true selection_world = (w', Ok [0; 1; 2; 3; 4]) ∧
    arrays w' !! 0 = Some scores' ∧ only_sentinels selection_scores scores' ∧
    ∃ i, i / 2 = 3 ∧ nd_data scores' !! i = Some PInf.
Proof.
  destruct (auto_select_sentinels 5 example_adata 5 true selection_world
              (auto_select 5 example_adata 5 true selection_world).1
              (Ok [0; 1; 2; 3; 4]) 0 selection_scores eq_refl eq_refl)
    as (scores' & Harr & Hs & Hrows); [by vm_compute|].
  exists (auto_select 5 example_adata 5 true selection_world).1, scores'.
  split_and!; [by vm_compute| |done|].
  - rewrite Harr. apply lookup_insert_eq.
  - clear Harr Hs.
    destruct (Hrows [0; 1; 2; 3; 4] 3 eq_refl) as (i & Hi & Hcell).
    + do 3 apply list_elem_of_further. apply list_elem_of_here.
    + exists i. split; assumption.
Defined.

Lemma world_insert_id (w : world) (l : nat) (a : ndarray) :
  arrays w !! l = Some a →
  World (<[l := a]> (arrays w)) (obs w) (nfig w) (trace w ++ []) = w.
Proof. intros Ha. rewrite insert_id, app_nil_r by done. by destruct w. Qed.

(** X25. With [n_plot = 0] the auto-selection selects nothing: the call reads
    the score matrix (its absence is still a [KeyError]) and leaves
    everything as it was, with no plot made. *)
Theorem residue_categories_no_positions (fuel : nat) (adata : AnnData)
    (namespace : string) (verbose : bool) (w : world) :
  (uns_array adata !! "residue_scores" = None →
   residue_categories fuel adata None 0 namespace None verbose w
   = (w, Raise (KeyError "residue_scores"))) ∧
  (∀ l scores, uns_array adata !! "residue_scores" = Some l → arrays w !! l = Some scores →
     residue_categories fuel adata None 0 namespace None verbose w = (w, Ok tt)).
Proof.
  split.
  - intros Hl. unfold residue_categories, bind at 1. unfold ret at 1.
    unfold bind at 1, auto_select, bind at 1, uns_lookup. by rewrite Hl.
  - intros l scores Hl Ha. unfold residue_categories, bind at 1. unfold ret at 1.
    unfold bind at 1. rewrite (auto_select_run _ _ _ _ _ l scores Hl Ha).
    rewrite select_positions_done by (cbn [sel_seen]; lia). cbn [fst snd sel_scores sel_log sel_seen].
    rewrite world_insert_id by done. done.
Qed.

Lemma residue_categories_no_positions_witness :
  residue_categories 0 example_adata None 0 "residue_categories" None true example_world
  = (example_world, Ok tt).
Proof.
  by apply (proj2 (residue_categories_no_positions 0 example_adata "residue_categories"
                     true example_world) 0 example_scores).
Defined.

(** X26. The lowest cell is overwritten before its category is looked up: when
    the vocabulary is missing, or has no entry for the column of the
    lowest cell, the auto-selection raises the [KeyError] of that lookup
    and leaves the sentinel where the lowest score was. *)
Theorem auto_select_vocabulary_error (fuel : nat) (adata : AnnData) (n_plot : nat)
    (verbose : bool) (w : world) (l : nat) (scores : ndarray) (m : nat) :
  uns_array adata !! "residue_scores" = Some l →
  arrays w !! l = Some scores →
  np_argmin (nd_data scores) = Ok m →
  0 < n_plot →
  match uns_vocabulary adata !! "onehot_vocabulary" with
  | Some vocab => vocab !! (m mod nd_cols scores) = None
  | None => True
  end →
  ∃ scores',
    auto_select (S fuel) adata n_plot verbose w
    = (World (<[l := scores']> (arrays w)) (obs w) (nfig w) (trace w),
       Raise (KeyError (if uns_vocabulary adata !! "onehot_vocabulary" is Some _
                        then pretty (m mod nd_cols scores) else "onehot_vocabulary"))) ∧
    nd_data scores' = <[m := PInf]> (nd_data scores).
Proof.
  intros Hl Ha Hm Hn Hvocab.
  rewrite (auto_select_run _ _ _ _ _ l scores Hl Ha).
  exists (set_cell scores (unravel_index m scores) PInf). split; [|apply set_cell_data].
  assert (select_positions (S fuel) (uns_vocabulary adata !! "onehot_vocabulary")
            n_plot verbose (Selection scores ∅ [])
          = (Selection (set_cell scores (unravel_index m scores) PInf) ∅ [],
             Raise (KeyError (if uns_vocabulary adata !! "onehot_vocabulary" is Some _
                              then pretty (m mod nd_cols scores)
                              else "onehot_vocabulary")))) as ->.
  { assert (size (∅ : gset nat) < n_plot) as Hlt by (rewrite size_empty; lia).
    simpl. rewrite bool_decide_eq_true_2 by exact Hlt.
    rewrite Hm. destruct (uns_vocabulary adata !! "onehot_vocabulary") as [vocab|]; [|done].
    simpl. by rewrite Hvocab. }
  simpl. by rewrite app_nil_r.
Qed.

Lemma auto_select_vocabulary_error_witness :
  ∃ scores',
    auto_select 1 unlabelled_adata 5 true example_world
    = (World {[0 := scores']} ∅ 0 [], Raise (KeyError "onehot_vocabulary")) ∧
    nd_data scores' = [nat_cell 5; nat_cell 1; PInf; nat_cell 7; nat_cell 2; nat_cell 9].
Proof.
  destruct (auto_select_vocabulary_error 0 unlabelled_adata 5 true example_world
              0 example_scores 2 eq_refl eq_refl eq_refl) as (scores' & Hrun & Hdata);
    [lia|done|].
  exists scores'. split; [|exact Hdata].
  rewrite Hrun. simpl. by rewrite insert_singleton_eq.
Defined.

Lemma argmin_from_nan (rest : list float) :
  ∀ j k mp min_ind,
    isnan mp = false →
    rest !! j = Some NaN →
    (∀ j', j' < j → rest !! j' ≠ Some NaN) →
    argmin_from rest k mp min_ind = k + j.
Proof.
  induction rest as [|x rest IH]; intros j k mp min_ind Hmp Hj Hfirst; [done|].
  destruct j as [|j]; simpl in *.
  - injection Hj as ->. destruct mp; simpl; try done; lia.
  - assert (isnan x = false) as Hx.
    { destruct x; try done. by destruct (Hfirst 0 ltac:(lia)). }
    rewrite Hx.
    assert (∀ j', j' < j → rest !! j' ≠ Some NaN) as Hfirst'.
    { intros j' Hj'. apply (Hfirst (S j')). lia. }
    destruct (negb (fge x mp)).
    + rewrite (IH j (S k) x k); [lia|done..].
    + rewrite (IH j (S k) mp min_ind); [lia|done..].
Qed.

(** [np.argmin] of cells with a NaN is the place of the first NaN. *)
Lemma np_argmin_nan (cells : list float) (i : nat) :
  cells !! i = Some NaN →
  (∀ j, j < i → cells !! j ≠ Some NaN) →
  np_argmin cells = Ok i.
Proof.
  destruct cells as [|x rest]; [done|]. intros Hi Hfirst. simpl.
  destruct i as [|i]; simpl in Hi.
  - by injection Hi as ->.
  - assert (isnan x = false) as Hx.
    { destruct x; try done. by destruct (Hfirst 0 ltac:(lia)). }
    rewrite Hx. f_equal. rewrite (argmin_from_nan rest i 1 x 0); [done..|].
    intros j' Hj'. apply (Hfirst (S j')). lia.
Qed.

(** X27. A NaN score counts as the lowest: asked for one position, the
    auto-selection returns the row of the first NaN of the matrix, and
    overwrites that cell with the sentinel. *)
Theorem auto_select_nan_first (fuel : nat) (adata : AnnData) (verbose : bool)
    (w : world) (l : nat) (scores : ndarray) (vocab : gmap nat string)
    (i : nat) (aa : string) :
  uns_array adata !! "residue_scores" = Some l →
  arrays w !! l = Some scores →
  uns_vocabulary adata !! "onehot_vocabulary" = Some vocab →
  nd_data scores !! i = Some NaN →
  (∀ j, j < i → nd_data scores !! j ≠ Some NaN) →
  vocab !! (i mod nd_cols scores) = Some aa →
  ∃ scores',
    auto_select (S fuel) adata 1 verbose w
    = (World (<[l := scores']> (arrays w)) (obs w) (nfig w)
             (trace w ++ if verbose
                         then [LoggInfo (lowest_score_message 1 aa (i / nd_cols scores))]
                         else []),
       Ok [i / nd_cols scores]) ∧
    nd_data scores' = <[i := PInf]> (nd_data scores).
Proof.
  intros Hl Ha Hvocab Hi Hfirst Haa.
  rewrite (auto_select_run _ _ _ _ _ l scores Hl Ha), Hvocab.
  exists (set_cell scores (unravel_index i scores) PInf). split; [|apply set_cell_data].
  rewrite (select_positions_step fuel vocab 1 verbose _ i aa);
    [|cbn [sel_seen]; rewrite size_empty; lia|by apply np_argmin_nan|done].
  cbn [sel_scores sel_seen sel_log]. rewrite decide_False by set_solver.
  rewrite select_positions_done.
  2:{ cbn [sel_seen]. rewrite size_union by set_solver.
      rewrite size_empty, size_singleton. lia. }
  cbn [fst snd sel_scores sel_seen sel_log].
  assert (size (∅ ∪ {[i / nd_cols scores]} : gset nat) = 1) as ->.
  { rewrite size_union by set_solver. by rewrite size_empty, size_singleton. }
  assert (sorted_positions (∅ ∪ {[i / nd_cols scores]}) = [i / nd_cols scores]) as ->.
  { unfold sorted_positions. rewrite (left_id_L ∅ (∪)), elements_singleton. done. }
  by destruct verbose.
Qed.

Lemma auto_select_nan_first_witness :
  ∃ w', auto_select 1 example_adata 1 true nan_world = (w', Ok [0]) ∧
        trace w' = [LoggInfo "Lowest score 1: C1"].
Proof.
  destruct (auto_select_nan_first 0 example_adata true nan_world 0
              (NdArray float64 2 2 [nat_cell 1; NaN; nat_cell 2; nat_cell 3])
              {[0 := "A"; 1 := "C"]} 1 "C" eq_refl eq_refl eq_refl eq_refl)
    as (scores' & Hrun & _).
  - intros [|j] Hj; [done|lia].
  - done.
  - eexists. split; [exact Hrun|done].
Defined.

(** ** The heatmap after an auto-selection *)

Lemma rows_of_join (a : ndarray) :
  length (nd_data a) = nd_rows a * nd_cols a → mjoin (rows_of a) = nd_data a.
Proof.
  intros Hlen. unfold rows_of.
  assert (∀ n, mjoin ((fun r => take (nd_cols a) (drop (r * nd_cols a) (nd_data a)))
                        <$> seq 0 n) = take (n * nd_cols a) (nd_data a)) as Hjoin.
  { induction n as [|n IH]; [done|].
    rewrite seq_S, fmap_app, join_app, IH. simpl. rewrite app_nil_r.
    rewrite take_take_drop. f_equal. lia. }
  rewrite Hjoin. apply take_ge. lia.
Qed.

Lemma cell_rows_of (a : ndarray) (r c : nat) :
  r < nd_rows a → c < nd_cols a →
  cell (rows_of a) r c = nd_data a !! (r * nd_cols a + c).
Proof.
  intros Hr Hc. unfold cell, rows_of.
  rewrite list_lookup_fmap, lookup_seq_lt by done. simpl.
  rewrite lookup_take_lt by done. by rewrite lookup_drop.
Qed.

Lemma overlay_positions_arrays (adata : AnnData) (pos2msa : option (gmap nat nat))
    (namespace : string) (positions : list nat) :
  ∀ w, arrays (overlay_positions adata pos2msa namespace positions w).1 = arrays w.
Proof.
  induction positions as [|pos rest IH]; intros w; [done|].
  simpl. unfold bind at 1, lift at 1.
  destruct (mapM_result _ _) as [col|e|]; [|done..].
  unfold bind, set_obs, emit. simpl. by rewrite IH.
Qed.

(** The conversion to float32 makes no NaN and keeps the infinities. *)
Lemma float32_of_nan (x : float) : float32_of x = NaN → x = NaN.
Proof.
  destruct x as [| |q|]; try done. simpl. unfold round_float32.
  by repeat case_match.
Qed.

Lemma scores_X_length (a : ndarray) :
  length (nd_data (scores_X a)) = length (nd_data a).
Proof. unfold scores_X. destruct (nd_dtype a); [done|]. simpl. by rewrite length_fmap. Qed.

Lemma scores_X_cell (a : ndarray) (i : nat) (x : float) :
  nd_data a !! i = Some x →
  nd_data (scores_X a) !! i = Some x ∨ nd_data (scores_X a) !! i = Some (float32_of x).
Proof.
  intros Hx. unfold scores_X. destruct (nd_dtype a); [by left|]. right.
  simpl. by rewrite list_lookup_fmap, Hx.
Qed.

Lemma scores_X_cell_inv (a : ndarray) (i : nat) (y : float) :
  nd_data (scores_X a) !! i = Some y →
  ∃ x, nd_data a !! i = Some x ∧ (y = x ∨ y = float32_of x).
Proof.
  unfold scores_X. destruct (nd_dtype a).
  - intros Hy. exists y. by split; [|left].
  - simpl. rewrite list_lookup_fmap. destruct (nd_data a !! i) as [x|]; [|done].
    intros [= <-]. exists x. by split; [|right].
Qed.

(** A call of [residue_categories] that selects its positions itself and
    returns has run the auto-selection to its end, and the arrays are as
    the auto-selection left them. *)
Lemma residue_categories_auto (fuel : nat) (adata : AnnData) (n_plot : nat)
    (namespace : string) (reference : option nat) (verbose : bool) (w w1 : world) :
  residue_categories fuel adata None n_plot namespace reference verbose w = (w1, Ok tt) →
  ∃ w0 positions,
    auto_select fuel adata n_plot verbose w = (w0, Ok positions) ∧ arrays w1 = arrays w0.
Proof.
  unfold residue_categories. unfold bind at 1.
  assert (∃ r0,
    match reference with
    | None => ret None
    | Some ref =>
        let! seq_ref := obs_lookup (obs_seq adata) ref in
        let! seq_ref_msa := obs_lookup (obs_seqs_msa adata) ref in
        let! m := lift (reference_alignment seq_ref seq_ref_msa) in
        ret (Some m)
    end w = (w, r0)) as [r0 ->].
  { destruct reference as [ref|]; [|by eexists].
    unfold bind at 1, obs_lookup at 1.
    destruct (obs_seq adata !! ref) as [seq_ref|]; [|by eexists]. unfold ret at 1.
    unfold bind at 1, obs_lookup at 1.
    destruct (obs_seqs_msa adata !! ref) as [seq_ref_msa|]; [|by eexists]. unfold ret at 1.
    unfold bind at 1, lift at 1.
    destruct (reference_alignment seq_ref seq_ref_msa); by eexists. }
  destruct r0 as [pos2msa|e|]; [|done..].
  unfold bind at 1.
  destruct (auto_select fuel adata n_plot verbose w) as [w0 [positions|e|]]; [|done..].
  intros Hrun. exists w0, positions. split; [done|].
  pose proof (overlay_positions_arrays adata pos2msa namespace positions w0) as Harr.
  by rewrite Hrun in Harr.
Qed.

(** X28. [residue_categories] and [residue_scores] work on the same stored
    matrix. After a call of [residue_categories] that selected its
    positions itself (at least one), the heatmap of the whole matrix is
    spoilt by the sentinels left in it: every cell that is drawn is 0 or
    NaN, and NaN stands at least once in the row of every position that
    was selected. *)
Theorem heatmap_after_auto_selection (fuel : nat) (adata : AnnData) (n_plot : nat)
    (namespace : string) (reference : option nat) (verbose : bool)
    (p : Q) (basis : string) (save : option string) (w w1 : world)
    (l : nat) (scores : ndarray) (vocab : gmap nat string) :
  uns_array adata !! "residue_scores" = Some l →
  arrays w !! l = Some scores →
  length (nd_data scores) = nd_rows scores * nd_cols scores →
  NaN ∉ nd_data scores →
  uns_vocabulary adata !! (basis +:+ "_vocabulary") = Some vocab →
  size vocab = nd_cols scores →
  0 < n_plot → (p <= 0)%Q →
  residue_categories fuel adata None n_plot namespace reference verbose w = (w1, Ok tt) →
  ∃ w2 ax X positions,
    residue_scores adata p basis "residue_scores" save w1 = (w2, Ok ax) ∧
    drew_heatmap w1 w2 X ∧
    (∀ r c x, cell X r c = Some x → x = Fin 0 ∨ x = NaN) ∧
    (auto_select fuel adata n_plot verbose w).2 = Ok positions ∧
    ∀ pos, pos ∈ positions → ∃ c, cell X pos c = Some NaN.
Proof.
  intros Hl Ha Hshape Hnan Hvocab Hsize Hn Hp Hrun.
  apply residue_categories_auto in Hrun as (w0 & positions & Hsel & Harr).
  pose proof Hsel as Hsel'.
  rewrite (auto_select_run _ _ _ _ _ l scores Hl Ha) in Hsel'.
  destruct (select_positions fuel _ n_plot verbose (Selection scores ∅ []))
    as [st r0] eqn:Hloop.
  simpl in Hsel'. destruct r0 as [seen|e|]; [|done..]. injection Hsel' as <- <-.
  destruct (select_positions_sentinels _ _ _ _ _ _ _ Hloop)
    as ((Hdt & Hrows & Hcols & Hlen & Hcells) & _ & Hseen).
  destruct (select_positions_count _ _ _ _ _ _ _ Hloop) as [-> Hcount].
  { cbn [sel_seen]. rewrite size_empty. lia. }
  cbn [sel_scores sel_seen] in *.
  set (scores' := sel_scores st) in *.
  assert (arrays w1 !! l = Some scores') as Ha1.
  { rewrite Harr. simpl. apply lookup_insert_eq. }
  destruct (scores_X_shape scores') as (_ & Hrows' & Hcols').
  assert (mjoin (rows_of (scores_X scores')) = nd_data (scores_X scores')) as Hjoin.
  { apply rows_of_join. rewrite scores_X_length, Hrows', Hcols'.
    rewrite Hlen, Hrows, Hcols. done. }
  assert (∀ i, nd_data scores' !! i = Some PInf → nd_data (scores_X scores') !! i = Some PInf) as Hkept.
  { intros i Hi. by destruct (scores_X_cell _ _ _ Hi). }
  assert (∀ pos, pos ∈ sel_seen st →
            ∃ c, cell (rows_of (scores_X scores')) pos c = Some PInf) as Hinf.
  { intros pos Hpos. destruct (Hseen pos Hpos) as [Hin|(i & Hi & Hcell)]; [set_solver|].
    assert (0 < nd_cols scores) as Hc.
    { destruct (nd_cols scores); [|lia].
      apply lookup_lt_Some in Hcell. rewrite Hlen, Hshape in Hcell. lia. }
    exists (i mod nd_cols scores).
    rewrite cell_rows_of.
    - rewrite Hcols', Hcols, <- Hi, <- (Hkept _ Hcell). f_equal.
      pose proof (Nat.div_mod_eq i (nd_cols scores)). lia.
    - rewrite Hrows', Hrows, <- Hi. apply Nat.Div0.div_lt_upper_bound.
      apply lookup_lt_Some in Hcell. rewrite Hlen, Hshape in Hcell. lia.
    - rewrite Hcols', Hcols. by apply Nat.mod_upper_bound, Nat.neq_0_lt_0. }
  assert (keep_rows (replicate (length (rows_of (scores_X scores'))) true) (rows_of (scores_X scores'))
          = rows_of (scores_X scores')) as Hkeep by apply keep_rows_replicate.
  destruct (residue_scores_heatmap adata p basis "residue_scores" save w1 l scores' vocab
              (replicate (length (rows_of (scores_X scores'))) true) PInf)
    as (w2 & ax & Hdraw & Hdrew); [done..|by rewrite Hcols|by apply keep_mask_nonpositive| |].
  { rewrite Hkeep. apply color_end_infinite; rewrite Hjoin.
    - intros Hin. apply list_elem_of_lookup in Hin as [i Hi].
      apply scores_X_cell_inv in Hi as (x & Hx & Hy).
      assert (x = NaN) as -> by (destruct Hy as [<-|Hy]; [done|by apply float32_of_nan]).
      destruct (Hcells i NaN Hx) as [?|Hold]; [done|].
      apply Hnan. by eapply list_elem_of_lookup_2.
    - left. assert (∃ pos, pos ∈ sel_seen st) as [pos Hpos].
      { apply size_pos_elem_of. lia. }
      destruct (Hseen pos Hpos) as [Hin|(i & _ & Hcell)]; [set_solver|].
      eapply list_elem_of_lookup_2. by apply Hkept. }
  rewrite Hkeep in Hdrew.
  exists w2, ax, (scale (rows_of (scores_X scores')) PInf), (sorted_positions (sel_seen st)).
  split_and!; [done..| |by rewrite Hsel|].
  - intros r c x. rewrite cell_scale. destruct (cell (rows_of (scores_X scores')) r c) as [y|]; [|done].
    simpl. intros [= <-]. destruct y; simpl; auto.
  - intros pos Hpos. apply sorted_positions_spec in Hpos.
    destruct (Hinf pos Hpos) as [c Hc]. exists c. by rewrite cell_scale, Hc.
Qed.

Lemma heatmap_after_auto_selection_witness :
  ∃ w1 w2 ax X,
    residue_categories 2 example_adata None 2 "residue_categories" None true example_world
      = (w1, Ok tt) ∧
    residue_scores example_adata 0 "onehot" "residue_scores" None w1 = (w2, Ok ax) ∧
    drew_heatmap w1 w2 X ∧ ∃ c, cell X 1 c = Some NaN.
Proof.
  destruct (heatmap_after_auto_selection 2 example_adata 2 "residue_categories" None true
              0 "onehot" None example_world
              (residue_categories 2 example_adata None 2 "residue_categories" None true
                 example_world).1
              0 example_scores {[0 := "A"; 1 := "C"]} eq_refl eq_refl eq_refl)
    as (w2 & ax & X & positions & Hrun & Hdrew & _ & Hsel & Hnan).
  - change (NaN ∉ [nat_cell 5; nat_cell 1; nat_cell 0; nat_cell 7; nat_cell 2; nat_cell 9]).
    set_solver.
  - reflexivity.
  - reflexivity.
  - lia.
  - done.
  - by vm_compute.
  - eexists _, w2, ax, X. split_and!; [by vm_compute|exact Hrun|exact Hdrew|].
    apply Hnan.
    assert ((auto_select 2 example_adata 2 true example_world).2 = Ok [0; 1]) as Hpos
      by (by vm_compute).
    rewrite Hpos in Hsel. injection Hsel as <-. set_solver.
Defined.

(** ** When the heatmap is drawn *)

Lemma rows_of_width (a : ndarray) (row : list float) :
  length (nd_data a) = nd_rows a * nd_cols a →
  row ∈ rows_of a → length row = nd_cols a.
Proof.
  intros Hlen Hrow. unfold rows_of in Hrow.
  apply list_elem_of_fmap in Hrow as (r & -> & Hr). apply elem_of_seq in Hr.
  rewrite length_take, length_drop. nia.
Qed.

Lemma color_end_ok (X : list (list float)) :
  mjoin X ≠ [] → ∃ e, color_end X = Ok e.
Proof.
  unfold color_end, np_min, np_max. destruct (mjoin X); [done|]. by eexists.
Qed.

(** X29. Without a percentile filter ([percentile_keep] not positive), and
    with the score matrix and the vocabulary in place, [residue_scores]
    returns normally exactly when the vocabulary has one entry for every
    column and the matrix has at least one row and one column, whatever
    its cells are (NaN and the infinities included); the heatmap it draws
    then has one row for every row of the matrix and in every row one cell
    for every column. *)
Theorem residue_scores_succeeds (adata : AnnData) (p : Q) (basis key : string)
    (save : option string) (w : world) (l : nat) (a : ndarray) (vocab : gmap nat string) :
  uns_array adata !! key = Some l →
  arrays w !! l = Some a →
  uns_vocabulary adata !! (basis +:+ "_vocabulary") = Some vocab →
  length (nd_data a) = nd_rows a * nd_cols a →
  (p <= 0)%Q →
  (size vocab = nd_cols a ∧ 0 < nd_rows a ∧ 0 < nd_cols a →
   ∃ w' ax X,
     residue_scores adata p basis key save w = (w', Ok ax) ∧
     drew_heatmap w w' X ∧
     length X = nd_rows a ∧ Forall (fun row => length row = nd_cols a) X) ∧
  (∀ w' ax, residue_scores adata p basis key save w = (w', Ok ax) →
     size vocab = nd_cols a ∧ 0 < nd_rows a ∧ 0 < nd_cols a).
Proof.
  intros Hl Ha Hvocab Hlen Hp.
  destruct (scores_X_shape a) as (_ & Hrows & Hcols).
  pose proof (scores_X_length a) as Hlen'.
  pose proof (keep_mask_nonpositive (rows_of (scores_X a)) p Hp) as Hmask.
  pose proof (keep_rows_replicate (rows_of (scores_X a))) as Hkeep.
  assert (mjoin (rows_of (scores_X a)) = nd_data (scores_X a)) as Hjoin.
  { apply rows_of_join. by rewrite Hlen', Hrows, Hcols. }
  split.
  - intros (Hsize & Hr & Hc).
    destruct (color_end_ok (rows_of (scores_X a))) as [e Hend].
    { rewrite Hjoin. intros Hnil. apply (f_equal length) in Hnil.
      rewrite Hlen', Hlen in Hnil. simpl in Hnil. nia. }
    rewrite <- Hkeep in Hend.
    destruct (residue_scores_heatmap adata p basis key save w l a vocab _ e
                Hl Ha Hvocab Hsize Hmask Hend) as (w' & ax & Hrun & Hdrew).
    rewrite Hkeep in Hdrew.
    exists w', ax, (scale (rows_of (scores_X a)) e). split_and!; [done..| |].
    + unfold scale, rows_of. by rewrite !length_fmap, length_seq.
    + unfold scale. apply Forall_fmap, Forall_forall. intros row Hrow. simpl.
      rewrite length_fmap, <- Hcols. apply rows_of_width; [|done].
      by rewrite Hlen', Hrows, Hcols.
  - intros w' ax. rewrite residue_scores_cases, Hl, Ha, Hvocab.
    destruct (Nat.eqb (size vocab) (nd_cols a)) eqn:Hsize; simpl; [|done].
    apply Nat.eqb_eq in Hsize. rewrite Hmask, Hkeep.
    destruct (color_end (rows_of (scores_X a))) as [e|e|] eqn:Hend; [|done..].
    intros _. split; [done|].
    unfold color_end in Hend. rewrite Hjoin in Hend.
    destruct (nd_data (scores_X a)) as [|x rest] eqn:Hdata; [done|].
    rewrite Hlen in Hlen'. simpl in Hlen'. nia.
Qed.

Lemma residue_scores_succeeds_witness :
  ∃ w' ax X,
    residue_scores example_adata 0 "onehot" "residue_scores" None nan_world = (w', Ok ax) ∧
    drew_heatmap nan_world w' X ∧ length X = 2.
Proof.
  destruct (residue_scores_succeeds example_adata 0 "onehot" "residue_scores" None
              nan_world 0 (NdArray float64 2 2 [nat_cell 1; NaN; nat_cell 2; nat_cell 3])
              {[0 := "A"; 1 := "C"]} eq_refl eq_refl eq_refl eq_refl)
    as [Hok _].
  - unfold Qle. simpl. lia.
  - destruct Hok as (w' & ax & X & Hrun & Hdrew & Hrows & _).
    + split_and!; [reflexivity|simpl; lia..].
    + by exists w', ax, X.
Defined.
